(** * geeparse: call-graph extraction, assembly and persistence

    A shallow embedding of the Go packages [lspclient], [callgraph] and
    [persistence] of geeparse, together with the earlier lexical extractor
    kept in [oldcode2.md], and the properties of the specification that
    concern them.

    Conventions of the embedding:
    - a Go [map[string]T] is a [gmap string T]; a Go set
      [map[string]struct{}] is a [gset string];
    - a Go slice is a [slice], which keeps the difference between the
      [nil] slice and an empty one (they encode differently in JSON);
    - the order in which [range] enumerates a map is not fixed by Go; it is
      a parameter of the functions that iterate, constrained only to be an
      enumeration of the map;
    - a Go function returning [(T, error)] returns a [result T]. *)

From stdpp Require Import gmap strings list fin_maps.

Set Default Proof Using "Type".

(** ** Go values shared by the packages *)

Inductive error :=
| errorString (msg : string)
| wrapError (msg : string) (cause : error).

Inductive result (A : Type) :=
| Ok (a : A)
| Err (e : error).
Arguments Ok {A} a.
Arguments Err {A} e.

Definition is_Ok {A} (r : result A) : Prop :=
  match r with Ok _ => True | Err _ => False end.

(** A slice of the Go runtime, as far as the program observes it: the
    [nil] slice or a (possibly empty) sequence of elements. *)
Inductive slice (A : Type) :=
| nil_slice
| make_slice (l : list A).
Arguments nil_slice {A}.
Arguments make_slice {A} l.

Definition elems {A} (s : slice A) : list A :=
  match s with
  | nil_slice => []
  | make_slice l => l
  end.

(** [append(s, x)]: the result is never [nil]. *)
Definition append {A} (s : slice A) (x : A) : slice A :=
  make_slice (elems s ++ [x]).

Definition is_nil {A} (s : slice A) : bool :=
  match s with
  | nil_slice => true
  | make_slice _ => false
  end.

(** [m[k]] on a map of slices: the zero value [nil] when [k] is missing. *)
Definition index (m : gmap string (slice string)) (k : string) : slice string :=
  default nil_slice (m !! k).

(** ** Package lspclient *)

Module lspclient.

(** What [Close] does to the world outside the [Client] struct. *)
Inductive effect :=
| ConnClose
| StreamClose
| ProcessKill
| Cancel.

(** The [Client] struct.  Its handles ([ctx], [stream], [conn],
    [goplsCmd]) are fixed at creation; the field that [Close] reads and
    writes is [connected]. *)
Record Client := {
  rootDir : string;
  connected : bool
}.

(** [Close]: returns the client after the call and the effects performed,
    in order. *)
Definition Close (c : Client) : Client * list effect :=
  if negb (connected c) then (c, [])
  else ({| rootDir := rootDir c; connected := false |},
        [ConnClose; StreamClose; ProcessKill; Cancel]).

(** What [New] depends on outside the program: the outcome of resolving
    the root directory, of creating the two pipes, of starting gopls, of
    the [initialize] call and of the [initialized] notification. *)
Record Host := {
  Abs : string → result string;
  ToSlash : string → string;
  StdinPipe : option error;
  StdoutPipe : option error;
  Start : option error;
  Initialize : string → option error;
  Initialized : option error
}.

(** What [New] does to the world, in order: what it acquires, what it
    sends, and the effects of [Close] it performs itself. *)
Inductive action :=
| WithCancel
| ProcessStart
| NewConn
| CallInitialize (rootURI : string)
| NotifyInitialized
| Did (e : effect).

(** [fileURI]: the error of [filepath.Abs] is dropped, the path is then
    empty. *)
Definition fileURI (host : Host) (path : string) : string :=
  "file://" +:+ ToSlash host match Abs host path with
                             | Ok abs => abs
                             | Err _ => ""
                             end.

Definition startGopls (host : Host) : option error * list action :=
  match StdinPipe host with
  | Some err => (Some err, [])
  | None =>
      match StdoutPipe host with
      | Some err => (Some err, [])
      | None =>
          match Start host with
          | Some err => (Some err, [])
          | None => (None, [ProcessStart])
          end
      end
  end.

Definition initialize (host : Host) (rootDir : string)
  : option error * list action :=
  let call := CallInitialize (fileURI host rootDir) in
  match Initialize host (fileURI host rootDir) with
  | Some err => (Some (wrapError "initialize failed" err), [call])
  | None =>
      match Initialized host with
      | Some err =>
          (Some (wrapError "initialized notification failed" err),
           [call; NotifyInitialized])
      | None => (None, [call; NotifyInitialized])
      end
  end.

Definition New (host : Host) (rootDir : string) : result Client * list action :=
  match Abs host rootDir with
  | Err err => (Err (wrapError "resolve root dir" err), [])
  | Ok absRoot =>
      match startGopls host with
      | (Some err, started) => (Err err, WithCancel :: started ++ [Did Cancel])
      | (None, started) =>
          match initialize host absRoot with
          | (Some err, sent) =>
              (Err err,
               WithCancel :: started ++ NewConn :: sent
               ++ [Did StreamClose; Did ProcessKill; Did Cancel])
          | (None, sent) =>
              (Ok {| rootDir := absRoot; connected := true |},
               WithCancel :: started ++ NewConn :: sent)
          end
      end
  end.

End lspclient.

(** ** The protocol values the extraction reads (go.lsp.dev/protocol) *)

Module protocol.

Record Position := {
  Line : Z;
  Character : Z
}.

Record CallHierarchyItem := {
  Name : string;
  URI : string
}.

Record CallHierarchyOutgoingCall := {
  To : CallHierarchyItem
}.

End protocol.

(** ** The syntax trees the extraction reads (go/ast, go/token) *)

Module ast.

(** Syntax nodes.  Identifiers, selector expressions and call expressions
    are the kinds the extractor tells apart; [Other] stands for a node of
    any other kind, with its children in traversal order. *)
Local Unset Elimination Schemes.
Inductive Node :=
| Ident (Name : string)
| SelectorExpr (X : Node) (Sel : string)
| CallExpr (Fun : Node) (Args : list Node)
| Other (children : list Node).
Local Set Elimination Schemes.

(** [token.Position] of a declared name. *)
Record Position := {
  Filename : string;
  Line : Z;
  Column : Z
}.

(** A function declaration.  [Type_] and [Body] are the syntax of the
    signature and of the body; [Body] is [None] for a declaration without
    body (an externally implemented function). *)
Record FuncDecl := {
  Name : string;
  NamePos : Position;
  Type_ : Node;
  Body : option Node
}.

Inductive Decl :=
| FuncDeclOf (fn : FuncDecl)
| GenDecl.

Record File := {
  Package : string;
  Decls : list Decl
}.

(** [ast.Inspect]: depth-first traversal calling [f] on every node before
    its children.  The callbacks of this program always return [true], so
    no subtree is pruned; [f] is given as a state transformer.  The
    children of a selector expression are [X] and the identifier [Sel], of
    a call expression [Fun] and then [Args]. *)
Fixpoint Inspect {S : Type} (f : Node → S → S) (n : Node) (s : S) : S :=
  let s := f n s in
  match n with
  | Ident _ => s
  | SelectorExpr X Sel => f (Ident Sel) (Inspect f X s)
  | CallExpr Fun Args =>
      foldl (λ s a, Inspect f a s) (Inspect f Fun s) Args
  | Other children =>
      foldl (λ s a, Inspect f a s) s children
  end.

End ast.

(** One entry handed to the callback of [filepath.WalkDir], with the
    outcome of [parser.ParseFile] for a [.go] file ([None]: parse error). *)
Inductive WalkEntry :=
| WalkError (e : error)
| Directory
| OtherFile
| GoSource (parsed : option ast.File).

(** ** Package callgraph *)

Module callgraph.

Record FunctionNode := {
  Callees : slice string;
  Signature : string;
  Definition_ : string
}.

Record funcDetail := {
  detSignature : string;
  detDefinition : string
}.

(** The [*lspclient.Client] as [BuildCallGraph] uses it: the outcome of
    [lspclient.New], of [OpenDocument] on a file, and the answers to the two
    call-hierarchy queries. *)
Record Client := {
  New : option error;
  OpenDocument : string → option error;
  PrepareCallHierarchy :
    string → protocol.Position → result (list protocol.CallHierarchyItem);
  OutgoingCalls :
    protocol.CallHierarchyItem → result (list protocol.CallHierarchyOutgoingCall)
}.

Definition uint32 (z : Z) : Z := z `mod` 2 ^ 32.

Section callgraph.

(** [printer.Fprint] on a signature and on a whole declaration. *)
Variable Fprint_type : ast.Node → string.
Variable Fprint_decl : ast.FuncDecl → string.

(** The order in which [range details] enumerates the detail map. *)
Variable range_details : gmap string funcDetail → list (string * funcDetail).

Definition declNames (names : gset string) (decl : ast.Decl) : gset string :=
  match decl with
  | ast.FuncDeclOf fn => {[ast.Name fn]} ∪ names
  | ast.GenDecl => names
  end.

(** [parseGoFiles]: the walk callback never returns an error, so the error
    result is always [nil] and is left out. *)
Definition parseGoFiles_visit (acc : gset string * list ast.File) (e : WalkEntry)
  : gset string * list ast.File :=
  match e with
  | WalkError _ | Directory | OtherFile => acc
  | GoSource None => acc
  | GoSource (Some astFile) =>
      (foldl declNames acc.1 (ast.Decls astFile), acc.2 ++ [astFile])
  end.

Definition parseGoFiles (walk : list WalkEntry) : gset string * list ast.File :=
  foldl parseGoFiles_visit (∅, []) walk.

Definition detail_decl (out : gmap string funcDetail) (decl : ast.Decl)
  : gmap string funcDetail :=
  match decl with
  | ast.FuncDeclOf fn =>
      <[ast.Name fn := {| detSignature := Fprint_type (ast.Type_ fn);
                          detDefinition := Fprint_decl fn |}]> out
  | ast.GenDecl => out
  end.

Definition extractDetails (files : list ast.File) : gmap string funcDetail :=
  foldl (λ out f, foldl detail_decl out (ast.Decls f)) ∅ files.

(** The body of the loop over [outgoing]: the state is the graph and the
    [seen] set of the current declaration. *)
Definition record_call (names : gset string) (caller : string)
    (st : gmap string (slice string) * gset string)
    (call : protocol.CallHierarchyOutgoingCall)
  : gmap string (slice string) * gset string :=
  let callee := protocol.Name (protocol.To call) in
  if decide (callee ∈ names) then
    if decide (callee ∈ st.2) then st
    else (<[caller := append (index st.1 caller) callee]> st.1, {[callee]} ∪ st.2)
  else st.

(** The body of the loop over the declarations of a file. *)
Definition graph_decl (client : Client) (names : gset string)
    (graph : gmap string (slice string)) (decl : ast.Decl)
  : gmap string (slice string) :=
  match decl with
  | ast.GenDecl => graph
  | ast.FuncDeclOf fn =>
      match ast.Body fn with
      | None => graph
      | Some _ =>
          let caller := ast.Name fn in
          let pos := ast.NamePos fn in
          let protoPos :=
            {| protocol.Line := uint32 (ast.Line pos - 1);
               protocol.Character := uint32 (ast.Column pos - 1) |} in
          let file := ast.Filename pos in
          match PrepareCallHierarchy client file protoPos with
          | Err _ => graph
          | Ok [] => graph
          | Ok (root :: _) =>
              match OutgoingCalls client root with
              | Err _ => graph
              | Ok outgoing =>
                  (foldl (record_call names caller) (graph, ∅) outgoing).1
              end
          end
      end
  end.

Definition extractGraphLSP (client : Client) (files : list ast.File)
    (names : gset string) : result (gmap string (slice string)) :=
  Ok (foldl (λ graph f, foldl (graph_decl client names) graph (ast.Decls f))
        ∅ files).

(** Step 6 of [BuildCallGraph]: one node per entry of [details]. *)
Definition assemble_entry (rawGraph : gmap string (slice string))
    (out : gmap string FunctionNode) (e : string * funcDetail)
  : gmap string FunctionNode :=
  let callees := index rawGraph e.1 in
  let callees := if is_nil callees then make_slice [] else callees in
  <[e.1 := {| Callees := callees;
              Signature := detSignature e.2;
              Definition_ := detDefinition e.2 |}]> out.

Definition assemble (details : gmap string funcDetail)
    (rawGraph : gmap string (slice string)) : gmap string FunctionNode :=
  foldl (assemble_entry rawGraph) ∅ (range_details details).

(** Step 4 of [BuildCallGraph]: open every file, stop at the first error. *)
Fixpoint openAll (client : Client) (files : list ast.File) : option error :=
  match files with
  | [] => None
  | f :: files =>
      match OpenDocument client (ast.Package f) with
      | Some err => Some err
      | None => openAll client files
      end
  end.

(** [BuildCallGraph]; [walk] is what walking [rootDir] yields.  The
    deferred [client.Close()] does not bear on the result. *)
Definition BuildCallGraph (client : Client) (walk : list WalkEntry)
  : result (gmap string FunctionNode) :=
  let '(names, files) := parseGoFiles walk in
  let details := extractDetails files in
  match New client with
  | Some err => Err err
  | None =>
      match openAll client files with
      | Some err => Err err
      | None =>
          match extractGraphLSP client files names with
          | Err err => Err err
          | Ok rawGraph => Ok (assemble details rawGraph)
          end
      end
  end.

End callgraph.

End callgraph.

(** ** The lexical extractor of oldcode2.md *)

Module oldcode2.

Section oldcode2.

Variable Fprint_type : ast.Node → string.
Variable Fprint_decl : ast.FuncDecl → string.
Variable range_details :
  gmap string callgraph.funcDetail → list (string * callgraph.funcDetail).

(** The order in which [range calleeSet] enumerates a set of names. *)
Variable range_calleeSet : gset string → list string.

(** [parseGoFiles]: here the callback returns the walk error it is given,
    which stops the walk; what was collected so far is returned with it. *)
Fixpoint parseGoFiles_from (walk : list WalkEntry)
    (funcNames : gset string) (fileAsts : list ast.File)
  : gset string * list ast.File * option error :=
  match walk with
  | [] => (funcNames, fileAsts, None)
  | WalkError err :: _ => (funcNames, fileAsts, Some err)
  | Directory :: walk | OtherFile :: walk | GoSource None :: walk =>
      parseGoFiles_from walk funcNames fileAsts
  | GoSource (Some f) :: walk =>
      parseGoFiles_from walk
        (foldl callgraph.declNames funcNames (ast.Decls f)) (fileAsts ++ [f])
  end.

Definition parseGoFiles (walk : list WalkEntry)
  : gset string * list ast.File * option error :=
  parseGoFiles_from walk ∅ [].

(** [extractFuncDetails] has the loop of [callgraph.extractDetails]; its
    [funcNames] argument is not read. *)
Definition extractFuncDetails (funcNames : gset string) (files : list ast.File)
  : gmap string callgraph.funcDetail :=
  callgraph.extractDetails Fprint_type Fprint_decl files.

(** The callback given to [ast.Inspect] in [extractCallGraph]. *)
Definition visit (funcNames : gset string) (n : ast.Node)
    (calleeSet : gset string) : gset string :=
  match n with
  | ast.CallExpr (ast.Ident name) _ =>
      if decide (name ∈ funcNames) then {[name]} ∪ calleeSet else calleeSet
  | ast.CallExpr (ast.SelectorExpr _ sel) _ =>
      if decide (sel ∈ funcNames) then {[sel]} ∪ calleeSet else calleeSet
  | _ => calleeSet
  end.

(** The edges one body contributes, in the order they are appended. *)
Definition calleesOf (funcNames : gset string) (body : ast.Node) : list string :=
  range_calleeSet (ast.Inspect (visit funcNames) body ∅).

Definition appendAll (caller : string) (graph : gmap string (slice string))
    (callees : list string) : gmap string (slice string) :=
  foldl (λ graph callee, <[caller := append (index graph caller) callee]> graph)
    graph callees.

Definition graph_decl (funcNames : gset string)
    (graph : gmap string (slice string)) (decl : ast.Decl)
  : gmap string (slice string) :=
  match decl with
  | ast.FuncDeclOf fn =>
      match ast.Body fn with
      | Some body => appendAll (ast.Name fn) graph (calleesOf funcNames body)
      | None => graph
      end
  | ast.GenDecl => graph
  end.

Definition extractCallGraph (funcNames : gset string) (files : list ast.File)
  : gmap string (slice string) :=
  foldl (λ graph f, foldl (graph_decl funcNames) graph (ast.Decls f)) ∅ files.

(** [buildCallGraph]; its merge loop is the one of
    [callgraph.BuildCallGraph]. *)
Definition buildCallGraph (walk : list WalkEntry)
  : result (gmap string callgraph.FunctionNode) :=
  let '(funcNames, fileAsts, err) := parseGoFiles walk in
  match err with
  | Some err => Err err
  | None =>
      let details := extractFuncDetails funcNames fileAsts in
      let raw := extractCallGraph funcNames fileAsts in
      Ok (callgraph.assemble range_details details raw)
  end.

End oldcode2.

End oldcode2.

(** ** Package persistence *)

Module persistence.

Import callgraph.

(** The content of the SQLite file under the schema of [NewStore]: the
    relation [functions], keyed by its primary key [name], and the relation
    [calls], a set of pairs since [(caller, callee)] is its primary key. *)
Record DB := {
  functions : gmap string (string * string);
  calls : gset (string * string)
}.

(** A [Store]: the committed content, the content as the open transaction
    sees it (if one is open), and whether the connection enforces foreign
    keys ([NewStore] turns them on). *)
Record Store := {
  db : DB;
  tx : option DB;
  foreign_keys : bool
}.

(** The calls into database/sql, each of which may report an error. *)
Inductive step :=
| StOpen
| StSchema
| StBegin
| StDeleteCalls
| StDeleteFunctions
| StPrepareInsertFn
| StPrepareInsertCall
| StInsertFn (name : string)
| StInsertCall (caller callee : string)
| StCommit
| StQueryFunctions
| StScanFunction (name : string)
| StFunctionsErr
| StQueryCalls
| StScanCall (caller callee : string)
| StCallsErr.

(** The errors the environment injects: [None] lets the call proceed. *)
Definition faults := step → option error.

Definition no_faults : faults := λ _, None.

(** Code that threads the store and may fail. *)
Definition M (A : Type) : Type := Store → Store * result A.

Definition ret {A} (a : A) : M A := λ s, (s, Ok a).

Definition bind {A B} (m : M A) (f : A → M B) : M B := λ s,
  match m s with
  | (s', Ok a) => f a s'
  | (s', Err e) => (s', Err e)
  end.

#[local] Instance M_ret : MRet M := @ret.
#[local] Instance M_bind : MBind M := λ A B f m, bind m f.

#[local] Instance result_ret : MRet result := λ A a, Ok a.
#[local] Instance result_bind : MBind result := λ A B f m,
  match m with
  | Ok a => f a
  | Err e => Err e
  end.

Fixpoint forM_ {A} (l : list A) (f : A → M unit) : M unit :=
  match l with
  | [] => mret tt
  | x :: l => f x ;; forM_ l f
  end.

(** *** The engine *)

Definition known (d : DB) (name : string) : bool :=
  bool_decide (name ∈ dom (functions d)).

(** [DELETE FROM calls] *)
Definition delete_calls (fk : bool) (d : DB) : result DB :=
  Ok {| functions := functions d; calls := ∅ |}.

(** [DELETE FROM functions]; with foreign keys on, the delete cascades to
    the edges that reference a deleted function. *)
Definition delete_functions (fk : bool) (d : DB) : result DB :=
  Ok {| functions := ∅;
        calls := if fk
                 then filter (λ e, known d e.1 = false ∧ known d e.2 = false) (calls d)
                 else calls d |}.

(** [INSERT INTO functions(name, signature, definition) VALUES(?,?,?)] *)
Definition insert_function (name sig def : string) (fk : bool) (d : DB)
  : result DB :=
  if known d name
  then Err (errorString "UNIQUE constraint failed: functions.name")
  else Ok {| functions := <[name := (sig, def)]> (functions d);
             calls := calls d |}.

(** [INSERT OR IGNORE INTO calls(caller, callee) VALUES(?,?)]: a row that
    is already there is skipped; a new row must satisfy the foreign keys
    when they are enforced. *)
Definition insert_call (caller callee : string) (fk : bool) (d : DB)
  : result DB :=
  if bool_decide ((caller, callee) ∈ calls d) then Ok d
  else if fk && negb (known d caller && known d callee)
  then Err (errorString "FOREIGN KEY constraint failed")
  else Ok {| functions := functions d;
             calls := {[(caller, callee)]} ∪ calls d |}.

(** [db.Begin]: one writer at a time. *)
Definition Begin (F : faults) : M unit := λ s,
  match F StBegin with
  | Some err => (s, Err err)
  | None =>
      match tx s with
      | Some _ => (s, Err (errorString "database is locked"))
      | None =>
          ({| db := db s; tx := Some (db s); foreign_keys := foreign_keys s |},
           Ok tt)
      end
  end.

(** [tx.Exec] and [stmt.Exec] of a statement inside the open transaction;
    a statement that fails changes nothing. *)
Definition Exec (F : faults) (st : step) (stmt : bool → DB → result DB)
  : M unit := λ s,
  match F st with
  | Some err => (s, Err err)
  | None =>
      match tx s with
      | None => (s, Err (errorString "sql: transaction has already been committed or rolled back"))
      | Some d =>
          match stmt (foreign_keys s) d with
          | Err err => (s, Err err)
          | Ok d' =>
              ({| db := db s; tx := Some d'; foreign_keys := foreign_keys s |},
               Ok tt)
          end
      end
  end.

(** [tx.Prepare] *)
Definition Prepare (F : faults) (st : step) : M unit :=
  Exec F st (λ _ d, Ok d).

(** [tx.Rollback]: the transaction's view is dropped.  The code ignores
    the error [Rollback] may return. *)
Definition Rollback (s : Store) : Store :=
  {| db := db s; tx := None; foreign_keys := foreign_keys s |}.

(** [tx.Commit]: the transaction's view becomes the committed content; a
    commit that fails makes nothing visible and ends the transaction (the
    driver rolls back when [COMMIT] fails). *)
Definition Commit (F : faults) : M unit := λ s,
  match F StCommit with
  | Some err => (Rollback s, Err err)
  | None =>
      match tx s with
      | None => (s, Err (errorString "sql: transaction has already been committed or rolled back"))
      | Some d =>
          ({| db := d; tx := None; foreign_keys := foreign_keys s |}, Ok tt)
      end
  end.

(** The pattern [if err != nil { tx.Rollback(); return err }], with the
    wrapping the caller applies to the error. *)
Definition orRollback (wrap : error → error) (m : M unit) : M unit := λ s,
  match m s with
  | (s', Err err) => (Rollback s', Err (wrap err))
  | r => r
  end.

Section persistence.

(** The orders in which the two [range graph] loops of [SaveGraph]
    enumerate the graph, and in which the two queries of [LoadGraph] return
    the rows. *)
Variable range_functions range_calls :
  gmap string FunctionNode → list (string * FunctionNode).
Variable rows_functions :
  gmap string (string * string) → list (string * (string * string)).
Variable rows_calls : gset (string * string) → list (string * string).

(** [NewStore] on a file holding [file]: the schema statements turn
    foreign keys on, create what is missing and keep what is there. *)
Definition NewStore (F : faults) (file : DB) : result Store :=
  match F StOpen with
  | Some err => Err (wrapError "open sqlite db" err)
  | None =>
      match F StSchema with
      | Some err => Err (wrapError "init schema" err)
      | None => Ok {| db := file; tx := None; foreign_keys := true |}
      end
  end.

Definition SaveGraph (F : faults) (graph : gmap string FunctionNode) : M unit :=
  Begin F ;;
  orRollback id (Exec F StDeleteCalls delete_calls) ;;
  orRollback id (Exec F StDeleteFunctions delete_functions) ;;
  orRollback id (Prepare F StPrepareInsertFn) ;;
  orRollback id (Prepare F StPrepareInsertCall) ;;
  forM_ (range_functions graph) (λ e,
    orRollback (wrapError ("insert function " +:+ e.1))
      (Exec F (StInsertFn e.1)
         (insert_function e.1 (Signature e.2) (Definition_ e.2)))) ;;
  forM_ (range_calls graph) (λ e,
    forM_ (elems (Callees e.2)) (λ callee,
      orRollback (wrapError ("insert call " +:+ e.1 +:+ "→" +:+ callee))
        (Exec F (StInsertCall e.1 callee) (insert_call e.1 callee)))) ;;
  Commit F.

(** The first loop of [LoadGraph]. *)
Fixpoint load_functions (F : faults) (rows : list (string * (string * string)))
    (graph : gmap string FunctionNode) : result (gmap string FunctionNode) :=
  match rows with
  | [] => Ok graph
  | (name, (sig, def)) :: rows =>
      match F (StScanFunction name) with
      | Some err => Err err
      | None =>
          load_functions F rows
            (<[name := {| Callees := make_slice [];
                          Signature := sig;
                          Definition_ := def |}]> graph)
      end
  end.

(** The second loop of [LoadGraph]. *)
Fixpoint load_calls (F : faults) (edgeRows : list (string * string))
    (graph : gmap string FunctionNode) : result (gmap string FunctionNode) :=
  match edgeRows with
  | [] => Ok graph
  | (caller, callee) :: edgeRows =>
      match F (StScanCall caller callee) with
      | Some err => Err err
      | None =>
          load_calls F edgeRows
            match graph !! caller with
            | Some node =>
                <[caller := {| Callees := append (Callees node) callee;
                               Signature := Signature node;
                               Definition_ := Definition_ node |}]> graph
            | None => graph
            end
      end
  end.

Definition check (F : faults) (st : step) : result unit :=
  match F st with
  | Some err => Err err
  | None => Ok tt
  end.

Definition LoadGraph (F : faults) (s : Store)
  : result (gmap string FunctionNode) :=
  check F StQueryFunctions ;;
  graph ← load_functions F (rows_functions (functions (db s))) ∅ ;
  check F StFunctionsErr ;;
  check F StQueryCalls ;;
  graph ← load_calls F (rows_calls (calls (db s))) graph ;
  check F StCallsErr ;;
  mret graph.

End persistence.

End persistence.

(** ** Package main (main.go) *)

Module main.

(** How [main] ends: [log.Fatal] on an error, or the server serving
    [graph] at [addr] for as long as it listens. *)
Inductive exit :=
| Fatal (err : error)
| Serving (addr : string) (graph : gmap string callgraph.FunctionNode).

Section main.

Variable Fprint_type : ast.Node → string.
Variable Fprint_decl : ast.FuncDecl → string.
Variable range_details :
  gmap string callgraph.funcDetail → list (string * callgraph.funcDetail).
Variable range_functions range_calls :
  gmap string callgraph.FunctionNode → list (string * callgraph.FunctionNode).
Variable rows_functions :
  gmap string (string * string) → list (string * (string * string)).
Variable rows_calls : gset (string * string) → list (string * string).

(** [main]: [walk] is what walking ["."] yields, [file] the content of
    [graph.db], [listen] the error [http.ListenAndServe] returns, if it
    returns. *)
Definition main (client : callgraph.Client) (walk : list WalkEntry)
    (F : persistence.faults) (file : persistence.DB)
    (listen : string → option error) : exit :=
  match callgraph.BuildCallGraph Fprint_type Fprint_decl range_details
          client walk with
  | Err err => Fatal err
  | Ok graph =>
      match persistence.NewStore F file with
      | Err err => Fatal err
      | Ok store =>
          match persistence.SaveGraph range_functions range_calls F graph store with
          | (_, Err err) => Fatal err
          | (store, Ok _) =>
              match persistence.LoadGraph rows_functions rows_calls F store with
              | Err err => Fatal err
              | Ok loaded =>
                  match listen ":8080" with
                  | Some err => Fatal err
                  | None => Serving ":8080" loaded
                  end
              end
          end
      end
  end.

End main.

End main.

(** ** Package server (server.go): the script of the page *)

Module server.

(** The objects [toTree] builds: [{name, signature, definition, children}],
    and [{name: 'root', children}] at the top, which has neither signature
    nor definition. *)
Local Unset Elimination Schemes.
Inductive Tree :=
| mkTree (name : string) (detail : option (string * string))
    (children : list Tree).
Local Set Elimination Schemes.

(** How a call of the script ends: with a value, or with the [TypeError]
    of reading a property of [undefined] or [null].  [OutOfFuel] is not an
    outcome of the script: it marks a recursion cut short by the bound that
    makes [build] a structural recursion. *)
Inductive outcome (A : Type) :=
| Returns (a : A)
| TypeError
| OutOfFuel.
Arguments Returns {A} a.
Arguments TypeError {A}.
Arguments OutOfFuel {A}.

(** [array.map(f)], which stops at the first call that does not return. *)
Fixpoint map_outcome {A B} (f : A → outcome B) (l : list A) : outcome (list B) :=
  match l with
  | [] => Returns []
  | x :: l =>
      match f x with
      | Returns y =>
          match map_outcome f l with
          | Returns ys => Returns (y :: ys)
          | TypeError => TypeError
          | OutOfFuel => OutOfFuel
          end
      | TypeError => TypeError
      | OutOfFuel => OutOfFuel
      end
  end.

Section toTree.

(** The graph as [/graph.json] delivers it: [obj[name]] is a node or
    [undefined]; a [nil] callee slice arrives as [null]. *)
Variable obj : gmap string callgraph.FunctionNode.

(** [build(name, vis)]; each child is built with its own copy of [vis],
    to which [name] has been added. *)
Fixpoint build (fuel : nat) (name : string) (vis : gset string) : outcome Tree :=
  match fuel with
  | 0 => OutOfFuel
  | S fuel =>
      if decide (name ∈ vis) then
        match obj !! name with
        | None => TypeError
        | Some node =>
            Returns (mkTree name
                       (Some (callgraph.Signature node, callgraph.Definition_ node))
                       [])
        end
      else
        match obj !! name with
        | None => TypeError
        | Some node =>
            match callgraph.Callees node with
            | nil_slice => TypeError
            | make_slice callees =>
                match map_outcome (λ c, build fuel c ({[name]} ∪ vis)) callees with
                | Returns children =>
                    Returns (mkTree name
                               (Some (callgraph.Signature node,
                                      callgraph.Definition_ node))
                               children)
                | TypeError => TypeError
                | OutOfFuel => OutOfFuel
                end
            end
        end
  end.

(** [all.delete(c)] on a set kept in insertion order. *)
Definition delete_name (c : string) (all : list string) : list string :=
  filter (λ k, k ≠ c) all.

(** [Object.values(obj).forEach(n => n.callees.forEach(c => all.delete(c)))],
    the values taken in the order of the keys. *)
Fixpoint delete_callees (values : list callgraph.FunctionNode)
    (all : list string) : outcome (list string) :=
  match values with
  | [] => Returns all
  | n :: values =>
      match callgraph.Callees n with
      | nil_slice => TypeError
      | make_slice callees =>
          delete_callees values (foldl (λ all c, delete_name c all) all callees)
      end
  end.

(** [toTree(obj)]; [keys] is [Object.keys(obj)].  No call of [build] nests
    deeper than the number of keys plus one. *)
Definition toTree (keys : list string) : outcome Tree :=
  match delete_callees (omap (λ k, obj !! k) keys) keys with
  | Returns all =>
      match map_outcome (λ r, build (S (size obj)) r ∅) all with
      | Returns children => Returns (mkTree "root" None children)
      | TypeError => TypeError
      | OutOfFuel => OutOfFuel
      end
  | TypeError => TypeError
  | OutOfFuel => OutOfFuel
  end.

End toTree.

Definition name_of (t : Tree) : string :=
  match t with mkTree name _ _ => name end.

(** The number of nodes on the longest path from a node down to a leaf. *)
Fixpoint height (t : Tree) : nat :=
  match t with
  | mkTree _ _ children => S (foldr (λ c h, height c `max` h) 0 children)
  end.

End server.

(** Some function of the graph lists [name] as a callee. *)
Definition called (obj : gmap string callgraph.FunctionNode) (name : string) : Prop :=
  ∃ caller node, obj !! caller = Some node
    ∧ name ∈ elems (callgraph.Callees node).

#[global] Instance called_dec obj name : Decision (called obj name).
Proof.
  refine (cast_if (decide (Exists (λ e, name ∈ elems (callgraph.Callees e.2))
                             (map_to_list obj)))).
  - apply Exists_exists in e as ([caller node] & Hin & ?).
    exists caller, node. by apply elem_of_map_to_list in Hin.
  - intros (caller & node & Hnode & ?). apply n, Exists_exists.
    exists (caller, node). by rewrite elem_of_map_to_list.
Defined.

(** [caller] lists [callee] as a callee. *)
Definition calls (obj : gmap string callgraph.FunctionNode)
    (caller callee : string) : Prop :=
  ∃ node, obj !! caller = Some node
    ∧ callee ∈ elems (callgraph.Callees node).

#[global] Instance calls_dec obj caller callee :
  Decision (calls obj caller callee).
Proof.
  unfold calls. destruct (obj !! caller) as [node|].
  - destruct (decide (callee ∈ elems (callgraph.Callees node))) as [Hin|Hnot].
    + left. by exists node.
    + right. by intros (? & [= <-] & ?).
  - right. by intros (? & ? & _).
Defined.

(** ** The script of the earlier page (oldcode2.md) *)

Module oldcode2_page.

Import server.

Section toTree.

Variable obj : gmap string callgraph.FunctionNode.

(** [build(name)]: the recursion follows the callees with no record of the
    names it came through.  [fuel] bounds the depth of the nesting. *)
Fixpoint build (fuel : nat) (name : string) : outcome Tree :=
  match fuel with
  | 0 => OutOfFuel
  | S fuel =>
      match obj !! name with
      | None => TypeError
      | Some node =>
          match callgraph.Callees node with
          | nil_slice => TypeError
          | make_slice callees =>
              match map_outcome (build fuel) callees with
              | Returns children =>
                  Returns (mkTree name
                             (Some (callgraph.Signature node,
                                    callgraph.Definition_ node))
                             children)
              | TypeError => TypeError
              | OutOfFuel => OutOfFuel
              end
          end
      end
  end.

(** [toTree(obj)]; the roots are computed as on the later page. *)
Definition toTree (fuel : nat) (keys : list string) : outcome Tree :=
  match delete_callees (omap (λ k, obj !! k) keys) keys with
  | Returns roots =>
      match map_outcome (build fuel) roots with
      | Returns children => Returns (mkTree "root" None children)
      | TypeError => TypeError
      | OutOfFuel => OutOfFuel
      end
  | TypeError => TypeError
  | OutOfFuel => OutOfFuel
  end.

End toTree.

End oldcode2_page.

(** ** The per-file listing (oldcode2.md) *)

Module oldcode2_list.

Section listCallHierarchy.

(** The orders in which [range calls] and [range calleeSet] enumerate. *)
Variable range_calls : gmap string (gset string) → list (string * gset string).
Variable range_calleeSet : gset string → list string.

(** One step of the loop that fills [calls]: a declaration with a body
    gets a fresh entry, which the callback of [extractCallGraph], here over
    the names of the file, fills. *)
Definition calls_decl (funcNames : gset string)
    (calls : gmap string (gset string)) (decl : ast.Decl)
  : gmap string (gset string) :=
  match decl with
  | ast.FuncDeclOf fn =>
      match ast.Body fn with
      | Some body =>
          <[ast.Name fn := ast.Inspect (oldcode2.visit funcNames) body ∅]> calls
      | None => calls
      end
  | ast.GenDecl => calls
  end.

(** The map [calls] of [listCallHierarchy] when the file is parsed. *)
Definition calls (file : ast.File) : gmap string (gset string) :=
  let funcNames := foldl callgraph.declNames ∅ (ast.Decls file) in
  foldl (calls_decl funcNames) ∅ (ast.Decls file).

Definition print_caller (e : string * gset string) : list string :=
  ("  - " +:+ e.1 +:+ " calls:")
  :: (if decide (size e.2 = 0) then ["      • none"] else [])
  ++ ((λ callee, "      • " +:+ callee) <$> range_calleeSet e.2).

(** [listCallHierarchy]: the lines it prints on standard output; a file
    that does not parse is logged and gives none. *)
Definition listCallHierarchy (parsed : option ast.File) : list string :=
  match parsed with
  | None => []
  | Some file =>
      ("Call hierarchy in " +:+ ast.Package file +:+ ":")
      :: concat (print_caller <$> range_calls (calls file)) ++ [""]
  end.

End listCallHierarchy.

End oldcode2_list.

(** ** The invariants of a graph and the call sites of a body *)

(** Closed world: every callee of every node is a key of the graph. *)
Definition closed_world (g : gmap string callgraph.FunctionNode) : Prop :=
  map_Forall (λ _ node,
    Forall (λ callee, callee ∈ dom g) (elems (callgraph.Callees node))) g.

(** Completeness with respect to a set of declared names. *)
Definition complete (names : gset string)
    (g : gmap string callgraph.FunctionNode) : Prop :=
  names ⊆ dom g.

(** No callee list holds a name twice. *)
Definition duplicate_free (g : gmap string callgraph.FunctionNode) : Prop :=
  map_Forall (λ _ node, NoDup (elems (callgraph.Callees node))) g.

#[global] Instance is_Ok_dec {A} (r : result A) : Decision (is_Ok r).
Proof. destruct r; simpl; apply _. Defined.

#[global] Instance closed_world_dec g : Decision (closed_world g).
Proof. unfold closed_world. apply _. Defined.

#[global] Instance complete_dec names g : Decision (complete names g).
Proof. unfold complete. apply _. Defined.

#[global] Instance duplicate_free_dec g : Decision (duplicate_free g).
Proof. unfold duplicate_free. apply _. Defined.

(** The target names of the call expressions of a syntax tree, one per
    call site: the identifier of a call [f(...)], the trailing selector
    name of a call [x.f(...)]; calls of any other form have no target
    name. *)
Definition call_target (n : ast.Node) : list string :=
  match n with
  | ast.CallExpr (ast.Ident name) _ => [name]
  | ast.CallExpr (ast.SelectorExpr _ sel) _ => [sel]
  | _ => []
  end.

Fixpoint call_sites (n : ast.Node) : list string :=
  call_target n ++
  match n with
  | ast.Ident _ => []
  | ast.SelectorExpr X _ => call_sites X
  | ast.CallExpr Fun Args => call_sites Fun ++ concat (map call_sites Args)
  | ast.Other children => concat (map call_sites children)
  end.

(** The declarations of a list of files, in processing order. *)
Definition allDecls (files : list ast.File) : list ast.Decl :=
  concat (ast.Decls <$> files).

(** The files a walk hands to the extraction: those that parsed. *)
Definition parsed (walk : list WalkEntry) : list ast.File :=
  omap (λ e, match e with GoSource (Some f) => Some f | _ => None end) walk.

(** A declaration does not declare [name]. *)
Definition not_named (name : string) (d : ast.Decl) : Prop :=
  match d with
  | ast.FuncDeclOf fn => ast.Name fn ≠ name
  | ast.GenDecl => True
  end.

(** The number of times a name occurs in a list. *)
Definition occurrences (name : string) (l : list string) : nat :=
  length (filter (λ x, x = name) l).

(** The edges a declaration yields when it is processed on its own, in
    precision mode and in lexical mode. *)
Definition lsp_edges (client : callgraph.Client) (names : gset string)
    (fn : ast.FuncDecl) : list string :=
  elems (index (callgraph.graph_decl client names ∅ (ast.FuncDeclOf fn))
           (ast.Name fn)).

Definition lexical_edges (range_calleeSet : gset string → list string)
    (names : gset string) (fn : ast.FuncDecl) : list string :=
  elems (index (oldcode2.graph_decl range_calleeSet names ∅ (ast.FuncDeclOf fn))
           (ast.Name fn)).

(** The edges that the declarations of [ds] named [k] yield, in order. *)
Definition edges_of (edges : ast.FuncDecl → list string) (k : string)
    (ds : list ast.Decl) : list string :=
  concat (map (λ d, match d with
                    | ast.FuncDeclOf fn =>
                        if decide (ast.Name fn = k) then edges fn else []
                    | ast.GenDecl => []
                    end) ds).

(** The names the loop over [outgoing] appends, given the names already
    seen. *)
Fixpoint new_callees (names seen : gset string)
    (outgoing : list protocol.CallHierarchyOutgoingCall) : list string :=
  match outgoing with
  | [] => []
  | call :: outgoing =>
      let callee := protocol.Name (protocol.To call) in
      if decide (callee ∈ names) then
        if decide (callee ∈ seen) then new_callees names seen outgoing
        else callee :: new_callees names ({[callee]} ∪ seen) outgoing
      else new_callees names seen outgoing
  end.

(** The two queries of one declaration, and when they yield nothing: the
    first fails, or finds no item, or the second fails. *)
Definition protoPos (fn : ast.FuncDecl) : protocol.Position :=
  {| protocol.Line := callgraph.uint32 (ast.Line (ast.NamePos fn) - 1);
     protocol.Character := callgraph.uint32 (ast.Column (ast.NamePos fn) - 1) |}.

Definition prepare (client : callgraph.Client) (fn : ast.FuncDecl)
  : result (list protocol.CallHierarchyItem) :=
  callgraph.PrepareCallHierarchy client (ast.Filename (ast.NamePos fn)) (protoPos fn).

Definition query_fails (client : callgraph.Client) (fn : ast.FuncDecl) : Prop :=
  match prepare client fn with
  | Err _ => True
  | Ok [] => True
  | Ok (root :: _) =>
      match callgraph.OutgoingCalls client root with
      | Err _ => True
      | Ok _ => False
      end
  end.

(** The node the assembly builds for [name]. *)
Definition node_of (rawGraph : gmap string (slice string)) (name : string)
    (det : callgraph.funcDetail) : callgraph.FunctionNode :=
  {| callgraph.Callees :=
       if is_nil (index rawGraph name) then make_slice [] else index rawGraph name;
     callgraph.Signature := callgraph.detSignature det;
     callgraph.Definition_ := callgraph.detDefinition det |}.

(** The edges of one declaration in precision mode, in closed form. *)
Definition lsp_callees (client : callgraph.Client) (names : gset string)
    (fn : ast.FuncDecl) : list string :=
  match ast.Body fn with
  | None => []
  | Some _ =>
      match prepare client fn with
      | Ok (root :: _) =>
          match callgraph.OutgoingCalls client root with
          | Ok outgoing => new_callees names ∅ outgoing
          | Err _ => []
          end
      | _ => []
      end
  end.

(** Every declaration of [name] in [ds] is without body. *)
Definition only_bodyless (name : string) (ds : list ast.Decl) : Prop :=
  Forall (λ d, match d with
               | ast.FuncDeclOf fn => ast.Name fn = name → ast.Body fn = None
               | ast.GenDecl => True
               end) ds.

(** The graph a pipeline assembles from the files of a walk, given the
    loop body [step] of its edge extraction. *)
Definition assembled_with
    (Fprint_type : ast.Node → string) (Fprint_decl : ast.FuncDecl → string)
    (range_details :
       gmap string callgraph.funcDetail → list (string * callgraph.funcDetail))
    (step : gset string → gmap string (slice string) → ast.Decl
            → gmap string (slice string))
    (walk : list WalkEntry) : gmap string callgraph.FunctionNode :=
  let ds := allDecls (parsed walk) in
  callgraph.assemble range_details
    (foldl (callgraph.detail_decl Fprint_type Fprint_decl) ∅ ds)
    (foldl (step (foldl callgraph.declNames ∅ ds)) ∅ ds).

(** The store with [d] as the view of its open transaction. *)
Definition with_tx (s : persistence.Store) (d : persistence.DB) : persistence.Store :=
  {| persistence.db := persistence.db s;
     persistence.tx := Some d;
     persistence.foreign_keys := persistence.foreign_keys s |}.

(** The steps of a save that the specification lists as able to fail: the
    two deletes, the two statement preparations, the insert of each
    function row and the insert of each edge row. *)
Definition save_step (graph : gmap string callgraph.FunctionNode)
    (st : persistence.step) : Prop :=
  match st with
  | persistence.StDeleteCalls | persistence.StDeleteFunctions
  | persistence.StPrepareInsertFn | persistence.StPrepareInsertCall => True
  | persistence.StInsertFn name => name ∈ dom graph
  | persistence.StInsertCall caller callee =>
      ∃ node, graph !! caller = Some node
        ∧ callee ∈ elems (callgraph.Callees node)
  | _ => False
  end.

(** A piece of a transaction: when it succeeds it leaves the committed
    content alone, when it fails it has rolled back. *)
Definition tx_step (m : persistence.M unit) : Prop :=
  ∀ s s' r, m s = (s', r) →
    match r with
    | Ok _ => persistence.db s' = persistence.db s
              ∧ persistence.foreign_keys s' = persistence.foreign_keys s
    | Err _ => s' = persistence.Rollback s
    end.

(** The end of a transaction: when it fails it has rolled back. *)
Definition tx_end (m : persistence.M unit) : Prop :=
  ∀ s s' e, m s = (s', Err e) → s' = persistence.Rollback s.

(** The rows a graph is saved as. *)
Definition function_rows (graph : gmap string callgraph.FunctionNode)
  : gmap string (string * string) :=
  (λ node, (callgraph.Signature node, callgraph.Definition_ node)) <$> graph.

Definition function_row (e : string * callgraph.FunctionNode)
  : string * (string * string) :=
  (e.1, (callgraph.Signature e.2, callgraph.Definition_ e.2)).

Definition edge_rows (l : list (string * callgraph.FunctionNode))
  : list (string * string) :=
  l ≫= λ e, (λ callee, (e.1, callee)) <$> elems (callgraph.Callees e.2).

Definition call_rows (graph : gmap string callgraph.FunctionNode)
  : gset (string * string) :=
  list_to_set (edge_rows (map_to_list graph)).

(** The bodies of the two loops of [LoadGraph] when no scan fails. *)
Definition add_function (graph : gmap string callgraph.FunctionNode)
    (row : string * (string * string)) : gmap string callgraph.FunctionNode :=
  <[row.1 := {| callgraph.Callees := make_slice [];
                callgraph.Signature := row.2.1;
                callgraph.Definition_ := row.2.2 |}]> graph.

Definition add_edge (graph : gmap string callgraph.FunctionNode)
    (row : string * string) : gmap string callgraph.FunctionNode :=
  match graph !! row.1 with
  | Some node =>
      <[row.1 := {| callgraph.Callees := append (callgraph.Callees node) row.2;
                    callgraph.Signature := callgraph.Signature node;
                    callgraph.Definition_ := callgraph.Definition_ node |}]> graph
  | None => graph
  end.

(** A loaded graph agrees with a saved one: same keys, same signature and
    definition per key, callee lists with the same elements. *)
Definition same_content (loaded saved : gmap string callgraph.FunctionNode) : Prop :=
  dom loaded = dom saved
  ∧ map_Forall (λ name node,
      ∃ node', loaded !! name = Some node'
        ∧ callgraph.Signature node' = callgraph.Signature node
        ∧ callgraph.Definition_ node' = callgraph.Definition_ node
        ∧ ∀ callee, callee ∈ elems (callgraph.Callees node')
                    ↔ callee ∈ elems (callgraph.Callees node)) saved.

(** Every edge row joins two function rows. *)
Definition references_known (d : persistence.DB) : Prop :=
  ∀ caller callee, (caller, callee) ∈ persistence.calls d →
    caller ∈ dom (persistence.functions d)
    ∧ callee ∈ dom (persistence.functions d).

(** The calls a load makes into database/sql on a store: the two queries,
    a scan per row, and the check after each iteration. *)
Definition load_step (s : persistence.Store) (st : persistence.step) : Prop :=
  match st with
  | persistence.StQueryFunctions | persistence.StFunctionsErr
  | persistence.StQueryCalls | persistence.StCallsErr => True
  | persistence.StScanFunction name =>
      name ∈ dom (persistence.functions (persistence.db s))
  | persistence.StScanCall caller callee =>
      (caller, callee) ∈ persistence.calls (persistence.db s)
  | _ => False
  end.

(** A walk entry that is not an error, and the walk that visits just the
    given parsed files. *)
Definition no_walk_error (e : WalkEntry) : Prop :=
  match e with
  | WalkError _ => False
  | _ => True
  end.

Definition walk_of (files : list ast.File) : list WalkEntry :=
  (λ f, GoSource (Some f)) <$> files.

(** ** The session of BuildCallGraph, call by call *)

Module session.

(** The calls [BuildCallGraph] makes on [lspclient], in order. *)
Inductive event :=
| EvNew
| EvOpenDocument (file : string)
| EvPrepareCallHierarchy (file : string) (pos : protocol.Position)
| EvOutgoingCalls (item : protocol.CallHierarchyItem)
| EvClose.

#[global] Instance position_eq_dec : EqDecision protocol.Position.
Proof. solve_decision. Defined.

#[global] Instance item_eq_dec : EqDecision protocol.CallHierarchyItem.
Proof. solve_decision. Defined.

#[global] Instance event_eq_dec : EqDecision event.
Proof. solve_decision. Defined.

Section session.

Variable Fprint_type : ast.Node → string.
Variable Fprint_decl : ast.FuncDecl → string.
Variable range_details :
  gmap string callgraph.funcDetail → list (string * callgraph.funcDetail).

(** The body of the loop of [extractGraphLSP], with the calls it makes
    added to the log. *)
Definition graph_decl (client : callgraph.Client) (names : gset string)
    (st : gmap string (slice string) * list event) (decl : ast.Decl)
  : gmap string (slice string) * list event :=
  match decl with
  | ast.GenDecl => st
  | ast.FuncDeclOf fn =>
      match ast.Body fn with
      | None => st
      | Some _ =>
          let caller := ast.Name fn in
          let pos := ast.NamePos fn in
          let protoPos :=
            {| protocol.Line := callgraph.uint32 (ast.Line pos - 1);
               protocol.Character := callgraph.uint32 (ast.Column pos - 1) |} in
          let file := ast.Filename pos in
          let log := st.2 ++ [EvPrepareCallHierarchy file protoPos] in
          match callgraph.PrepareCallHierarchy client file protoPos with
          | Err _ => (st.1, log)
          | Ok [] => (st.1, log)
          | Ok (root :: _) =>
              let log := log ++ [EvOutgoingCalls root] in
              match callgraph.OutgoingCalls client root with
              | Err _ => (st.1, log)
              | Ok outgoing =>
                  ((foldl (callgraph.record_call names caller) (st.1, ∅)
                      outgoing).1, log)
              end
          end
      end
  end.

Definition extractGraphLSP (client : callgraph.Client) (files : list ast.File)
    (names : gset string) (log : list event)
  : result (gmap string (slice string)) * list event :=
  let st := foldl (λ st f, foldl (graph_decl client names) st (ast.Decls f))
              (∅, log) files in
  (Ok st.1, st.2).

Fixpoint openAll (client : callgraph.Client) (files : list ast.File)
    (log : list event) : option error * list event :=
  match files with
  | [] => (None, log)
  | f :: files =>
      let log := log ++ [EvOpenDocument (ast.Package f)] in
      match callgraph.OpenDocument client (ast.Package f) with
      | Some err => (Some err, log)
      | None => openAll client files log
      end
  end.

(** [BuildCallGraph] with its log; the deferred [client.Close()] runs when
    the function returns, once [New] has succeeded. *)
Definition BuildCallGraph (client : callgraph.Client) (walk : list WalkEntry)
  : result (gmap string callgraph.FunctionNode) * list event :=
  let '(names, files) := callgraph.parseGoFiles walk in
  let details := callgraph.extractDetails Fprint_type Fprint_decl files in
  match callgraph.New client with
  | Some err => (Err err, [EvNew])
  | None =>
      match openAll client files [EvNew] with
      | (Some err, log) => (Err err, log ++ [EvClose])
      | (None, log) =>
          match extractGraphLSP client files names log with
          | (Err err, log) => (Err err, log ++ [EvClose])
          | (Ok rawGraph, log) =>
              (Ok (callgraph.assemble range_details details rawGraph),
               log ++ [EvClose])
          end
      end
  end.

End session.

End session.

(** The queries one declaration makes. *)
Definition decl_queries (client : callgraph.Client) (decl : ast.Decl)
  : list session.event :=
  match decl with
  | ast.GenDecl => []
  | ast.FuncDeclOf fn =>
      match ast.Body fn with
      | None => []
      | Some _ =>
          session.EvPrepareCallHierarchy (ast.Filename (ast.NamePos fn)) (protoPos fn)
          :: match prepare client fn with
             | Ok (root :: _) => [session.EvOutgoingCalls root]
             | _ => []
             end
      end
  end.

(** An event is a query. *)
Definition is_query (e : session.event) : Prop :=
  match e with
  | session.EvPrepareCallHierarchy _ _ | session.EvOutgoingCalls _ => True
  | _ => False
  end.

(** The position of every declared name lies in the file that declares
    it. *)
Definition positions_in_file (files : list ast.File) : Prop :=
  Forall (λ f, Forall (λ d, match d with
                           | ast.FuncDeclOf fn =>
                               ast.Filename (ast.NamePos fn) = ast.Package f
                           | ast.GenDecl => True
                           end) (ast.Decls f)) files.

(** The bodies of the declarations of [ds] named [k], in order. *)
Definition bodies_of (k : string) (ds : list ast.Decl) : list ast.Node :=
  omap (λ d, match d with
             | ast.FuncDeclOf fn =>
                 if decide (ast.Name fn = k) then ast.Body fn else None
             | ast.GenDecl => None
             end) ds.

(** ** Induction on syntax trees *)

Section Node_ind.

Variable P : ast.Node → Prop.
Hypothesis HIdent : ∀ name, P (ast.Ident name).
Hypothesis HSel : ∀ X sel, P X → P (ast.SelectorExpr X sel).
Hypothesis HCall : ∀ Fun Args, P Fun → Forall P Args → P (ast.CallExpr Fun Args).
Hypothesis HOther : ∀ children, Forall P children → P (ast.Other children).

Fixpoint Node_ind (n : ast.Node) : P n :=
  match n with
  | ast.Ident name => HIdent name
  | ast.SelectorExpr X sel => HSel X sel (Node_ind X)
  | ast.CallExpr Fun Args =>
      HCall Fun Args (Node_ind Fun)
        ((fix all (l : list ast.Node) : Forall P l :=
            match l with
            | [] => Forall_nil_2 P
            | n :: l => Forall_cons_2 P n l (Node_ind n) (all l)
            end) Args)
  | ast.Other children =>
      HOther children
        ((fix all (l : list ast.Node) : Forall P l :=
            match l with
            | [] => Forall_nil_2 P
            | n :: l => Forall_cons_2 P n l (Node_ind n) (all l)
            end) children)
  end.

End Node_ind.

(** ** Sample inputs *)

(** The corpus of the specification's example: [A] calls [B] twice (once
    through a selector) and the undeclared [X]; [B] and [C] call nothing. *)
Definition sample_pos (file : string) (line : Z) : ast.Position :=
  {| ast.Filename := file; ast.Line := line; ast.Column := 6 |}.

Definition call (name : string) : ast.Node :=
  ast.CallExpr (ast.Ident name) [].

Definition selector_call (x name : string) : ast.Node :=
  ast.CallExpr (ast.SelectorExpr (ast.Ident x) name) [].

Definition func (name file : string) (line : Z) (body : option ast.Node)
  : ast.FuncDecl :=
  {| ast.Name := name; ast.NamePos := sample_pos file line;
     ast.Type_ := ast.Other []; ast.Body := body |}.

Definition sample_body : ast.Node :=
  ast.Other [call "B"; selector_call "pkg" "B"; call "X"].

Definition sample_A : ast.FuncDecl := func "A" "a.go" 3 (Some sample_body).
Definition sample_B : ast.FuncDecl := func "B" "a.go" 9 (Some (ast.Other [])).
Definition sample_C : ast.FuncDecl := func "C" "a.go" 11 (Some (ast.Other [])).

Definition sample_file : ast.File :=
  {| ast.Package := "a.go";
     ast.Decls := [ast.GenDecl; ast.FuncDeclOf sample_A;
                   ast.FuncDeclOf sample_B; ast.FuncDeclOf sample_C] |}.

Definition sample_walk : list WalkEntry :=
  [Directory; GoSource (Some sample_file); OtherFile; GoSource None].

Definition sample_names : gset string := {["A"; "B"; "C"]}.

Definition sample_item (name : string) : protocol.CallHierarchyItem :=
  {| protocol.Name := name; protocol.URI := "file:///a.go" |}.

Definition sample_call (name : string) : protocol.CallHierarchyOutgoingCall :=
  {| protocol.To := sample_item name |}.

(** A server that resolves [A] (with a second, unused item), finds no item
    for [B] and fails on every other position. *)
Definition sample_client : callgraph.Client :=
  {| callgraph.New := None;
     callgraph.OpenDocument := λ _, None;
     callgraph.PrepareCallHierarchy := λ _ pos,
       if (protocol.Line pos =? 2)%Z then Ok [sample_item "A"; sample_item "a"]
       else if (protocol.Line pos =? 8)%Z then Ok []
       else Err (errorString "no identifier found");
     callgraph.OutgoingCalls := λ item,
       if decide (protocol.Name item = "A")
       then Ok [sample_call "B"; sample_call "B"; sample_call "X"]
       else Ok [] |}.

Definition sample_Fprint_type (n : ast.Node) : string := "func()".
Definition sample_Fprint_decl (fn : ast.FuncDecl) : string :=
  "func " +:+ ast.Name fn +:+ "()".

Definition sample_node (name : string) (callees : list string)
  : callgraph.FunctionNode :=
  {| callgraph.Callees := make_slice callees;
     callgraph.Signature := "func()";
     callgraph.Definition_ := "func " +:+ name +:+ "()" |}.

Definition sample_graph : gmap string callgraph.FunctionNode :=
  <["A" := sample_node "A" ["B"]]>
    (<["B" := sample_node "B" []]> (<["C" := sample_node "C" []]> ∅)).

(** Two files that both declare [F]; the second declaration calls [H], the
    first [G]. *)
Definition collide_F1 : ast.FuncDecl := func "F" "x.go" 3 (Some (ast.Other [call "G"])).
Definition collide_F2 : ast.FuncDecl := func "F" "y.go" 3 (Some (ast.Other [call "H"])).
Definition collide_G : ast.FuncDecl := func "G" "x.go" 7 (Some (ast.Other [])).
Definition collide_H : ast.FuncDecl := func "H" "y.go" 7 (Some (ast.Other [])).

Definition collide_walk : list WalkEntry :=
  [GoSource (Some {| ast.Package := "x.go";
                     ast.Decls := [ast.FuncDeclOf collide_F1;
                                   ast.FuncDeclOf collide_G] |});
   GoSource (Some {| ast.Package := "y.go";
                     ast.Decls := [ast.FuncDeclOf collide_F2;
                                   ast.FuncDeclOf collide_H] |})].

(** A declaration of [F] without body next to one with a body, and a
    corpus where [D] has no body and is called by [E]. *)
Definition extern_F : ast.FuncDecl := func "F" "f_amd64.go" 3 None.

Definition extern_walk : list WalkEntry :=
  [GoSource (Some {| ast.Package := "f_amd64.go";
                     ast.Decls := [ast.FuncDeclOf extern_F] |});
   GoSource (Some {| ast.Package := "x.go";
                     ast.Decls := [ast.FuncDeclOf collide_F1;
                                   ast.FuncDeclOf collide_G] |})].

Definition extern_D : ast.FuncDecl := func "D" "d.go" 3 None.
Definition extern_E : ast.FuncDecl := func "E" "d.go" 5 (Some (ast.Other [call "D"])).

Definition bodyless_walk : list WalkEntry :=
  [GoSource (Some {| ast.Package := "d.go";
                     ast.Decls := [ast.FuncDeclOf extern_D;
                                   ast.FuncDeclOf extern_E] |})].

Definition collide_graph : gmap string callgraph.FunctionNode :=
  <["F" := sample_node "F" ["G"; "H"]]>
    (<["G" := sample_node "G" []]> (<["H" := sample_node "H" []]> ∅)).

Definition extern_graph : gmap string callgraph.FunctionNode :=
  <["F" := sample_node "F" ["G"]]> (<["G" := sample_node "G" []]> ∅).

Definition bodyless_graph : gmap string callgraph.FunctionNode :=
  <["D" := sample_node "D" []]> (<["E" := sample_node "E" ["D"]]> ∅).

Definition sample_details : gmap string callgraph.funcDetail :=
  <["A" := {| callgraph.detSignature := "func()";
              callgraph.detDefinition := "func A()" |}]>
    (<["B" := {| callgraph.detSignature := "func()";
                 callgraph.detDefinition := "func B()" |}]> ∅).

Definition sample_raw : gmap string (slice string) :=
  <["A" := make_slice ["B"]]> ∅.

(** A store that already holds a graph, a graph whose node [A] lists [B]
    twice, and an environment in which the insert of the edge [A → B]
    fails. *)
Definition sample_file_content : persistence.DB :=
  {| persistence.functions := <["old" := ("func()", "func old()")]> ∅;
     persistence.calls := {[("old", "old")]} |}.

Definition sample_store : persistence.Store :=
  {| persistence.db := sample_file_content;
     persistence.tx := None;
     persistence.foreign_keys := true |}.

Definition duplicate_graph : gmap string callgraph.FunctionNode :=
  <["A" := sample_node "A" ["B"; "B"]]> (<["B" := sample_node "B" []]> ∅).

Definition sample_faults : persistence.faults := λ st,
  match st with
  | persistence.StInsertCall caller callee =>
      if decide (caller = "A" ∧ callee = "B")
      then Some (errorString "disk I/O error") else None
  | _ => None
  end.

(** A graph whose node [A] calls the undeclared [X]. *)
Definition open_graph : gmap string callgraph.FunctionNode :=
  <["A" := sample_node "A" ["X"]]> ∅.

(** A store whose [calls] relation holds an edge from [ghost], which has
    no function row (foreign keys were off when it was written). *)
Definition orphan_store : persistence.Store :=
  {| persistence.db :=
       {| persistence.functions :=
            <["A" := ("func()", "func A()")]>
              (<["B" := ("func()", "func B()")]> ∅);
          persistence.calls := {[("A", "B"); ("ghost", "A")]} |};
     persistence.tx := None;
     persistence.foreign_keys := false |}.

(** An environment in which scanning the row of [B] fails. *)
Definition scan_faults : persistence.faults := λ st,
  match st with
  | persistence.StScanFunction name =>
      if decide (name = "B") then Some (errorString "sql: Scan error") else None
  | _ => None
  end.

(** Three files that declare [F]; the last declaration has no body. *)
Definition triple_walk : list WalkEntry :=
  collide_walk
  ++ [GoSource (Some {| ast.Package := "f_amd64.go";
                        ast.Decls := [ast.FuncDeclOf extern_F] |})].

Definition triple_graph : gmap string callgraph.FunctionNode :=
  <["F" := sample_node "F" ["G"; "H"]]>
    (<["G" := sample_node "G" []]> (<["H" := sample_node "H" []]> ∅)).

(** A walk that meets an unreadable directory after the sample file, and a
    session in which opening [a.go] fails. *)
Definition broken_walk : list WalkEntry :=
  [GoSource (Some sample_file); GoSource None;
   WalkError (errorString "permission denied"); GoSource (Some sample_file)].

Definition unopened_client : callgraph.Client :=
  {| callgraph.New := None;
     callgraph.OpenDocument := λ file,
       if decide (file = "a.go") then Some (errorString "read file a.go")
       else None;
     callgraph.PrepareCallHierarchy := callgraph.PrepareCallHierarchy sample_client;
     callgraph.OutgoingCalls := callgraph.OutgoingCalls sample_client |}.

(** The log of the sample session. *)
Definition sample_log : list session.event :=
  [session.EvNew;
   session.EvOpenDocument "a.go";
   session.EvPrepareCallHierarchy "a.go"
     {| protocol.Line := 2; protocol.Character := 5 |};
   session.EvOutgoingCalls (sample_item "A");
   session.EvPrepareCallHierarchy "a.go"
     {| protocol.Line := 8; protocol.Character := 5 |};
   session.EvPrepareCallHierarchy "a.go"
     {| protocol.Line := 10; protocol.Character := 5 |};
   session.EvClose].

(** A host on which gopls starts but does not answer [initialize]. *)
Definition deaf_host : lspclient.Host :=
  {| lspclient.Abs := λ _, Ok "/work";
     lspclient.ToSlash := λ path, path;
     lspclient.StdinPipe := None;
     lspclient.StdoutPipe := None;
     lspclient.Start := None;
     lspclient.Initialize := λ _, Some (errorString "EOF");
     lspclient.Initialized := None |}.

(** A graph with a cycle: [main] calls [A], [A] calls [B] and [B] calls
    [A]; and a graph in which every function has a caller, [loop] calling
    itself and [leaf]. *)
Definition cyclic_graph : gmap string callgraph.FunctionNode :=
  <["main" := sample_node "main" ["A"]]>
    (<["A" := sample_node "A" ["B"]]> (<["B" := sample_node "B" ["A"]]> ∅)).

Definition rootless_graph : gmap string callgraph.FunctionNode :=
  <["loop" := sample_node "loop" ["loop"; "leaf"]]>
    (<["leaf" := sample_node "leaf" []]> ∅).

Definition sample_leaf (name : string) (children : list server.Tree) : server.Tree :=
  server.mkTree name (Some ("func()", "func " +:+ name +:+ "()")) children.

(** A graph in which [f] has a [nil] callee slice. *)
Definition null_graph : gmap string callgraph.FunctionNode :=
  <["f" := {| callgraph.Callees := nil_slice;
              callgraph.Signature := "func()";
              callgraph.Definition_ := "func f()" |}]> ∅.

(** One file that declares [F] twice, as two methods would. *)
Definition twice_file : ast.File :=
  {| ast.Package := "t.go";
     ast.Decls := [ast.FuncDeclOf collide_F1; ast.FuncDeclOf collide_G;
                   ast.FuncDeclOf collide_F2; ast.FuncDeclOf collide_H] |}.

(* SAMPLES *)

(** Closes a decidable goal about sample data by evaluating its decision
    procedure. *)
Ltac by_evaluation := apply (bool_decide_unpack _); vm_compute; exact I.

Example sample_NewStore :
  persistence.NewStore persistence.no_faults sample_file_content = Ok sample_store.
Proof. reflexivity. Qed.

(** ** Properties of lspclient *)

Lemma Close_disconnects (c : lspclient.Client) :
  lspclient.connected (lspclient.Close c).1 = false.
Proof.
  unfold lspclient.Close. destruct (lspclient.connected c) eqn:E; simpl; done.
Qed.

Lemma Close_disconnected_noop (c : lspclient.Client) :
  lspclient.connected c = false → lspclient.Close c = (c, []).
Proof. intros H. unfold lspclient.Close. by rewrite H. Qed.

(** C7: closing an already closed session is a no-op.  A closed client
    (its [connected] flag is false) is returned unchanged by [Close], which
    then performs no effect: no connection close, no stream close, no kill,
    no cancellation.  In particular this is so after a first [Close], and
    however many further calls follow. *)
Theorem C7_Close_idempotent (dir : string) (c : lspclient.Client) (n : nat) :
  let closed := {| lspclient.rootDir := dir; lspclient.connected := false |} in
  let after := (lspclient.Close c).1 in
  lspclient.Close closed = (closed, [])
  ∧ lspclient.Close after = (after, [])
  ∧ Nat.iter n (λ c', (lspclient.Close c').1) after = after.
Proof.
  intros closed after. split; [done|]. split.
  - apply Close_disconnected_noop, Close_disconnects.
  - induction n as [|n IH]; simpl; [done|].
    rewrite IH. by rewrite Close_disconnected_noop by apply Close_disconnects.
Qed.

(** ** Properties of the assembly *)

Section assembly.

Variable range_details :
  gmap string callgraph.funcDetail → list (string * callgraph.funcDetail).

Lemma assemble_entry_fold rawGraph l out k :
  NoDup l.*1 →
  foldl (callgraph.assemble_entry rawGraph) out l !! k
  = match (list_to_map l : gmap string callgraph.funcDetail) !! k with
    | Some det => Some (node_of rawGraph k det)
    | None => out !! k
    end.
Proof.
  revert out. induction l as [|[name det] l IH]; intros out Hnd; [done|].
  apply NoDup_cons in Hnd as [Hname Hnd]. simpl.
  rewrite IH by done. destruct (decide (k = name)) as [->|Hne].
  - rewrite lookup_insert_eq.
    rewrite (not_elem_of_list_to_map_1 _ name) by done.
    unfold callgraph.assemble_entry; simpl. by rewrite lookup_insert_eq.
  - rewrite lookup_insert_ne by done.
    destruct (list_to_map l !! k); [done|].
    unfold callgraph.assemble_entry; simpl. by rewrite lookup_insert_ne.
Qed.

Lemma assemble_lookup details rawGraph k :
  range_details details ≡ₚ map_to_list details →
  callgraph.assemble range_details details rawGraph !! k
  = node_of rawGraph k <$> details !! k.
Proof.
  intros Hperm. unfold callgraph.assemble.
  assert (NoDup (range_details details).*1) as Hnd.
  { rewrite Hperm. apply NoDup_fst_map_to_list. }
  rewrite assemble_entry_fold by done.
  rewrite (list_to_map_proper _ _ Hnd Hperm), list_to_map_to_list.
  by destruct (details !! k).
Qed.

Lemma assemble_dom details rawGraph :
  range_details details ≡ₚ map_to_list details →
  dom (callgraph.assemble range_details details rawGraph) = dom details.
Proof.
  intros Hperm. apply set_eq. intros k.
  rewrite !elem_of_dom, assemble_lookup by done.
  by rewrite fmap_is_Some.
Qed.

End assembly.

(** C3: the assembled graph has exactly the declared names as keys, and
    no node has a nil callee list; a declared name that the edge source
    does not have gets the empty, non-nil list. *)
Theorem C3_assemble_complete
    (range_details :
       gmap string callgraph.funcDetail → list (string * callgraph.funcDetail))
    (details : gmap string callgraph.funcDetail)
    (rawGraph : gmap string (slice string)) :
  range_details details ≡ₚ map_to_list details →
  let out := callgraph.assemble range_details details rawGraph in
  dom out = dom details
  ∧ map_Forall (λ _ node, is_nil (callgraph.Callees node) = false) out
  ∧ map_Forall (λ name det,
      rawGraph !! name = None →
      out !! name = Some {| callgraph.Callees := make_slice [];
                            callgraph.Signature := callgraph.detSignature det;
                            callgraph.Definition_ := callgraph.detDefinition det |})
      details.
Proof.
  intros Hperm out. split; [by apply assemble_dom|]. split.
  - intros k node. unfold out. rewrite assemble_lookup by done.
    destruct (details !! k) as [det|]; [|done]. intros [= <-]. simpl.
    by destruct (index rawGraph k).
  - intros name det Hdet Hraw. unfold out.
    rewrite assemble_lookup, Hdet by done. simpl. unfold node_of, index.
    by rewrite Hraw.
Qed.

(** ** Properties of the declaration index *)

Lemma foldl_concat {A B C} (g : A → B → A) (h : C → list B) (ls : list C) (a : A) :
  foldl (λ a l, foldl g a (h l)) a ls = foldl g a (concat (h <$> ls)).
Proof.
  revert a. induction ls as [|l ls IH]; intros a; simpl; [done|].
  by rewrite IH, foldl_app.
Qed.

Lemma parseGoFiles_from_acc walk names files :
  foldl callgraph.parseGoFiles_visit (names, files) walk
  = (foldl callgraph.declNames names (allDecls (parsed walk)),
     files ++ parsed walk).
Proof.
  revert names files.
  induction walk as [|e walk IH]; intros names files; simpl.
  { by rewrite app_nil_r. }
  destruct e as [err| | |[f|]]; simpl; rewrite IH; try done.
  unfold allDecls. simpl. by rewrite foldl_app, <-app_assoc.
Qed.

Lemma parseGoFiles_spec walk :
  callgraph.parseGoFiles walk
  = (foldl callgraph.declNames ∅ (allDecls (parsed walk)), parsed walk).
Proof. unfold callgraph.parseGoFiles. by rewrite parseGoFiles_from_acc. Qed.

Lemma old_parseGoFiles_from_ok walk names files names' files' :
  oldcode2.parseGoFiles_from walk names files = (names', files', None) →
  names' = foldl callgraph.declNames names (allDecls (parsed walk))
  ∧ files' = files ++ parsed walk.
Proof.
  revert names files.
  induction walk as [|e walk IH]; intros names files; simpl.
  { intros [= <- <-]. by rewrite app_nil_r. }
  destruct e as [err| | |[f|]]; simpl; try done; try apply IH.
  intros [-> ->]%IH. unfold allDecls. simpl.
  by rewrite foldl_app, <-app_assoc.
Qed.

Lemma old_parseGoFiles_ok walk names files :
  oldcode2.parseGoFiles walk = (names, files, None) →
  names = foldl callgraph.declNames ∅ (allDecls (parsed walk))
  ∧ files = parsed walk.
Proof. apply old_parseGoFiles_from_ok. Qed.

Section details.

Variable Fprint_type : ast.Node → string.
Variable Fprint_decl : ast.FuncDecl → string.

Abbreviation detail_decl := (callgraph.detail_decl Fprint_type Fprint_decl).
Abbreviation extractDetails := (callgraph.extractDetails Fprint_type Fprint_decl).

Lemma extractDetails_flat files :
  extractDetails files = foldl detail_decl ∅ (allDecls files).
Proof. apply foldl_concat. Qed.

Lemma detail_decl_dom ds out :
  dom (foldl detail_decl out ds) = foldl callgraph.declNames (dom out) ds.
Proof.
  revert out. induction ds as [|d ds IH]; intros out; simpl; [done|].
  rewrite IH. f_equal. destruct d as [fn|]; simpl; [|done].
  by rewrite dom_insert_L.
Qed.

(** The detail map has exactly the known names as keys. *)
Lemma extractDetails_dom files :
  dom (extractDetails files) = foldl callgraph.declNames ∅ (allDecls files).
Proof. by rewrite extractDetails_flat, detail_decl_dom, dom_empty_L. Qed.

Lemma detail_decl_not_named ds out k :
  Forall (not_named k) ds →
  foldl detail_decl out ds !! k = out !! k.
Proof.
  revert out. induction ds as [|d ds IH]; intros out Hds; simpl; [done|].
  apply Forall_cons in Hds as [Hd Hds]. rewrite IH by done.
  destruct d as [fn|]; simpl in *; [|done]. by rewrite lookup_insert_ne.
Qed.

(** Last write wins: the detail of a name is that of its last declaration. *)
Lemma detail_decl_last ds1 fn ds2 out :
  Forall (not_named (ast.Name fn)) ds2 →
  foldl detail_decl out (ds1 ++ ast.FuncDeclOf fn :: ds2) !! ast.Name fn
  = Some {| callgraph.detSignature := Fprint_type (ast.Type_ fn);
            callgraph.detDefinition := Fprint_decl fn |}.
Proof.
  intros Hds2. rewrite foldl_app. simpl.
  rewrite detail_decl_not_named by done. apply lookup_insert_eq.
Qed.

End details.

Lemma declNames_elem ds names k :
  k ∈ foldl callgraph.declNames names ds
  ↔ k ∈ names ∨ ∃ fn, ast.FuncDeclOf fn ∈ ds ∧ ast.Name fn = k.
Proof.
  revert names. induction ds as [|d ds IH]; intros names; simpl.
  { split; [by left|]. intros [?|(fn & Hin & _)]; [done|]. by apply elem_of_nil in Hin. }
  rewrite IH. destruct d as [fn|]; simpl.
  - rewrite elem_of_union, elem_of_singleton. split.
    + intros [[->|?]|(fn' & Hin & <-)]; [right|by left|right].
      * exists fn. split; [left|done].
      * exists fn'. split; [by right|done].
    + intros [?|(fn' & Hin & <-)]; [left; by right|].
      apply elem_of_cons in Hin as [[= ->]|Hin]; [left; by left|].
      right. by exists fn'.
  - split.
    + intros [?|(fn' & Hin & <-)]; [by left|]. right. exists fn'. split; [by right|done].
    + intros [?|(fn' & Hin & <-)]; [by left|].
      apply elem_of_cons in Hin as [?|Hin]; [done|]. right. by exists fn'.
Qed.

(** ** Properties of the edge maps *)

Lemma index_insert_eq g k s : index (<[k := s]> g) k = s.
Proof. unfold index. by rewrite lookup_insert_eq. Qed.

Lemma index_insert_ne g k k' s : k ≠ k' → index (<[k := s]> g) k' = index g k'.
Proof. intros. unfold index. by rewrite lookup_insert_ne. Qed.

Lemma appendAll_elems caller g l k :
  elems (index (oldcode2.appendAll caller g l) k)
  = elems (index g k) ++ (if decide (caller = k) then l else []).
Proof.
  revert g. induction l as [|c l IH]; intros g; simpl.
  { destruct (decide _); by rewrite app_nil_r. }
  unfold oldcode2.appendAll in *. simpl. rewrite IH.
  destruct (decide (caller = k)) as [->|Hne].
  - rewrite index_insert_eq. simpl. by rewrite <-app_assoc.
  - by rewrite index_insert_ne.
Qed.

Lemma record_call_fold names caller outgoing g seen :
  (foldl (callgraph.record_call names caller) (g, seen) outgoing).1
  = oldcode2.appendAll caller g (new_callees names seen outgoing).
Proof.
  revert g seen. induction outgoing as [|call outgoing IH]; intros g seen; simpl; [done|].
  unfold callgraph.record_call at 2. simpl.
  destruct (decide (_ ∈ names)); [|apply IH].
  destruct (decide (_ ∈ seen)); apply IH.
Qed.

Lemma new_callees_known names seen outgoing :
  Forall (λ c, c ∈ names) (new_callees names seen outgoing).
Proof.
  revert seen. induction outgoing as [|call outgoing IH]; intros seen; simpl; [done|].
  destruct (decide (_ ∈ names)); [|apply IH].
  destruct (decide (_ ∈ seen)); [apply IH|]. by constructor.
Qed.

(** In precision mode too the edges of one declaration hold no callee
    twice. *)
Lemma new_callees_fresh names seen outgoing :
  NoDup (new_callees names seen outgoing)
  ∧ Forall (λ c, c ∉ seen) (new_callees names seen outgoing).
Proof.
  revert seen. induction outgoing as [|call outgoing IH]; intros seen; simpl.
  { split; [constructor|done]. }
  destruct (decide (_ ∈ names)); [|apply IH].
  destruct (decide (_ ∈ seen)) as [|Hfresh]; [apply IH|].
  destruct (IH ({[protocol.Name (protocol.To call)]} ∪ seen)) as [Hnd Hall].
  split.
  - constructor; [|done]. intros Hin.
    rewrite Forall_forall in Hall. apply (Hall _ Hin). set_solver.
  - constructor; [done|]. eapply Forall_impl; [exact Hall|]. set_solver.
Qed.

Lemma lsp_graph_decl client names g fn :
  callgraph.graph_decl client names g (ast.FuncDeclOf fn)
  = oldcode2.appendAll (ast.Name fn) g (lsp_callees client names fn).
Proof.
  unfold callgraph.graph_decl, lsp_callees, prepare, protoPos.
  destruct (ast.Body fn); [|done].
  destruct (callgraph.PrepareCallHierarchy _ _ _) as [[|root items]|]; try done.
  destruct (callgraph.OutgoingCalls client root); [|done].
  apply record_call_fold.
Qed.

Lemma lsp_edges_callees client names fn :
  lsp_edges client names fn = lsp_callees client names fn.
Proof.
  unfold lsp_edges. rewrite lsp_graph_decl, appendAll_elems.
  by rewrite decide_True by done.
Qed.

Lemma lexical_graph_decl range_calleeSet names g fn :
  oldcode2.graph_decl range_calleeSet names g (ast.FuncDeclOf fn)
  = oldcode2.appendAll (ast.Name fn) g (lexical_edges range_calleeSet names fn).
Proof.
  unfold lexical_edges, oldcode2.graph_decl.
  destruct (ast.Body fn) as [body|].
  - rewrite appendAll_elems. by rewrite decide_True by done.
  - done.
Qed.

(** A loop over declarations whose body appends the edges of each function
    declaration under its name: the callee list of a name is the
    concatenation of what its declarations yield. *)
Section edge_fold.

Variable step : gmap string (slice string) → ast.Decl → gmap string (slice string).
Variable edges : ast.FuncDecl → list string.
Hypothesis step_func : ∀ g fn,
  step g (ast.FuncDeclOf fn) = oldcode2.appendAll (ast.Name fn) g (edges fn).
Hypothesis step_gen : ∀ g, step g ast.GenDecl = g.

Lemma edge_fold_elems ds g k :
  elems (index (foldl step g ds) k) = elems (index g k) ++ edges_of edges k ds.
Proof using step_func step_gen.
  revert g. induction ds as [|d ds IH]; intros g; simpl.
  { by rewrite app_nil_r. }
  rewrite IH. unfold edges_of. simpl. destruct d as [fn|].
  - by rewrite step_func, appendAll_elems, <-app_assoc.
  - by rewrite step_gen.
Qed.

Lemma edge_fold_known (names : gset string) ds k :
  (∀ fn, Forall (λ c, c ∈ names) (edges fn)) →
  Forall (λ c, c ∈ names) (elems (index (foldl step ∅ ds) k)).
Proof using step_func step_gen.
  intros Hknown. rewrite edge_fold_elems. unfold index at 1.
  rewrite lookup_empty. simpl. unfold edges_of.
  apply Forall_concat, Forall_fmap, Forall_forall. intros [fn|] _; simpl; [|done].
  destruct (decide _); [apply Hknown|done].
Qed.

End edge_fold.

Lemma edges_of_app edges k ds1 ds2 :
  edges_of edges k (ds1 ++ ds2) = edges_of edges k ds1 ++ edges_of edges k ds2.
Proof. unfold edges_of. by rewrite map_app, concat_app. Qed.

Lemma edges_of_cons edges k fn ds :
  edges_of edges k (ast.FuncDeclOf fn :: ds)
  = (if decide (ast.Name fn = k) then edges fn else []) ++ edges_of edges k ds.
Proof. done. Qed.

Lemma edges_of_not_named edges k ds :
  Forall (not_named k) ds → edges_of edges k ds = [].
Proof.
  induction 1 as [|d ds Hd _ IH]; [done|].
  unfold edges_of in *. simpl. rewrite IH, app_nil_r.
  destruct d as [fn|]; [|done]. simpl in Hd. by rewrite decide_False.
Qed.

(** A declaration without body yields no edge, in either mode. *)
Lemma edges_of_no_body edges k ds :
  (∀ fn, ast.Body fn = None → edges fn = []) →
  only_bodyless k ds →
  edges_of edges k ds = [].
Proof.
  intros Hedges. induction 1 as [|d ds Hd _ IH]; [done|].
  unfold edges_of in *. simpl. rewrite IH, app_nil_r.
  destruct d as [fn|]; [|done]. destruct (decide _); [|done]. auto.
Qed.

Lemma extractGraphLSP_flat client files names :
  callgraph.extractGraphLSP client files names
  = Ok (foldl (callgraph.graph_decl client names) ∅ (allDecls files)).
Proof. unfold callgraph.extractGraphLSP. f_equal. apply foldl_concat. Qed.

Lemma extractCallGraph_flat range_calleeSet names files :
  oldcode2.extractCallGraph range_calleeSet names files
  = foldl (oldcode2.graph_decl range_calleeSet names) ∅ (allDecls files).
Proof. apply foldl_concat. Qed.

(** ** Properties of the lexical traversal *)

Lemma visit_spec names n s :
  oldcode2.visit names n s = s ∪ (list_to_set (call_target n) ∩ names).
Proof.
  destruct n as [name|X sel|Fun Args|children]; simpl; try set_solver.
  destruct Fun as [name|X sel|Fun' Args'|children]; simpl; try set_solver.
  - destruct (decide (name ∈ names)); set_solver.
  - destruct (decide (sel ∈ names)); set_solver.
Qed.

Lemma Inspect_children names (l : list ast.Node) s :
  Forall (λ n, ∀ s, ast.Inspect (oldcode2.visit names) n s
                    = s ∪ (list_to_set (call_sites n) ∩ names)) l →
  foldl (λ s a, ast.Inspect (oldcode2.visit names) a s) s l
  = s ∪ (list_to_set (concat (map call_sites l)) ∩ names).
Proof.
  intros Hl. revert s. induction Hl as [|n l Hn _ IH]; intros s; simpl.
  { set_solver. }
  rewrite IH, Hn, list_to_set_app_L. set_solver.
Qed.

Lemma Inspect_spec names n s :
  ast.Inspect (oldcode2.visit names) n s
  = s ∪ (list_to_set (call_sites n) ∩ names).
Proof.
  revert s. induction n as [name|X sel IH|Fun Args IHF IHA|children IH]
    using Node_ind; intros s.
  - simpl. set_solver.
  - simpl. rewrite IH. set_solver.
  - cbn [ast.Inspect call_sites]. rewrite (Inspect_children _ _ _ IHA), IHF, visit_spec.
    rewrite !list_to_set_app_L. set_solver.
  - cbn [ast.Inspect call_sites]. rewrite (Inspect_children _ _ _ IH), visit_spec.
    rewrite !list_to_set_app_L. set_solver.
Qed.

Section lexical.

Variable range_calleeSet : gset string → list string.
Hypothesis range_calleeSet_enum : ∀ s, range_calleeSet s ≡ₚ elements s.

Lemma calleesOf_elem names body c :
  c ∈ oldcode2.calleesOf range_calleeSet names body
  ↔ c ∈ call_sites body ∧ c ∈ names.
Proof using range_calleeSet_enum.
  unfold oldcode2.calleesOf.
  rewrite range_calleeSet_enum, elem_of_elements, Inspect_spec.
  rewrite elem_of_union, elem_of_intersection, elem_of_list_to_set. set_solver.
Qed.

Lemma calleesOf_NoDup names body :
  NoDup (oldcode2.calleesOf range_calleeSet names body).
Proof using range_calleeSet_enum.
  unfold oldcode2.calleesOf. rewrite range_calleeSet_enum. apply NoDup_elements.
Qed.

Lemma lexical_edges_body names fn :
  lexical_edges range_calleeSet names fn
  = match ast.Body fn with
    | Some body => oldcode2.calleesOf range_calleeSet names body
    | None => []
    end.
Proof.
  unfold lexical_edges, oldcode2.graph_decl. destruct (ast.Body fn); [|done].
  rewrite appendAll_elems. by rewrite decide_True by done.
Qed.

Lemma lexical_edges_known names fn :
  Forall (λ c, c ∈ names) (lexical_edges range_calleeSet names fn).
Proof using range_calleeSet_enum.
  rewrite lexical_edges_body. destruct (ast.Body fn); [|done].
  apply Forall_forall. intros c. rewrite calleesOf_elem. tauto.
Qed.

End lexical.

Lemma occurrences_absent c l : c ∉ l → occurrences c l = 0.
Proof.
  unfold occurrences. induction l as [|x l IH]; [done|].
  intros [Hne Hl]%not_elem_of_cons.
  rewrite filter_cons_False by (intros ->; done). auto.
Qed.

Lemma occurrences_NoDup c l : NoDup l → c ∈ l → occurrences c l = 1.
Proof.
  induction 1 as [|x l Hx Hnd IH]; [by intros ?%elem_of_nil|].
  intros [->|Hin]%elem_of_cons; unfold occurrences in *.
  - rewrite filter_cons_True by done. simpl. f_equal.
    by apply occurrences_absent.
  - rewrite filter_cons_False; [by apply IH|]. intros ->. done.
Qed.

Lemma occurrences_pos c l : 0 < occurrences c l → c ∈ l.
Proof.
  unfold occurrences. induction l as [|x l IH]; simpl; [lia|].
  rewrite filter_cons. destruct (decide (x = c)) as [->|]; [left|].
  intros ?. right. auto.
Qed.

(** C5: the lexical extractor, for every function body and every set of
    known names.  A known callee that two or more call sites of the body
    target gets exactly one edge; a name that is not known gets no edge,
    whatever else the body calls: a callee is among the edges exactly when
    it is known and the target name (identifier or trailing selector name)
    of a call site of the body.  The extractor has no error result: the
    edges are a list, free of duplicates, and they are what a declaration
    with this body appends to the graph under the caller's name. *)
Theorem C5_lexical_edges
    (range_calleeSet : gset string → list string)
    (funcNames : gset string) (body : ast.Node) :
  (∀ s, range_calleeSet s ≡ₚ elements s) →
  let edges := oldcode2.calleesOf range_calleeSet funcNames body in
  (∀ known, known ∈ funcNames →
     2 ≤ occurrences known (call_sites body) →
     occurrences known edges = 1)
  ∧ (∀ unknown, unknown ∉ funcNames → occurrences unknown edges = 0)
  ∧ (∀ callee, callee ∈ edges ↔ callee ∈ call_sites body ∧ callee ∈ funcNames)
  ∧ NoDup edges
  ∧ (∀ (fn : ast.FuncDecl) (graph : gmap string (slice string)),
       ast.Body fn = Some body →
       oldcode2.graph_decl range_calleeSet funcNames graph (ast.FuncDeclOf fn)
       = oldcode2.appendAll (ast.Name fn) graph edges
       ∧ elems (index (oldcode2.appendAll (ast.Name fn) graph edges)
                  (ast.Name fn))
         = elems (index graph (ast.Name fn)) ++ edges).
Proof.
  intros Henum edges.
  assert (NoDup edges) as Hnd by by apply calleesOf_NoDup.
  assert (∀ callee, callee ∈ edges
                    ↔ callee ∈ call_sites body ∧ callee ∈ funcNames) as Hin.
  { intros callee. by apply calleesOf_elem. }
  split; [|split; [|split; [done|split; [done|]]]].
  - intros known Hknown Hsites. apply occurrences_NoDup; [done|].
    apply Hin. split; [|done]. apply occurrences_pos. lia.
  - intros unknown Hunknown. apply occurrences_absent. rewrite Hin. tauto.
  - intros fn graph Hbody. split.
    + unfold oldcode2.graph_decl. by rewrite Hbody.
    + rewrite appendAll_elems. by rewrite decide_True by done.
Qed.

(** ** Properties of precision-mode extraction *)

Lemma lsp_callees_query_fails client names fn :
  query_fails client fn → lsp_callees client names fn = [].
Proof.
  unfold query_fails, lsp_callees. destruct (ast.Body fn); [|done].
  destruct (prepare client fn) as [[|root items]|]; try done.
  by destruct (callgraph.OutgoingCalls client root).
Qed.

Lemma lsp_callees_first_item client client' names fn root rest rest' :
  prepare client fn = Ok (root :: rest) →
  prepare client' fn = Ok (root :: rest') →
  callgraph.OutgoingCalls client' root = callgraph.OutgoingCalls client root →
  lsp_callees client' names fn = lsp_callees client names fn.
Proof.
  intros H1 H2 H3. unfold lsp_callees. by rewrite H1, H2, H3.
Qed.

(** C6: in precision mode a function whose prepare query fails or finds no
    item, or whose outgoing-calls query fails, adds nothing to the graph;
    the pass returns no error and its result is that of the pass over the
    other functions.  Of the items a prepare query returns, only the first
    is used. *)
Theorem C6_query_failure_skips
    (client : callgraph.Client) (names : gset string)
    (files1 files2 : list ast.File) (pkg : string)
    (ds1 ds2 : list ast.Decl) (fn : ast.FuncDecl) :
  let file := {| ast.Package := pkg;
                 ast.Decls := ds1 ++ ast.FuncDeclOf fn :: ds2 |} in
  let file' := {| ast.Package := pkg; ast.Decls := ds1 ++ ds2 |} in
  is_Ok (callgraph.extractGraphLSP client (files1 ++ file :: files2) names)
  ∧ (query_fails client fn →
     (∀ graph, callgraph.graph_decl client names graph (ast.FuncDeclOf fn) = graph)
     ∧ callgraph.extractGraphLSP client (files1 ++ file :: files2) names
       = callgraph.extractGraphLSP client (files1 ++ file' :: files2) names)
  ∧ (∀ client' root rest rest' graph,
       prepare client fn = Ok (root :: rest) →
       prepare client' fn = Ok (root :: rest') →
       callgraph.OutgoingCalls client' root = callgraph.OutgoingCalls client root →
       callgraph.graph_decl client' names graph (ast.FuncDeclOf fn)
       = callgraph.graph_decl client names graph (ast.FuncDeclOf fn)).
Proof.
  intros file file'. split; [done|]. split.
  - intros Hfails.
    assert (∀ graph,
      callgraph.graph_decl client names graph (ast.FuncDeclOf fn) = graph) as Hskip.
    { intros graph. by rewrite lsp_graph_decl, lsp_callees_query_fails. }
    split; [done|]. rewrite !extractGraphLSP_flat. f_equal.
    unfold allDecls. rewrite !fmap_app, !concat_app, !fmap_cons, !concat_cons.
    cbn [ast.Decls file file']. rewrite !foldl_app. cbn [foldl].
    by rewrite Hskip.
  - intros client' root rest rest' graph H1 H2 H3.
    rewrite !lsp_graph_decl. f_equal. by eapply lsp_callees_first_item.
Qed.

(** ** Properties of the two pipelines *)

Lemma node_of_elems rawGraph k det :
  elems (callgraph.Callees (node_of rawGraph k det)) = elems (index rawGraph k).
Proof. simpl. by destruct (index rawGraph k). Qed.

Lemma node_of_not_nil rawGraph k det :
  is_nil (callgraph.Callees (node_of rawGraph k det)) = false.
Proof. simpl. by destruct (index rawGraph k). Qed.

Lemma node_of_no_edges rawGraph k det :
  elems (index rawGraph k) = [] →
  callgraph.Callees (node_of rawGraph k det) = make_slice [].
Proof. simpl. destruct (index rawGraph k); simpl; [done|]. by intros ->. Qed.

Section pipelines.

Variable Fprint_type : ast.Node → string.
Variable Fprint_decl : ast.FuncDecl → string.
Variable range_details :
  gmap string callgraph.funcDetail → list (string * callgraph.funcDetail).
Variable range_calleeSet : gset string → list string.
Hypothesis range_details_enum : ∀ m, range_details m ≡ₚ map_to_list m.

Abbreviation BuildCallGraph :=
  (callgraph.BuildCallGraph Fprint_type Fprint_decl range_details).
Abbreviation buildCallGraph :=
  (oldcode2.buildCallGraph Fprint_type Fprint_decl range_details range_calleeSet).
Abbreviation assembled :=
  (assembled_with Fprint_type Fprint_decl range_details).

Lemma BuildCallGraph_Ok client walk g :
  BuildCallGraph client walk = Ok g →
  g = assembled (callgraph.graph_decl client) walk.
Proof.
  unfold callgraph.BuildCallGraph. rewrite parseGoFiles_spec.
  destruct (callgraph.New client); [done|].
  destruct (callgraph.openAll client _); [done|].
  rewrite extractGraphLSP_flat, extractDetails_flat. by intros [= <-].
Qed.

Lemma buildCallGraph_Ok walk g :
  buildCallGraph walk = Ok g →
  g = assembled (oldcode2.graph_decl range_calleeSet) walk.
Proof.
  unfold oldcode2.buildCallGraph.
  destruct (oldcode2.parseGoFiles walk) as [[names files] [err|]] eqn:Hparse; [done|].
  apply old_parseGoFiles_ok in Hparse as [-> ->]. intros [= <-].
  unfold oldcode2.extractFuncDetails.
  by rewrite extractCallGraph_flat, extractDetails_flat.
Qed.

(** The precision pipeline returns a graph when the session starts and
    every document opens. *)
Lemma BuildCallGraph_total client walk :
  callgraph.New client = None →
  (∀ file, callgraph.OpenDocument client file = None) →
  is_Ok (BuildCallGraph client walk).
Proof.
  intros Hnew Hopen. unfold callgraph.BuildCallGraph.
  destruct (callgraph.parseGoFiles walk) as [names files]. rewrite Hnew.
  assert (callgraph.openAll client files = None) as ->; [|done].
  induction files as [|f files IH]; simpl; [done|]. by rewrite Hopen.
Qed.

(** What holds of the assembled graph whatever the edge source, as long as
    it appends the edges of each function declaration under its name. *)
Section any_mode.

Variable step :
  gset string → gmap string (slice string) → ast.Decl → gmap string (slice string).
Variable edges : gset string → ast.FuncDecl → list string.
Hypothesis step_func : ∀ names g fn,
  step names g (ast.FuncDeclOf fn)
  = oldcode2.appendAll (ast.Name fn) g (edges names fn).
Hypothesis step_gen : ∀ names g, step names g ast.GenDecl = g.

Lemma assembled_lookup walk k :
  let ds := allDecls (parsed walk) in
  let names := foldl callgraph.declNames ∅ ds in
  assembled step walk !! k
  = node_of (foldl (step names) ∅ ds) k
      <$> foldl (callgraph.detail_decl Fprint_type Fprint_decl) ∅ ds !! k.
Proof using range_details_enum.
  intros ds names. unfold assembled_with. by rewrite assemble_lookup.
Qed.

Lemma assembled_dom walk :
  dom (assembled step walk)
  = foldl callgraph.declNames ∅ (allDecls (parsed walk)).
Proof using range_details_enum.
  unfold assembled_with. rewrite assemble_dom by done.
  by rewrite detail_decl_dom, dom_empty_L.
Qed.

Lemma assembled_closed walk :
  (∀ names fn, Forall (λ c, c ∈ names) (edges names fn)) →
  closed_world (assembled step walk).
Proof using range_details_enum step_func step_gen.
  intros Hknown k node. rewrite assembled_lookup.
  destruct (foldl _ ∅ _ !! k) as [det|]; [|done]. intros [= <-].
  rewrite node_of_elems, assembled_dom.
  eapply edge_fold_known; [apply step_func|apply step_gen|apply Hknown].
Qed.

Lemma assembled_collision walk ds1 f1 ds2 f2 ds3 :
  allDecls (parsed walk)
  = ds1 ++ ast.FuncDeclOf f1 :: ds2 ++ ast.FuncDeclOf f2 :: ds3 →
  ast.Name f1 = ast.Name f2 →
  Forall (not_named (ast.Name f2)) (ds1 ++ ds2 ++ ds3) →
  let names := (callgraph.parseGoFiles walk).1 in
  ∃ node, assembled step walk !! ast.Name f2 = Some node
    ∧ callgraph.Signature node = Fprint_type (ast.Type_ f2)
    ∧ callgraph.Definition_ node = Fprint_decl f2
    ∧ elems (callgraph.Callees node) = edges names f1 ++ edges names f2.
Proof using range_details_enum step_func step_gen.
  intros Hds Hname Hothers names.
  apply Forall_app in Hothers as [H1 Hothers].
  apply Forall_app in Hothers as [H2 H3].
  assert (foldl (callgraph.detail_decl Fprint_type Fprint_decl) ∅
            (allDecls (parsed walk)) !! ast.Name f2
          = Some {| callgraph.detSignature := Fprint_type (ast.Type_ f2);
                    callgraph.detDefinition := Fprint_decl f2 |}) as Hdet.
  { rewrite Hds.
    replace (ds1 ++ ast.FuncDeclOf f1 :: ds2 ++ ast.FuncDeclOf f2 :: ds3)
      with ((ds1 ++ ast.FuncDeclOf f1 :: ds2) ++ ast.FuncDeclOf f2 :: ds3)
      by (by rewrite <-app_assoc).
    by apply detail_decl_last. }
  eexists. split; [|split; [|split]].
  - rewrite assembled_lookup. cbv zeta. by rewrite Hdet.
  - done.
  - done.
  - rewrite node_of_elems.
    erewrite edge_fold_elems; [|apply step_func|apply step_gen].
    unfold index at 1. rewrite lookup_empty. simpl. rewrite Hds.
    rewrite edges_of_app, edges_of_cons, edges_of_app, edges_of_cons.
    rewrite !edges_of_not_named by done.
    rewrite decide_True by done. rewrite decide_True by done.
    simpl. rewrite app_nil_r. unfold names.
    by rewrite parseGoFiles_spec, Hds.
Qed.

Lemma assembled_bodyless walk fn :
  ast.FuncDeclOf fn ∈ allDecls (parsed walk) →
  (∀ names fn, ast.Body fn = None → edges names fn = []) →
  ∃ node, assembled step walk !! ast.Name fn = Some node
    ∧ is_nil (callgraph.Callees node) = false
    ∧ (only_bodyless (ast.Name fn) (allDecls (parsed walk)) →
       callgraph.Callees node = make_slice []).
Proof using range_details_enum step_func step_gen.
  intros Hin Hedges.
  assert (ast.Name fn ∈ dom (assembled step walk)) as [node Hnode]%elem_of_dom.
  { rewrite assembled_dom. apply declNames_elem. right. by exists fn. }
  exists node. split; [done|]. rewrite assembled_lookup in Hnode.
  destruct (foldl _ ∅ _ !! ast.Name fn) as [det|]; [|done].
  injection Hnode as <-. split; [apply node_of_not_nil|].
  intros Hall. apply node_of_no_edges.
  erewrite edge_fold_elems; [|apply step_func|apply step_gen].
  unfold index at 1. rewrite lookup_empty. simpl.
  apply edges_of_no_body; [|done]. intros fn'. apply Hedges.
Qed.

End any_mode.

End pipelines.

Lemma lsp_step_func client names g fn :
  callgraph.graph_decl client names g (ast.FuncDeclOf fn)
  = oldcode2.appendAll (ast.Name fn) g (lsp_edges client names fn).
Proof. by rewrite lsp_graph_decl, lsp_edges_callees. Qed.

Lemma lsp_edges_known client names fn :
  Forall (λ c, c ∈ names) (lsp_edges client names fn).
Proof.
  rewrite lsp_edges_callees. unfold lsp_callees.
  destruct (ast.Body fn); [|done].
  destruct (prepare client fn) as [[|root items]|]; try done.
  destruct (callgraph.OutgoingCalls client root); [|done].
  apply new_callees_known.
Qed.

Lemma lsp_edges_no_body client names fn :
  ast.Body fn = None → lsp_edges client names fn = [].
Proof. intros H. rewrite lsp_edges_callees. unfold lsp_callees. by rewrite H. Qed.

Lemma lexical_edges_no_body range_calleeSet names fn :
  ast.Body fn = None → lexical_edges range_calleeSet names fn = [].
Proof. intros H. by rewrite lexical_edges_body, H. Qed.

(** C4: closed world.  Whatever graph the precision pipeline or the
    lexical pipeline returns, every callee of every node is a key of the
    graph. *)
Theorem C4_closed_world
    (Fprint_type : ast.Node → string) (Fprint_decl : ast.FuncDecl → string)
    (range_details :
       gmap string callgraph.funcDetail → list (string * callgraph.funcDetail))
    (range_calleeSet : gset string → list string)
    (client : callgraph.Client) (walk : list WalkEntry)
    (g : gmap string callgraph.FunctionNode) :
  (∀ m, range_details m ≡ₚ map_to_list m) →
  (∀ s, range_calleeSet s ≡ₚ elements s) →
  callgraph.BuildCallGraph Fprint_type Fprint_decl range_details client walk = Ok g
  ∨ oldcode2.buildCallGraph Fprint_type Fprint_decl range_details
      range_calleeSet walk = Ok g →
  closed_world g.
Proof.
  intros Hdetails Hset [->%BuildCallGraph_Ok | ->%buildCallGraph_Ok].
  - apply assembled_closed with (edges := lsp_edges client); [done| |done|].
    + apply lsp_step_func.
    + apply lsp_edges_known.
  - apply assembled_closed with (edges := lexical_edges range_calleeSet);
      [done| |done|].
    + apply lexical_graph_decl.
    + intros names fn. by apply lexical_edges_known.
Qed.

Lemma C4_closed_world_witness : closed_world sample_graph.
Proof.
  apply (C4_closed_world sample_Fprint_type sample_Fprint_decl
           map_to_list elements sample_client sample_walk sample_graph).
  - intros m. reflexivity.
  - intros s. reflexivity.
  - left. vm_compute. reflexivity.
Defined.

(** C8: when two declarations share a name, each pipeline returns one node
    for the name; its signature and definition are those of the second
    declaration, the one processed last, and its callee list is the edges
    of the first declaration followed by the edges of the second. *)
Theorem C8_same_name_last_write_wins
    (Fprint_type : ast.Node → string) (Fprint_decl : ast.FuncDecl → string)
    (range_details :
       gmap string callgraph.funcDetail → list (string * callgraph.funcDetail))
    (range_calleeSet : gset string → list string)
    (client : callgraph.Client) (walk : list WalkEntry)
    (ds1 ds2 ds3 : list ast.Decl) (f1 f2 : ast.FuncDecl) :
  (∀ m, range_details m ≡ₚ map_to_list m) →
  allDecls (parsed walk)
  = ds1 ++ ast.FuncDeclOf f1 :: ds2 ++ ast.FuncDeclOf f2 :: ds3 →
  ast.Name f1 = ast.Name f2 →
  Forall (not_named (ast.Name f2)) (ds1 ++ ds2 ++ ds3) →
  let names := (callgraph.parseGoFiles walk).1 in
  (∀ g,
     callgraph.BuildCallGraph Fprint_type Fprint_decl range_details client walk
     = Ok g →
     ∃ node, g !! ast.Name f2 = Some node
       ∧ callgraph.Signature node = Fprint_type (ast.Type_ f2)
       ∧ callgraph.Definition_ node = Fprint_decl f2
       ∧ elems (callgraph.Callees node)
         = lsp_edges client names f1 ++ lsp_edges client names f2)
  ∧ (∀ g,
     oldcode2.buildCallGraph Fprint_type Fprint_decl range_details
       range_calleeSet walk = Ok g →
     ∃ node, g !! ast.Name f2 = Some node
       ∧ callgraph.Signature node = Fprint_type (ast.Type_ f2)
       ∧ callgraph.Definition_ node = Fprint_decl f2
       ∧ elems (callgraph.Callees node)
         = lexical_edges range_calleeSet names f1
           ++ lexical_edges range_calleeSet names f2).
Proof.
  intros Hdetails Hds Hname Hothers names. split.
  - intros g ->%BuildCallGraph_Ok.
    eapply assembled_collision with (edges := lsp_edges client); eauto.
    apply lsp_step_func.
  - intros g ->%buildCallGraph_Ok.
    eapply assembled_collision with (edges := lexical_edges range_calleeSet);
      eauto.
    apply lexical_graph_decl.
Qed.

Lemma C8_same_name_last_write_wins_witness :
  ∃ g node,
    oldcode2.buildCallGraph sample_Fprint_type sample_Fprint_decl
      map_to_list elements collide_walk = Ok g
    ∧ g !! "F" = Some node
    ∧ callgraph.Definition_ node = sample_Fprint_decl collide_F2
    ∧ elems (callgraph.Callees node) = ["G"; "H"].
Proof.
  destruct (C8_same_name_last_write_wins sample_Fprint_type sample_Fprint_decl
              map_to_list elements sample_client collide_walk
              [] [ast.FuncDeclOf collide_G] [ast.FuncDeclOf collide_H]
              collide_F1 collide_F2) as [_ Hlexical].
  - intros m. reflexivity.
  - reflexivity.
  - reflexivity.
  - repeat constructor; simpl; discriminate.
  - destruct (Hlexical collide_graph) as (node & Hnode & _ & Hdef & Hcallees).
    + vm_compute. reflexivity.
    + exists collide_graph, node. split; [vm_compute; reflexivity|].
      split; [exact Hnode|]. split; [exact Hdef|].
      rewrite Hcallees. vm_compute. reflexivity.
Defined.

Lemma C3_assemble_complete_witness :
  let out := callgraph.assemble map_to_list sample_details sample_raw in
  dom out = dom sample_details
  ∧ map_Forall (λ _ node, is_nil (callgraph.Callees node) = false) out
  ∧ map_Forall (λ name det,
      sample_raw !! name = None →
      out !! name = Some {| callgraph.Callees := make_slice [];
                            callgraph.Signature := callgraph.detSignature det;
                            callgraph.Definition_ := callgraph.detDefinition det |})
      sample_details.
Proof.
  apply (C3_assemble_complete map_to_list sample_details sample_raw).
  reflexivity.
Defined.

Lemma C5_lexical_edges_witness :
  let edges := oldcode2.calleesOf elements sample_names sample_body in
  (∀ known, known ∈ sample_names →
     2 ≤ occurrences known (call_sites sample_body) →
     occurrences known edges = 1)
  ∧ (∀ unknown, unknown ∉ sample_names → occurrences unknown edges = 0)
  ∧ (∀ callee, callee ∈ edges
               ↔ callee ∈ call_sites sample_body ∧ callee ∈ sample_names)
  ∧ NoDup edges
  ∧ (∀ (fn : ast.FuncDecl) (graph : gmap string (slice string)),
       ast.Body fn = Some sample_body →
       oldcode2.graph_decl elements sample_names graph (ast.FuncDeclOf fn)
       = oldcode2.appendAll (ast.Name fn) graph edges
       ∧ elems (index (oldcode2.appendAll (ast.Name fn) graph edges)
                  (ast.Name fn))
         = elems (index graph (ast.Name fn)) ++ edges).
Proof.
  apply (C5_lexical_edges elements sample_names sample_body).
  intros s. reflexivity.
Defined.

(** The edges of the sample body, which calls [B] twice and the unknown
    [X] once, and of a body that calls nothing but [X]. *)
Example sample_lexical_edges :
  oldcode2.calleesOf elements sample_names sample_body = ["B"]
  ∧ occurrences "B" (call_sites sample_body) = 2
  ∧ oldcode2.calleesOf elements sample_names (ast.Other [call "X"]) = [].
Proof. repeat split; vm_compute; reflexivity. Qed.

(** The example of the specification, in both modes: [A → [B]], [B → []],
    [C → []]; in precision mode [A] is resolved from the first item, [B]
    has no item and the query for [C] fails. *)
Example sample_BuildCallGraph :
  callgraph.BuildCallGraph sample_Fprint_type sample_Fprint_decl map_to_list
    sample_client sample_walk = Ok sample_graph.
Proof. vm_compute. reflexivity. Qed.

Example sample_buildCallGraph :
  oldcode2.buildCallGraph sample_Fprint_type sample_Fprint_decl map_to_list
    elements sample_walk = Ok sample_graph.
Proof. vm_compute. reflexivity. Qed.

Example sample_query_fails :
  query_fails sample_client sample_B ∧ query_fails sample_client sample_C.
Proof. split; vm_compute; exact I. Qed.

(** A declaration of [F] without body does not keep the node of [F] free
    of callees when another declaration of [F] has a body. *)
Lemma C10_bodyless_counterexample :
  ast.Body extern_F = None
  ∧ ast.FuncDeclOf extern_F ∈ allDecls (parsed extern_walk)
  ∧ oldcode2.buildCallGraph sample_Fprint_type sample_Fprint_decl map_to_list
      elements extern_walk = Ok extern_graph
  ∧ ∃ node, extern_graph !! ast.Name extern_F = Some node
      ∧ callgraph.Callees node = make_slice ["G"]
      ∧ callgraph.Callees node ≠ make_slice [].
Proof.
  split; [reflexivity|]. split; [left|]. split; [vm_compute; reflexivity|].
  exists (sample_node "F" ["G"]). split; [vm_compute; reflexivity|].
  split; [reflexivity|discriminate].
Qed.

(** C10 (amended): a function declared without body is a known name and
    has a detail entry, so it is a node of the graph either pipeline
    returns, with a non-nil callee list, and it is recorded as a callee of
    the functions that call it; both extractors skip the declaration as a
    caller.  The callee list of its node is empty when no declaration of
    the same name has a body. *)
Theorem C10_bodyless_function
    (Fprint_type : ast.Node → string) (Fprint_decl : ast.FuncDecl → string)
    (range_details :
       gmap string callgraph.funcDetail → list (string * callgraph.funcDetail))
    (range_calleeSet : gset string → list string)
    (client : callgraph.Client) (walk : list WalkEntry) (fn : ast.FuncDecl)
    (g : gmap string callgraph.FunctionNode) :
  (∀ m, range_details m ≡ₚ map_to_list m) →
  ast.FuncDeclOf fn ∈ allDecls (parsed walk) →
  ast.Body fn = None →
  callgraph.BuildCallGraph Fprint_type Fprint_decl range_details client walk = Ok g
  ∨ oldcode2.buildCallGraph Fprint_type Fprint_decl range_details
      range_calleeSet walk = Ok g →
  let names := (callgraph.parseGoFiles walk).1 in
  ast.Name fn ∈ names
  ∧ is_Some (callgraph.extractDetails Fprint_type Fprint_decl (parsed walk)
             !! ast.Name fn)
  ∧ (∃ node, g !! ast.Name fn = Some node
       ∧ is_nil (callgraph.Callees node) = false
       ∧ (only_bodyless (ast.Name fn) (allDecls (parsed walk)) →
          callgraph.Callees node = make_slice []))
  ∧ (∀ graph,
       callgraph.graph_decl client names graph (ast.FuncDeclOf fn) = graph
       ∧ oldcode2.graph_decl range_calleeSet names graph (ast.FuncDeclOf fn)
         = graph)
  ∧ (∀ args calleeSet,
       oldcode2.visit names (ast.CallExpr (ast.Ident (ast.Name fn)) args) calleeSet
       = {[ast.Name fn]} ∪ calleeSet)
  ∧ (∀ caller graph uri,
       callgraph.record_call names caller (graph, ∅)
         {| protocol.To := {| protocol.Name := ast.Name fn; protocol.URI := uri |} |}
       = (<[caller := append (index graph caller) (ast.Name fn)]> graph,
          {[ast.Name fn]} ∪ ∅)).
Proof.
  intros Hdetails Hin Hbody Hg names.
  assert (ast.Name fn ∈ names) as Hname.
  { unfold names. rewrite parseGoFiles_spec. apply declNames_elem.
    right. by exists fn. }
  split; [done|]. split.
  { apply elem_of_dom. rewrite extractDetails_dom.
    unfold names in Hname. by rewrite parseGoFiles_spec in Hname. }
  split.
  { destruct Hg as [->%BuildCallGraph_Ok | ->%buildCallGraph_Ok].
    - apply (assembled_bodyless Fprint_type Fprint_decl range_details Hdetails
               (callgraph.graph_decl client) (lsp_edges client)
               (lsp_step_func client) (λ _ _, eq_refl) walk fn Hin
               (lsp_edges_no_body client)).
    - apply (assembled_bodyless Fprint_type Fprint_decl range_details Hdetails
               (oldcode2.graph_decl range_calleeSet)
               (lexical_edges range_calleeSet)
               (lexical_graph_decl range_calleeSet) (λ _ _, eq_refl) walk fn Hin
               (lexical_edges_no_body range_calleeSet)). }
  split.
  { intros graph. unfold callgraph.graph_decl, oldcode2.graph_decl.
    by rewrite Hbody. }
  split.
  { intros args calleeSet. simpl. by rewrite decide_True. }
  intros caller graph uri. unfold callgraph.record_call. simpl.
  rewrite decide_True by done. by rewrite decide_False by set_solver.
Qed.

Lemma C10_bodyless_function_witness :
  ∃ node, bodyless_graph !! "D" = Some node
    ∧ callgraph.Callees node = make_slice []
    ∧ "D" ∈ (callgraph.parseGoFiles bodyless_walk).1.
Proof.
  destruct (C10_bodyless_function sample_Fprint_type sample_Fprint_decl
              map_to_list elements sample_client bodyless_walk extern_D
              bodyless_graph) as (Hname & _ & (node & Hnode & _ & Hempty) & _).
  - intros m. reflexivity.
  - left.
  - reflexivity.
  - right. vm_compute. reflexivity.
  - exists node. split; [exact Hnode|]. split; [|exact Hname].
    apply Hempty. repeat constructor; simpl; discriminate.
Defined.

(** ** Properties of the transaction of a save *)

Lemma Rollback_closed s :
  persistence.tx s = None → persistence.Rollback s = s.
Proof. destruct s as [d t fk]. simpl. by intros ->. Qed.

Lemma tx_step_Exec wrap F st stmt :
  tx_step (persistence.orRollback wrap (persistence.Exec F st stmt)).
Proof.
  intros s s' r. unfold persistence.orRollback, persistence.Exec.
  destruct (F st); [by intros [= <- <-]|].
  destruct (persistence.tx s) as [d|]; [|by intros [= <- <-]].
  destruct (stmt _ d); by intros [= <- <-].
Qed.

Lemma tx_step_ret : tx_step (persistence.ret tt).
Proof. by intros s s' r [= <- <-]. Qed.

Lemma tx_step_bind m k :
  tx_step m → tx_step k → tx_step (persistence.bind m (λ _, k)).
Proof.
  intros Hm Hk s s' r. unfold persistence.bind.
  destruct (m s) as [s1 [[]|e]] eqn:E1; specialize (Hm _ _ _ E1); simpl in Hm.
  - destruct Hm as [Hdb Hfk]. intros E2. specialize (Hk _ _ _ E2).
    destruct r; simpl in *.
    + destruct Hk. split; congruence.
    + subst s'. unfold persistence.Rollback. by rewrite Hdb, Hfk.
  - by intros [= <- <-].
Qed.

Lemma tx_step_forM_ {A} (l : list A) f :
  (∀ x, tx_step (f x)) → tx_step (persistence.forM_ l f).
Proof.
  intros Hf. induction l as [|x l IH]; simpl; [apply tx_step_ret|].
  by apply tx_step_bind.
Qed.

Lemma tx_end_bind m k :
  tx_step m → tx_end k → tx_end (persistence.bind m (λ _, k)).
Proof.
  intros Hm Hk s s' e. unfold persistence.bind.
  destruct (m s) as [s1 [[]|e1]] eqn:E1; specialize (Hm _ _ _ E1); simpl in Hm.
  - destruct Hm as [Hdb Hfk]. intros ->%Hk.
    unfold persistence.Rollback. by rewrite Hdb, Hfk.
  - by intros [= <- _].
Qed.

Lemma tx_end_Commit F : tx_end (persistence.Commit F).
Proof.
  intros s s' e. unfold persistence.Commit.
  destruct (F persistence.StCommit); [by intros [= <- _]|].
  destruct (persistence.tx s) eqn:Htx; [done|].
  intros [= <- _]. by rewrite Rollback_closed.
Qed.

Section save.

Variable range_functions range_calls :
  gmap string callgraph.FunctionNode → list (string * callgraph.FunctionNode).

Abbreviation SaveGraph := (persistence.SaveGraph range_functions range_calls).

(** What [SaveGraph] runs once the transaction is open. *)
Lemma SaveGraph_unfold F graph s :
  SaveGraph F graph s
  = persistence.bind (persistence.Begin F) (λ _,
    persistence.bind
      (persistence.orRollback id
         (persistence.Exec F persistence.StDeleteCalls persistence.delete_calls)) (λ _,
    persistence.bind
      (persistence.orRollback id
         (persistence.Exec F persistence.StDeleteFunctions persistence.delete_functions)) (λ _,
    persistence.bind
      (persistence.orRollback id (persistence.Prepare F persistence.StPrepareInsertFn)) (λ _,
    persistence.bind
      (persistence.orRollback id (persistence.Prepare F persistence.StPrepareInsertCall)) (λ _,
    persistence.bind
      (persistence.forM_ (range_functions graph) (λ e,
         persistence.orRollback (wrapError ("insert function " +:+ e.1))
           (persistence.Exec F (persistence.StInsertFn e.1)
              (persistence.insert_function e.1
                 (callgraph.Signature e.2) (callgraph.Definition_ e.2))))) (λ _,
    persistence.bind
      (persistence.forM_ (range_calls graph) (λ e,
         persistence.forM_ (elems (callgraph.Callees e.2)) (λ callee,
           persistence.orRollback
             (wrapError ("insert call " +:+ e.1 +:+ "→" +:+ callee))
             (persistence.Exec F (persistence.StInsertCall e.1 callee)
                (persistence.insert_call e.1 callee))))) (λ _,
    persistence.Commit F))))))) s.
Proof. reflexivity. Qed.

(** A save that returns an error leaves the store as it found it. *)
Lemma SaveGraph_Err F graph s s' e :
  SaveGraph F graph s = (s', Err e) → s' = s.
Proof.
  rewrite SaveGraph_unfold. unfold persistence.bind at 1.
  destruct (persistence.Begin F s) as [s1 [[]|e1]] eqn:HBegin.
  - unfold persistence.Begin in HBegin.
    destruct (F persistence.StBegin); [done|].
    destruct (persistence.tx s) eqn:Htx; [done|]. injection HBegin as <-.
    intros Hrest. eapply (tx_end_bind _ _) in Hrest as ->.
    { unfold persistence.Rollback. simpl. destruct s; simpl in *. by subst. }
    { apply tx_step_Exec. }
    repeat (apply tx_end_bind;
            [first [apply tx_step_Exec
                   |apply tx_step_forM_; intros;
                    first [apply tx_step_Exec
                          |apply tx_step_forM_; intros; apply tx_step_Exec]]|]).
    apply tx_end_Commit.
  - unfold persistence.Begin in HBegin.
    destruct (F persistence.StBegin).
    + injection HBegin as <- _. by intros [= <- _].
    + destruct (persistence.tx s); [|done].
      injection HBegin as <- _. by intros [= <- _].
Qed.

End save.

(** ** The steps of a successful save *)

Lemma bind_Ok {A B} (m : persistence.M A) (k : A → persistence.M B) s s' b :
  persistence.bind m k s = (s', Ok b) →
  ∃ s1 a, m s = (s1, Ok a) ∧ k a s1 = (s', Ok b).
Proof.
  unfold persistence.bind. destruct (m s) as [s1 [a|e]]; [|done]. eauto.
Qed.

Lemma Exec_Ok wrap F st stmt s s' :
  persistence.orRollback wrap (persistence.Exec F st stmt) s = (s', Ok tt) →
  F st = None
  ∧ ∃ d d', persistence.tx s = Some d
      ∧ stmt (persistence.foreign_keys s) d = Ok d'
      ∧ s' = with_tx s d'.
Proof.
  unfold persistence.orRollback, persistence.Exec.
  destruct (F st); [done|].
  destruct (persistence.tx s) as [d|]; [|done].
  destruct (stmt _ d) as [d'|] eqn:Hstmt; [|done].
  intros [= <-]. split; [done|]. by exists d, d'.
Qed.

Lemma forM__cons {A} (x : A) l f :
  persistence.forM_ (x :: l) f
  = persistence.bind (f x) (λ _, persistence.forM_ l f).
Proof. reflexivity. Qed.

Lemma forM__Ok {A} (l : list A) f (P : A → Prop) s s' :
  (∀ x s1 s2, f x s1 = (s2, Ok tt) → P x) →
  persistence.forM_ l f s = (s', Ok tt) → Forall P l.
Proof.
  intros Hf. revert s s'. induction l as [|x l IH]; intros s s'; [done|].
  rewrite forM__cons. intros (s1 & [] & Hx & Hl)%bind_Ok.
  constructor; eauto.
Qed.

Section save_ok.

Variable range_functions range_calls :
  gmap string callgraph.FunctionNode → list (string * callgraph.FunctionNode).
Hypothesis range_functions_enum : ∀ g, range_functions g ≡ₚ map_to_list g.
Hypothesis range_calls_enum : ∀ g, range_calls g ≡ₚ map_to_list g.

(** A save that returns no error met no error at any of its steps. *)
Lemma SaveGraph_Ok_steps F graph s s' st :
  persistence.SaveGraph range_functions range_calls F graph s = (s', Ok tt) →
  save_step graph st → F st = None.
Proof using range_functions_enum range_calls_enum.
  rewrite SaveGraph_unfold.
  intros (s0 & [] & _ & H)%bind_Ok.
  apply bind_Ok in H as (s1 & [] & [H1 _]%Exec_Ok & H).
  apply bind_Ok in H as (s2 & [] & [H2 _]%Exec_Ok & H).
  apply bind_Ok in H as (s3 & [] & [H3 _]%Exec_Ok & H).
  apply bind_Ok in H as (s4 & [] & [H4 _]%Exec_Ok & H).
  apply bind_Ok in H as (s5 & [] & H5 & H).
  apply bind_Ok in H as (s6 & [] & H6 & _).
  apply (forM__Ok _ _ (λ e, F (persistence.StInsertFn e.1) = None)) in H5;
    [|by intros e ? ? [? _]%Exec_Ok].
  apply (forM__Ok _ _ (λ e, Forall (λ callee,
           F (persistence.StInsertCall e.1 callee) = None)
           (elems (callgraph.Callees e.2)))) in H6.
  2:{ intros e sa sb. apply forM__Ok. by intros callee ? ? [? _]%Exec_Ok. }
  rewrite Forall_forall in H5, H6.
  destruct st as [| | | | | | |name|caller callee| | | | | | |]; simpl; try done.
  - intros [node Hnode]%elem_of_dom.
    apply (H5 (name, node)). rewrite range_functions_enum.
    by apply elem_of_map_to_list.
  - intros (node & Hnode & Hcallee).
    specialize (H6 (caller, node)). rewrite Forall_forall in H6.
    apply H6; [|done]. rewrite range_calls_enum. by apply elem_of_map_to_list.
Qed.

End save_ok.

(** C2: a save is atomic.  When one of its steps fails (the delete of the
    edges, the delete of the functions, the preparation of a statement, the
    insert of a function row or of an edge row), [SaveGraph] returns an
    error and the store is what it was before the call, with no transaction
    left open; and whenever [SaveGraph] returns an error, for whatever
    reason, the store is what it was before the call. *)
Theorem C2_SaveGraph_atomic
    (range_functions range_calls :
       gmap string callgraph.FunctionNode → list (string * callgraph.FunctionNode))
    (F : persistence.faults) (graph : gmap string callgraph.FunctionNode)
    (s : persistence.Store) (st : persistence.step) (err : error) :
  (∀ g, range_functions g ≡ₚ map_to_list g) →
  (∀ g, range_calls g ≡ₚ map_to_list g) →
  save_step graph st →
  F st = Some err →
  (∃ e, persistence.SaveGraph range_functions range_calls F graph s = (s, Err e))
  ∧ (∀ F' graph' s' e,
       persistence.SaveGraph range_functions range_calls F' graph' s = (s', Err e) →
       s' = s).
Proof.
  intros Hfunctions Hcalls Hstep Hfails. split.
  - destruct (persistence.SaveGraph range_functions range_calls F graph s)
      as [s' [[]|e]] eqn:Hsave.
    + eapply SaveGraph_Ok_steps in Hsave; [|done..]. congruence.
    + exists e. by apply SaveGraph_Err in Hsave as ->.
  - intros F' graph' s' e. apply SaveGraph_Err.
Qed.

(** ** A save that meets no error *)

Lemma Exec_no_faults wrap st stmt s d d' :
  stmt (persistence.foreign_keys s) d = Ok d' →
  persistence.orRollback wrap (persistence.Exec persistence.no_faults st stmt)
    (with_tx s d)
  = (with_tx s d', Ok tt).
Proof.
  intros Hstmt. unfold persistence.orRollback, persistence.Exec. simpl.
  by rewrite Hstmt.
Qed.

Lemma known_true d name :
  persistence.known d name = true ↔ name ∈ dom (persistence.functions d).
Proof. unfold persistence.known. apply bool_decide_eq_true. Qed.

Lemma known_false d name :
  persistence.known d name = false ↔ persistence.functions d !! name = None.
Proof.
  unfold persistence.known. rewrite bool_decide_eq_false.
  by rewrite not_elem_of_dom.
Qed.

Lemma insert_functions_run s l d :
  NoDup l.*1 →
  (∀ k, k ∈ l.*1 → persistence.functions d !! k = None) →
  persistence.forM_ l (λ e,
    persistence.orRollback (wrapError ("insert function " +:+ e.1))
      (persistence.Exec persistence.no_faults (persistence.StInsertFn e.1)
         (persistence.insert_function e.1
            (callgraph.Signature e.2) (callgraph.Definition_ e.2))))
    (with_tx s d)
  = (with_tx s
       {| persistence.functions :=
            list_to_map (function_row <$> l) ∪ persistence.functions d;
          persistence.calls := persistence.calls d |},
     Ok tt).
Proof.
  revert d. induction l as [|[name node] l IH]; intros d Hnd Hfresh.
  { simpl. rewrite (left_id_L ∅ (∪)). by destruct d. }
  apply NoDup_cons in Hnd as [Hname Hnd].
  rewrite forM__cons. unfold persistence.bind.
  erewrite Exec_no_faults; last first.
  { unfold persistence.insert_function. simpl.
    rewrite (proj2 (known_false d name)); [done|]. apply Hfresh. left. }
  rewrite IH; [|done|].
  - do 3 f_equal. cbn [persistence.functions].
    rewrite fmap_cons.
    change (function_row (name, node))
      with (name, (callgraph.Signature node, callgraph.Definition_ node)).
    rewrite list_to_map_cons, <-insert_union_l. symmetry.
    apply insert_union_r, not_elem_of_list_to_map_1.
    rewrite <-list_fmap_compose. exact Hname.
  - intros k Hk. simpl. rewrite lookup_insert_ne; [apply Hfresh; by right|].
    intros <-. done.
Qed.

Lemma insert_callees_run s caller callees d :
  (persistence.foreign_keys s = true →
   caller ∈ dom (persistence.functions d)
   ∧ Forall (λ c, c ∈ dom (persistence.functions d)) callees) →
  persistence.forM_ callees (λ callee,
    persistence.orRollback
      (wrapError ("insert call " +:+ caller +:+ "→" +:+ callee))
      (persistence.Exec persistence.no_faults
         (persistence.StInsertCall caller callee)
         (persistence.insert_call caller callee)))
    (with_tx s d)
  = (with_tx s
       {| persistence.functions := persistence.functions d;
          persistence.calls :=
            list_to_set ((λ callee, (caller, callee)) <$> callees)
            ∪ persistence.calls d |},
     Ok tt).
Proof.
  revert d. induction callees as [|c callees IH]; intros d Hfk.
  { simpl. rewrite (left_id_L ∅ (∪)). by destruct d. }
  rewrite forM__cons. unfold persistence.bind.
  unfold persistence.insert_call at 1.
  destruct (decide ((caller, c) ∈ persistence.calls d)) as [Hin|Hnotin].
  - erewrite Exec_no_faults; last first.
    { unfold persistence.insert_call. by rewrite bool_decide_eq_true_2. }
    rewrite IH.
    + do 3 f_equal. set_solver.
    + intros [? [_ ?]%Forall_cons]%Hfk. done.
  - erewrite Exec_no_faults; last first.
    { unfold persistence.insert_call. rewrite bool_decide_eq_false_2 by done.
      destruct (persistence.foreign_keys s) eqn:Efk; simpl; [|done].
      destruct (Hfk eq_refl) as [Hcaller [Hc _]%Forall_cons].
      by rewrite (proj2 (known_true d caller)), (proj2 (known_true d c)). }
    rewrite IH.
    + simpl. do 3 f_equal. set_solver.
    + simpl. intros [? [_ ?]%Forall_cons]%Hfk. done.
Qed.

Lemma insert_calls_run s l d :
  (persistence.foreign_keys s = true →
   Forall (λ e, e.1 ∈ dom (persistence.functions d)
                ∧ Forall (λ c, c ∈ dom (persistence.functions d))
                    (elems (callgraph.Callees e.2))) l) →
  persistence.forM_ l (λ e,
    persistence.forM_ (elems (callgraph.Callees e.2)) (λ callee,
      persistence.orRollback
        (wrapError ("insert call " +:+ e.1 +:+ "→" +:+ callee))
        (persistence.Exec persistence.no_faults
           (persistence.StInsertCall e.1 callee)
           (persistence.insert_call e.1 callee))))
    (with_tx s d)
  = (with_tx s
       {| persistence.functions := persistence.functions d;
          persistence.calls := list_to_set (edge_rows l) ∪ persistence.calls d |},
     Ok tt).
Proof.
  revert d. induction l as [|[caller node] l IH]; intros d Hfk.
  { simpl. rewrite (left_id_L ∅ (∪)). by destruct d. }
  rewrite forM__cons. unfold persistence.bind.
  rewrite insert_callees_run.
  - rewrite IH.
    + simpl. do 3 f_equal. unfold edge_rows. simpl.
      rewrite list_to_set_app_L. set_solver.
    + simpl. intros [_ ?]%Hfk%Forall_cons. done.
  - intros [? _]%Hfk%Forall_cons. done.
Qed.

Lemma function_rows_enum l graph :
  l ≡ₚ map_to_list graph →
  (list_to_map (function_row <$> l) : gmap string (string * string))
  = function_rows graph.
Proof.
  intros Hperm. unfold function_rows.
  rewrite <-(list_to_map_to_list (_ <$> graph)).
  apply list_to_map_proper.
  - rewrite <-list_fmap_compose.
    change (fst ∘ function_row) with (@fst string callgraph.FunctionNode).
    rewrite Hperm. apply NoDup_fst_map_to_list.
  - rewrite map_to_list_fmap, Hperm. done.
Qed.

Lemma edge_rows_elem l caller callee :
  (caller, callee) ∈ edge_rows l
  ↔ ∃ node, (caller, node) ∈ l ∧ callee ∈ elems (callgraph.Callees node).
Proof.
  unfold edge_rows. rewrite list_elem_of_bind. split.
  - intros ([c node] & (callee' & [= -> ->] & Hin)%list_elem_of_fmap & Hl).
    eauto.
  - intros (node & Hl & Hin). exists (caller, node). split; [|done].
    apply list_elem_of_fmap. eauto.
Qed.

Lemma call_rows_elem graph caller callee :
  (caller, callee) ∈ call_rows graph
  ↔ ∃ node, graph !! caller = Some node
      ∧ callee ∈ elems (callgraph.Callees node).
Proof.
  unfold call_rows. rewrite elem_of_list_to_set, edge_rows_elem.
  by setoid_rewrite elem_of_map_to_list.
Qed.

Lemma call_rows_enum l graph :
  l ≡ₚ map_to_list graph → list_to_set (edge_rows l) = call_rows graph.
Proof.
  intros Hperm. apply set_eq. intros [caller callee].
  rewrite call_rows_elem, elem_of_list_to_set, edge_rows_elem.
  setoid_rewrite Hperm. by setoid_rewrite elem_of_map_to_list.
Qed.

Lemma delete_functions_empty fk functions :
  persistence.delete_functions fk
    {| persistence.functions := functions; persistence.calls := ∅ |}
  = Ok {| persistence.functions := ∅; persistence.calls := ∅ |}.
Proof.
  unfold persistence.delete_functions. simpl. destruct fk; [|done].
  do 2 f_equal.
Qed.

Section save_run.

Variable range_functions range_calls :
  gmap string callgraph.FunctionNode → list (string * callgraph.FunctionNode).
Hypothesis range_functions_enum : ∀ g, range_functions g ≡ₚ map_to_list g.
Hypothesis range_calls_enum : ∀ g, range_calls g ≡ₚ map_to_list g.

(** With no error injected, no transaction open and, when foreign keys are
    enforced, a closed-world graph, a save commits exactly the rows of the
    graph. *)
Lemma SaveGraph_no_faults graph s :
  persistence.tx s = None →
  (persistence.foreign_keys s = true → closed_world graph) →
  persistence.SaveGraph range_functions range_calls persistence.no_faults graph s
  = ({| persistence.db :=
          {| persistence.functions := function_rows graph;
             persistence.calls := call_rows graph |};
        persistence.tx := None;
        persistence.foreign_keys := persistence.foreign_keys s |},
     Ok tt).
Proof using range_functions_enum range_calls_enum.
  intros Htx Hclosed. rewrite SaveGraph_unfold.
  unfold persistence.bind at 1. unfold persistence.Begin. simpl. rewrite Htx.
  change {| persistence.db := persistence.db s;
            persistence.tx := Some (persistence.db s);
            persistence.foreign_keys := persistence.foreign_keys s |}
    with (with_tx s (persistence.db s)).
  unfold persistence.bind at 1. erewrite Exec_no_faults by reflexivity.
  unfold persistence.bind at 1. erewrite Exec_no_faults by apply delete_functions_empty.
  unfold persistence.bind at 1. unfold persistence.Prepare.
  erewrite Exec_no_faults by reflexivity.
  unfold persistence.bind at 1. erewrite Exec_no_faults by reflexivity.
  unfold persistence.bind at 1. rewrite insert_functions_run; first last.
  { intros k _. apply lookup_empty. }
  { rewrite range_functions_enum. apply NoDup_fst_map_to_list. }
  cbn [persistence.functions persistence.calls].
  rewrite (right_id_L ∅ (∪)), (function_rows_enum _ graph) by done.
  unfold persistence.bind at 1. rewrite insert_calls_run.
  - cbn [persistence.functions persistence.calls].
    rewrite (right_id_L ∅ (∪)), (call_rows_enum _ graph) by done. reflexivity.
  - intros Hfk. specialize (Hclosed Hfk). cbn [persistence.functions].
    apply Forall_forall. intros [caller node].
    rewrite range_calls_enum, elem_of_map_to_list. intros Hnode.
    unfold function_rows. rewrite dom_fmap_L. split.
    + by apply elem_of_dom_2 in Hnode.
    + apply (Hclosed caller node Hnode).
Qed.

End save_run.

(** ** Properties of a load *)

Section load.

Variable rows_functions :
  gmap string (string * string) → list (string * (string * string)).
Variable rows_calls : gset (string * string) → list (string * string).

Abbreviation LoadGraph := (persistence.LoadGraph rows_functions rows_calls).

Lemma load_functions_Ok F rows g g' :
  persistence.load_functions F rows g = Ok g' → g' = foldl add_function g rows.
Proof.
  revert g. induction rows as [|[name [sig def]] rows IH]; intros g; simpl.
  { by intros [= <-]. }
  destruct (F _); [done|]. apply IH.
Qed.

Lemma load_functions_no_faults rows g :
  persistence.load_functions persistence.no_faults rows g
  = Ok (foldl add_function g rows).
Proof.
  revert g. induction rows as [|[name [sig def]] rows IH]; intros g; simpl; [done|].
  apply IH.
Qed.

Lemma load_calls_Ok F rows g g' :
  persistence.load_calls F rows g = Ok g' → g' = foldl add_edge g rows.
Proof.
  revert g. induction rows as [|[caller callee] rows IH]; intros g; simpl.
  { by intros [= <-]. }
  destruct (F _); [done|]. apply IH.
Qed.

Lemma load_calls_no_faults rows g :
  persistence.load_calls persistence.no_faults rows g = Ok (foldl add_edge g rows).
Proof.
  revert g. induction rows as [|[caller callee] rows IH]; intros g; simpl; [done|].
  apply IH.
Qed.

Lemma LoadGraph_Ok F s g :
  LoadGraph F s = Ok g →
  g = foldl add_edge
        (foldl add_function ∅
           (rows_functions (persistence.functions (persistence.db s))))
        (rows_calls (persistence.calls (persistence.db s))).
Proof.
  unfold persistence.LoadGraph, persistence.check.
  destruct (F persistence.StQueryFunctions); [done|]. simpl.
  destruct (persistence.load_functions _ _ _) as [g0|] eqn:H0; [|done].
  apply load_functions_Ok in H0 as ->. simpl.
  destruct (F persistence.StFunctionsErr); [done|]. simpl.
  destruct (F persistence.StQueryCalls); [done|]. simpl.
  destruct (persistence.load_calls _ _ _) as [g1|] eqn:H1; [|done].
  apply load_calls_Ok in H1 as ->. simpl.
  destruct (F persistence.StCallsErr); [done|]. simpl. by intros [= <-].
Qed.

Lemma LoadGraph_no_faults s :
  LoadGraph persistence.no_faults s
  = Ok (foldl add_edge
          (foldl add_function ∅
             (rows_functions (persistence.functions (persistence.db s))))
          (rows_calls (persistence.calls (persistence.db s)))).
Proof.
  unfold persistence.LoadGraph, persistence.check. simpl.
  rewrite load_functions_no_faults. simpl. by rewrite load_calls_no_faults.
Qed.

End load.

Lemma add_function_fold rows g k :
  NoDup rows.*1 →
  foldl add_function g rows !! k
  = match (list_to_map rows : gmap string (string * string)) !! k with
    | Some r => Some {| callgraph.Callees := make_slice [];
                        callgraph.Signature := r.1;
                        callgraph.Definition_ := r.2 |}
    | None => g !! k
    end.
Proof.
  revert g. induction rows as [|[name r] rows IH]; intros g Hnd; [done|].
  apply NoDup_cons in Hnd as [Hname Hnd]. simpl.
  rewrite IH by done. destruct (decide (k = name)) as [->|Hne].
  - rewrite lookup_insert_eq.
    rewrite (not_elem_of_list_to_map_1 _ name) by done.
    unfold add_function; simpl. by rewrite lookup_insert_eq.
  - rewrite lookup_insert_ne by done.
    destruct (list_to_map rows !! k); [done|].
    unfold add_function; simpl. by rewrite lookup_insert_ne.
Qed.

Lemma add_function_fold_empty rows g :
  map_Forall (λ _ node, callgraph.Callees node = make_slice []) g →
  map_Forall (λ _ node, callgraph.Callees node = make_slice [])
    (foldl add_function g rows).
Proof.
  revert g. induction rows as [|row rows IH]; intros g Hg; [done|].
  simpl. apply IH. unfold add_function. by apply map_Forall_insert_2.
Qed.

Lemma add_edge_fold_None rows g k :
  g !! k = None → foldl add_edge g rows !! k = None.
Proof.
  revert g. induction rows as [|[caller callee] rows IH]; intros g Hk; [done|].
  simpl. apply IH. unfold add_edge. simpl.
  destruct (g !! caller) eqn:Hcaller; [|done].
  rewrite lookup_insert_ne; [done|]. congruence.
Qed.

Lemma add_edge_fold_Some rows g k node :
  g !! k = Some node →
  ∃ node', foldl add_edge g rows !! k = Some node'
    ∧ callgraph.Signature node' = callgraph.Signature node
    ∧ callgraph.Definition_ node' = callgraph.Definition_ node
    ∧ elems (callgraph.Callees node')
      = elems (callgraph.Callees node) ++ (filter (λ r, r.1 = k) rows).*2.
Proof.
  revert g node.
  induction rows as [|[caller callee] rows IH]; intros g node Hk.
  { exists node. by rewrite app_nil_r. }
  simpl. destruct (decide (caller = k)) as [->|Hne].
  - rewrite filter_cons_True by done.
    destruct (IH (add_edge g (k, callee))
                {| callgraph.Callees := append (callgraph.Callees node) callee;
                   callgraph.Signature := callgraph.Signature node;
                   callgraph.Definition_ := callgraph.Definition_ node |})
      as (node' & Hnode' & Hsig & Hdef & Hcallees).
    { unfold add_edge. simpl. rewrite Hk. apply lookup_insert_eq. }
    exists node'. split; [done|]. split; [done|]. split; [done|].
    rewrite Hcallees. simpl. by rewrite <-app_assoc.
  - rewrite filter_cons_False by done. apply IH.
    unfold add_edge. simpl. destruct (g !! caller); [|done].
    by rewrite lookup_insert_ne.
Qed.

Lemma rows_of_caller_NoDup (rows : list (string * string)) k :
  NoDup rows → NoDup (filter (λ r, r.1 = k) rows).*2.
Proof.
  induction 1 as [|[caller callee] rows Hrow Hnd IH]; [constructor|].
  destruct (decide (caller = k)) as [->|Hne].
  - rewrite filter_cons_True by done. rewrite fmap_cons. constructor; [|done].
    intros ([c e] & Heq & [Hc Hin]%list_elem_of_filter)%list_elem_of_fmap.
    simpl in *. by subst.
  - by rewrite filter_cons_False.
Qed.

Lemma rows_of_caller_elem (rows : list (string * string)) k callee :
  callee ∈ (filter (λ r, r.1 = k) rows).*2 ↔ (k, callee) ∈ rows.
Proof.
  rewrite list_elem_of_fmap. split.
  - intros ([c e] & Heq & [Hc Hin]%list_elem_of_filter). simpl in *. by subst.
  - intros Hin. exists (k, callee). split; [done|].
    by apply list_elem_of_filter.
Qed.

(** Whatever the store holds, the graph a load returns has no duplicate
    callee: the rows of [calls] are a set. *)
Lemma loaded_duplicate_free rows_functions rows_calls :
  NoDup rows_calls →
  duplicate_free (foldl add_edge (foldl add_function ∅ rows_functions) rows_calls).
Proof.
  intros Hnd k node' Hnode'.
  pose proof (add_function_fold_empty rows_functions ∅ (map_Forall_empty _)) as H0.
  destruct (foldl add_function ∅ rows_functions !! k) as [node|] eqn:Hnode.
  - destruct (add_edge_fold_Some rows_calls _ _ _ Hnode)
      as (node'' & Hnode'' & _ & _ & Hcallees).
    assert (node'' = node') as -> by congruence.
    rewrite Hcallees, (H0 k node Hnode). simpl. by apply rows_of_caller_NoDup.
  - by rewrite (add_edge_fold_None rows_calls _ _ Hnode) in Hnode'.
Qed.

(** The graph loaded from the rows of a saved graph has its content. *)
Lemma loaded_content graph rows_functions rows_calls :
  rows_functions ≡ₚ map_to_list (function_rows graph) →
  rows_calls ≡ₚ elements (call_rows graph) →
  same_content (foldl add_edge (foldl add_function ∅ rows_functions) rows_calls)
    graph.
Proof.
  intros Hfunctions Hcalls.
  assert (NoDup rows_functions.*1) as Hnd.
  { rewrite Hfunctions. apply NoDup_fst_map_to_list. }
  assert (∀ k, foldl add_function ∅ rows_functions !! k
               = (λ node, {| callgraph.Callees := make_slice [];
                             callgraph.Signature := callgraph.Signature node;
                             callgraph.Definition_ := callgraph.Definition_ node |})
                 <$> graph !! k) as H0.
  { intros k. rewrite add_function_fold by done.
    rewrite (list_to_map_proper _ _ Hnd Hfunctions), list_to_map_to_list.
    unfold function_rows. rewrite lookup_fmap, lookup_empty.
    by destruct (graph !! k). }
  split.
  - apply set_eq. intros k. rewrite !elem_of_dom.
    destruct (graph !! k) as [node|] eqn:Hk.
    + specialize (H0 k). rewrite Hk in H0. simpl in H0.
      destruct (add_edge_fold_Some rows_calls _ _ _ H0) as (node' & -> & _).
      split; eauto.
    + specialize (H0 k). rewrite Hk in H0. simpl in H0.
      rewrite (add_edge_fold_None rows_calls _ _ H0). done.
  - intros k node Hk. specialize (H0 k). rewrite Hk in H0. simpl in H0.
    destruct (add_edge_fold_Some rows_calls _ _ _ H0)
      as (node' & Hnode' & Hsig & Hdef & Hcallees).
    exists node'. split; [done|]. split; [done|]. split; [done|].
    intros callee. rewrite Hcallees. simpl.
    rewrite rows_of_caller_elem, Hcalls, elem_of_elements, call_rows_elem.
    split; [|eauto]. intros (node0 & Hnode0 & Hin). congruence.
Qed.

Lemma C2_SaveGraph_atomic_witness :
  (∃ e, persistence.SaveGraph map_to_list map_to_list sample_faults sample_graph
          sample_store = (sample_store, Err e))
  ∧ (∀ F' graph' s' e,
       persistence.SaveGraph map_to_list map_to_list F' graph' sample_store
       = (s', Err e) →
       s' = sample_store).
Proof.
  apply (C2_SaveGraph_atomic map_to_list map_to_list sample_faults sample_graph
           sample_store (persistence.StInsertCall "A" "B")
           (errorString "disk I/O error")).
  - intros g. reflexivity.
  - intros g. reflexivity.
  - exists (sample_node "A" ["B"]). split; [vm_compute; reflexivity|left].
  - vm_compute. reflexivity.
Defined.

(** The failing save on the sample store, evaluated: the error is the injected
    one, wrapped, and the store still holds the old graph. *)
Example sample_failed_save :
  persistence.SaveGraph map_to_list map_to_list sample_faults sample_graph
    sample_store
  = (sample_store,
     Err (wrapError "insert call A→B" (errorString "disk I/O error"))).
Proof. vm_compute. reflexivity. Qed.

(** ** Save, then load *)

Section save_load.

Variable range_functions range_calls :
  gmap string callgraph.FunctionNode → list (string * callgraph.FunctionNode).
Variable rows_functions :
  gmap string (string * string) → list (string * (string * string)).
Variable rows_calls : gset (string * string) → list (string * string).
Hypothesis range_functions_enum : ∀ g, range_functions g ≡ₚ map_to_list g.
Hypothesis range_calls_enum : ∀ g, range_calls g ≡ₚ map_to_list g.
Hypothesis rows_functions_enum : ∀ m, rows_functions m ≡ₚ map_to_list m.
Hypothesis rows_calls_enum : ∀ c, rows_calls c ≡ₚ elements c.

Lemma LoadGraph_duplicate_free F s g :
  persistence.LoadGraph rows_functions rows_calls F s = Ok g → duplicate_free g.
Proof using rows_calls_enum.
  intros ->%LoadGraph_Ok. apply loaded_duplicate_free.
  rewrite rows_calls_enum. apply NoDup_elements.
Qed.

Lemma save_load graph s :
  persistence.tx s = None →
  (persistence.foreign_keys s = true → closed_world graph) →
  ∃ s' loaded,
    persistence.SaveGraph range_functions range_calls persistence.no_faults
      graph s = (s', Ok tt)
    ∧ persistence.LoadGraph rows_functions rows_calls persistence.no_faults s'
      = Ok loaded
    ∧ same_content loaded graph
    ∧ duplicate_free loaded.
Proof using All.
  intros Htx Hclosed. eexists _, _.
  split; [by apply SaveGraph_no_faults|].
  split; [apply LoadGraph_no_faults|]. simpl. split.
  - by apply loaded_content.
  - apply loaded_duplicate_free. rewrite rows_calls_enum. apply NoDup_elements.
Qed.

End save_load.

(** C1: save, then load, is a round trip.  For a graph that is complete
    for its declared names, closed-world and free of duplicate callees, a
    save on any store followed by a load returns a graph with the same
    keys, the same signature and definition under each key, and under each
    key a callee list that is a permutation of the saved one. *)
Theorem C1_save_load_round_trip
    (range_functions range_calls :
       gmap string callgraph.FunctionNode → list (string * callgraph.FunctionNode))
    (rows_functions :
       gmap string (string * string) → list (string * (string * string)))
    (rows_calls : gset (string * string) → list (string * string))
    (names : gset string) (graph : gmap string callgraph.FunctionNode)
    (s : persistence.Store) :
  (∀ g, range_functions g ≡ₚ map_to_list g) →
  (∀ g, range_calls g ≡ₚ map_to_list g) →
  (∀ m, rows_functions m ≡ₚ map_to_list m) →
  (∀ c, rows_calls c ≡ₚ elements c) →
  persistence.tx s = None →
  complete names graph →
  closed_world graph →
  duplicate_free graph →
  ∃ s' loaded,
    persistence.SaveGraph range_functions range_calls persistence.no_faults
      graph s = (s', Ok tt)
    ∧ persistence.LoadGraph rows_functions rows_calls persistence.no_faults s'
      = Ok loaded
    ∧ dom loaded = dom graph
    ∧ map_Forall (λ name node,
        ∃ node', loaded !! name = Some node'
          ∧ callgraph.Signature node' = callgraph.Signature node
          ∧ callgraph.Definition_ node' = callgraph.Definition_ node
          ∧ elems (callgraph.Callees node') ≡ₚ elems (callgraph.Callees node))
        graph.
Proof.
  intros Hrf Hrc Hrows Hcalls Htx _ Hclosed Hnodup.
  destruct (save_load range_functions range_calls rows_functions rows_calls
              Hrf Hrc Hrows Hcalls graph s Htx (λ _, Hclosed))
    as (s' & loaded & Hsave & Hload & [Hdom Hcontent] & Hloaded).
  exists s', loaded. split; [done|]. split; [done|]. split; [done|].
  intros name node Hnode.
  destruct (Hcontent name node Hnode) as (node' & Hnode' & Hsig & Hdef & Hsame).
  exists node'. split; [done|]. split; [done|]. split; [done|].
  apply NoDup_Permutation; [by apply (Hloaded name)|by apply (Hnodup name)|done].
Qed.

Lemma C1_save_load_round_trip_witness :
  ∃ s' loaded,
    persistence.SaveGraph map_to_list map_to_list persistence.no_faults
      sample_graph sample_store = (s', Ok tt)
    ∧ persistence.LoadGraph map_to_list elements persistence.no_faults s'
      = Ok loaded
    ∧ dom loaded = dom sample_graph
    ∧ map_Forall (λ name node,
        ∃ node', loaded !! name = Some node'
          ∧ callgraph.Signature node' = callgraph.Signature node
          ∧ callgraph.Definition_ node' = callgraph.Definition_ node
          ∧ elems (callgraph.Callees node') ≡ₚ elems (callgraph.Callees node))
        sample_graph.
Proof.
  apply (C1_save_load_round_trip map_to_list map_to_list map_to_list elements
           sample_names sample_graph sample_store).
  - intros g. reflexivity.
  - intros g. reflexivity.
  - intros m. reflexivity.
  - intros c. reflexivity.
  - reflexivity.
  - by_evaluation.
  - by_evaluation.
  - by_evaluation.
Defined.

(** The example of the specification: the graph [A → [B]], [B → []],
    [C → []] saved over an older graph is loaded back identical. *)
Example sample_round_trip :
  persistence.LoadGraph map_to_list elements persistence.no_faults
    (persistence.SaveGraph map_to_list map_to_list persistence.no_faults
       sample_graph sample_store).1
  = Ok sample_graph.
Proof. vm_compute. reflexivity. Qed.

(** C9: a load after a save returns duplicate-free callee lists, for every
    graph saved and whatever the outcome of the save.  A closed-world graph
    that lists a callee twice is saved without error, the repeated edge
    being ignored, and is loaded with that callee once. *)
Theorem C9_load_after_save_duplicate_free
    (range_functions range_calls :
       gmap string callgraph.FunctionNode → list (string * callgraph.FunctionNode))
    (rows_functions :
       gmap string (string * string) → list (string * (string * string)))
    (rows_calls : gset (string * string) → list (string * string))
    (F F' : persistence.faults) (graph : gmap string callgraph.FunctionNode)
    (s : persistence.Store) :
  (∀ c, rows_calls c ≡ₚ elements c) →
  let saved := persistence.SaveGraph range_functions range_calls in
  let load := persistence.LoadGraph rows_functions rows_calls in
  is_Ok (load persistence.no_faults (saved F graph s).1)
  ∧ (∀ loaded, load F' (saved F graph s).1 = Ok loaded → duplicate_free loaded)
  ∧ ((∀ g, range_functions g ≡ₚ map_to_list g) →
     (∀ g, range_calls g ≡ₚ map_to_list g) →
     (∀ m, rows_functions m ≡ₚ map_to_list m) →
     persistence.tx s = None →
     closed_world graph →
     ∃ s' loaded,
       saved persistence.no_faults graph s = (s', Ok tt)
       ∧ load persistence.no_faults s' = Ok loaded
       ∧ same_content loaded graph
       ∧ duplicate_free loaded).
Proof.
  intros Hcalls saved load. split; [|split].
  - unfold load. by rewrite LoadGraph_no_faults.
  - intros loaded. by apply LoadGraph_duplicate_free.
  - intros Hrf Hrc Hrows Htx Hclosed. by apply save_load.
Qed.

Lemma C9_load_after_save_duplicate_free_witness :
  ∃ s' loaded,
    persistence.SaveGraph map_to_list map_to_list persistence.no_faults
      duplicate_graph sample_store = (s', Ok tt)
    ∧ persistence.LoadGraph map_to_list elements persistence.no_faults s'
      = Ok loaded
    ∧ same_content loaded duplicate_graph
    ∧ duplicate_free loaded.
Proof.
  destruct (C9_load_after_save_duplicate_free map_to_list map_to_list
              map_to_list elements persistence.no_faults persistence.no_faults
              duplicate_graph sample_store) as (_ & _ & Hsaved).
  - intros c. reflexivity.
  - apply Hsaved.
    + intros g. reflexivity.
    + intros g. reflexivity.
    + intros m. reflexivity.
    + reflexivity.
    + by_evaluation.
Defined.

(** The graph with the repeated callee, saved and loaded. *)
Example sample_duplicate_round_trip :
  persistence.LoadGraph map_to_list elements persistence.no_faults
    (persistence.SaveGraph map_to_list map_to_list persistence.no_faults
       duplicate_graph sample_store).1
  = Ok (<["A" := sample_node "A" ["B"]]> (<["B" := sample_node "B" []]> ∅)).
Proof. vm_compute. reflexivity. Qed.

(** * Further properties of the code *)

(** ** persistence: what a save leaves in the store *)

Lemma tx_step_Ok m s s' :
  m s = (s', Ok tt) → tx_step m →
  persistence.db s' = persistence.db s
  ∧ persistence.foreign_keys s' = persistence.foreign_keys s.
Proof. intros H Hm. apply (Hm _ _ _ H). Qed.

(** A successful save ran between a [Begin] on a store without open
    transaction and a [Commit]. *)
Lemma SaveGraph_Ok_closed range_functions range_calls F graph s s' :
  persistence.SaveGraph range_functions range_calls F graph s = (s', Ok tt) →
  persistence.tx s = None
  ∧ persistence.tx s' = None
  ∧ persistence.foreign_keys s' = persistence.foreign_keys s.
Proof.
  rewrite SaveGraph_unfold. intros (s0 & [] & HBegin & H)%bind_Ok.
  unfold persistence.Begin in HBegin.
  destruct (F persistence.StBegin); [done|].
  destruct (persistence.tx s) eqn:Htx; [done|]. injection HBegin as <-.
  split; [done|].
  apply bind_Ok in H as (s1 & [] & H1 & H).
  apply tx_step_Ok in H1 as [Hdb1 Hfk1]; [|apply tx_step_Exec].
  apply bind_Ok in H as (s2 & [] & H2 & H).
  apply tx_step_Ok in H2 as [Hdb2 Hfk2]; [|apply tx_step_Exec].
  apply bind_Ok in H as (s3 & [] & H3 & H).
  apply tx_step_Ok in H3 as [Hdb3 Hfk3]; [|apply tx_step_Exec].
  apply bind_Ok in H as (s4 & [] & H4 & H).
  apply tx_step_Ok in H4 as [Hdb4 Hfk4]; [|apply tx_step_Exec].
  apply bind_Ok in H as (s5 & [] & H5 & H).
  apply tx_step_Ok in H5 as [Hdb5 Hfk5];
    [|apply tx_step_forM_; intros; apply tx_step_Exec].
  apply bind_Ok in H as (s6 & [] & H6 & H).
  apply tx_step_Ok in H6 as [Hdb6 Hfk6];
    [|apply tx_step_forM_; intros; apply tx_step_forM_; intros;
      apply tx_step_Exec].
  unfold persistence.Commit in H. destruct (F persistence.StCommit); [done|].
  destruct (persistence.tx s6); [|done]. injection H as <-. simpl.
  split; [done|]. simpl in Hfk1. congruence.
Qed.

(** A save never leaves a transaction open and never changes whether
    foreign keys are enforced, whether it commits or fails, and whatever
    fails. *)
Theorem SaveGraph_closes_transaction
    (range_functions range_calls :
       gmap string callgraph.FunctionNode → list (string * callgraph.FunctionNode))
    (F : persistence.faults) (graph : gmap string callgraph.FunctionNode)
    (s : persistence.Store) :
  persistence.tx s = None →
  let s' := (persistence.SaveGraph range_functions range_calls F graph s).1 in
  persistence.tx s' = None
  ∧ persistence.foreign_keys s' = persistence.foreign_keys s.
Proof.
  intros Htx s'. unfold s'.
  destruct (persistence.SaveGraph range_functions range_calls F graph s)
    as [s1 [[]|e]] eqn:Hsave; simpl.
  - by apply SaveGraph_Ok_closed in Hsave as (_ & ? & ?).
  - by apply SaveGraph_Err in Hsave as ->.
Qed.

Lemma SaveGraph_closes_transaction_witness :
  let s' := (persistence.SaveGraph map_to_list map_to_list sample_faults
               sample_graph sample_store).1 in
  persistence.tx s' = None
  ∧ persistence.foreign_keys s' = persistence.foreign_keys sample_store.
Proof.
  apply (SaveGraph_closes_transaction map_to_list map_to_list sample_faults
           sample_graph sample_store).
  reflexivity.
Defined.

(** A save replaces the content of the store: what it commits is the rows
    of the graph, whatever the store held before and in whatever order the
    graph is enumerated; saving the same graph again changes nothing. *)
Theorem SaveGraph_replaces_content
    (range_functions range_calls range_functions' range_calls' :
       gmap string callgraph.FunctionNode → list (string * callgraph.FunctionNode))
    (graph : gmap string callgraph.FunctionNode)
    (s1 s2 : persistence.Store) :
  (∀ g, range_functions g ≡ₚ map_to_list g) →
  (∀ g, range_calls g ≡ₚ map_to_list g) →
  (∀ g, range_functions' g ≡ₚ map_to_list g) →
  (∀ g, range_calls' g ≡ₚ map_to_list g) →
  persistence.tx s1 = None →
  persistence.tx s2 = None →
  closed_world graph →
  let save := persistence.SaveGraph range_functions range_calls
                persistence.no_faults graph in
  let save' := persistence.SaveGraph range_functions' range_calls'
                 persistence.no_faults graph in
  persistence.db (save s1).1 = persistence.db (save' s2).1
  ∧ save' (save s1).1 = ((save s1).1, Ok tt)
  ∧ (∀ name,
       persistence.functions (persistence.db (save s1).1) !! name
       = (λ node, (callgraph.Signature node, callgraph.Definition_ node))
         <$> graph !! name)
  ∧ (∀ caller callee,
       (caller, callee) ∈ persistence.calls (persistence.db (save s1).1)
       ↔ ∃ node, graph !! caller = Some node
           ∧ callee ∈ elems (callgraph.Callees node)).
Proof.
  intros Hrf Hrc Hrf' Hrc' Htx1 Htx2 Hclosed save save'. unfold save, save'.
  rewrite !SaveGraph_no_faults by done. simpl.
  split; [done|]. split; [done|]. split.
  - intros name. unfold function_rows. by rewrite lookup_fmap.
  - intros caller callee. apply call_rows_elem.
Qed.

Lemma SaveGraph_replaces_content_witness :
  persistence.db
    (persistence.SaveGraph map_to_list map_to_list persistence.no_faults
       sample_graph sample_store).1
  = persistence.db
      (persistence.SaveGraph map_to_list map_to_list persistence.no_faults
         sample_graph
         {| persistence.db := {| persistence.functions := ∅;
                                 persistence.calls := ∅ |};
            persistence.tx := None;
            persistence.foreign_keys := false |}).1.
Proof.
  apply (SaveGraph_replaces_content map_to_list map_to_list map_to_list
           map_to_list sample_graph sample_store).
  - intros g. reflexivity.
  - intros g. reflexivity.
  - intros g. reflexivity.
  - intros g. reflexivity.
  - reflexivity.
  - reflexivity.
  - by_evaluation.
Defined.

(** ** persistence: foreign keys *)

Lemma insert_functions_Ok F l s s' d :
  persistence.forM_ l (λ e : string * callgraph.FunctionNode,
    persistence.orRollback (wrapError ("insert function " +:+ e.1))
      (persistence.Exec F (persistence.StInsertFn e.1)
         (persistence.insert_function e.1
            (callgraph.Signature e.2) (callgraph.Definition_ e.2)))) s
  = (s', Ok tt) →
  persistence.tx s = Some d →
  ∃ d', persistence.tx s' = Some d'
    ∧ persistence.foreign_keys s' = persistence.foreign_keys s
    ∧ persistence.calls d' = persistence.calls d
    ∧ dom (persistence.functions d')
      = dom (persistence.functions d) ∪ list_to_set l.*1.
Proof.
  revert s d. induction l as [|[name node] l IH]; intros s d.
  { intros [= <-] Htx. exists d. split; [done|]. split; [done|].
    split; [done|]. set_solver. }
  rewrite forM__cons.
  intros (s1 & [] & (_ & d0 & d1 & Htx0 & Hstmt & ->)%Exec_Ok & Hl)%bind_Ok Htx.
  assert (d0 = d) as -> by congruence.
  unfold persistence.insert_function in Hstmt. simpl in Hstmt.
  destruct (persistence.known d name); [done|]. injection Hstmt as <-.
  destruct (IH _ _ Hl eq_refl) as (d' & Htx' & Hfk & Hcalls & Hdom).
  exists d'. split; [done|]. split; [done|]. split; [done|].
  rewrite Hdom. simpl. rewrite dom_insert_L. set_solver.
Qed.

Lemma insert_callees_Ok F caller callees s s' d :
  persistence.forM_ callees (λ callee,
    persistence.orRollback
      (wrapError ("insert call " +:+ caller +:+ "→" +:+ callee))
      (persistence.Exec F (persistence.StInsertCall caller callee)
         (persistence.insert_call caller callee))) s
  = (s', Ok tt) →
  persistence.tx s = Some d →
  persistence.foreign_keys s = true →
  references_known d →
  ∃ d', persistence.tx s' = Some d'
    ∧ persistence.foreign_keys s' = true
    ∧ persistence.functions d' = persistence.functions d
    ∧ references_known d'
    ∧ Forall (λ c, c ∈ dom (persistence.functions d)) callees.
Proof.
  revert s d. induction callees as [|c callees IH]; intros s d.
  { intros [= <-] Htx Hfk Hrefs. by exists d. }
  rewrite forM__cons.
  intros (s1 & [] & (_ & d0 & d1 & Htx0 & Hstmt & ->)%Exec_Ok & Hl)%bind_Ok
    Htx Hfk Hrefs.
  assert (d0 = d) as -> by congruence.
  unfold persistence.insert_call in Hstmt. rewrite Hfk in Hstmt.
  assert (persistence.functions d1 = persistence.functions d
          ∧ references_known d1
          ∧ c ∈ dom (persistence.functions d)) as (Hfun & Hrefs1 & Hc).
  { case_bool_decide as Hin.
    - injection Hstmt as <-. split; [done|]. split; [done|].
      by apply (Hrefs caller c).
    - destruct (persistence.known d caller) eqn:Hcaller; [|done].
      destruct (persistence.known d c) eqn:Hcallee; [|done].
      apply known_true in Hcaller, Hcallee.
      injection Hstmt as <-. split; [done|]. split; [|done].
      intros caller' callee'. simpl.
      rewrite elem_of_union, elem_of_singleton.
      intros [[= -> ->]|Hin']; [done|]. by apply Hrefs. }
  destruct (IH _ _ Hl eq_refl Hfk Hrefs1) as (d' & Htx' & Hfk' & Hfun' & Hrefs' & Hall).
  exists d'. split; [done|]. split; [done|]. split; [congruence|].
  split; [done|]. constructor; [done|]. by rewrite <-Hfun.
Qed.

Lemma insert_calls_Ok F (l : list (string * callgraph.FunctionNode)) s s' d :
  persistence.forM_ l (λ e,
    persistence.forM_ (elems (callgraph.Callees e.2)) (λ callee,
      persistence.orRollback
        (wrapError ("insert call " +:+ e.1 +:+ "→" +:+ callee))
        (persistence.Exec F (persistence.StInsertCall e.1 callee)
           (persistence.insert_call e.1 callee)))) s
  = (s', Ok tt) →
  persistence.tx s = Some d →
  persistence.foreign_keys s = true →
  references_known d →
  Forall (λ e, Forall (λ c, c ∈ dom (persistence.functions d))
                 (elems (callgraph.Callees e.2))) l.
Proof.
  revert s d. induction l as [|[caller node] l IH]; intros s d; [done|].
  rewrite forM__cons. intros (s1 & [] & Hcallees & Hl)%bind_Ok Htx Hfk Hrefs.
  destruct (insert_callees_Ok _ _ _ _ _ _ Hcallees Htx Hfk Hrefs)
    as (d' & Htx' & Hfk' & Hfun & Hrefs' & Hall).
  constructor; [done|]. rewrite <-Hfun. by eapply IH.
Qed.

Lemma SaveGraph_Ok_closed_world range_functions range_calls F graph s s' :
  (∀ g, range_functions g ≡ₚ map_to_list g) →
  (∀ g, range_calls g ≡ₚ map_to_list g) →
  persistence.foreign_keys s = true →
  persistence.SaveGraph range_functions range_calls F graph s = (s', Ok tt) →
  closed_world graph.
Proof.
  intros Hrf Hrc Hfk Hsave.
  rewrite SaveGraph_unfold in Hsave.
  apply bind_Ok in Hsave as (s0 & [] & HBegin & H).
  unfold persistence.Begin in HBegin.
  destruct (F persistence.StBegin); [done|].
  destruct (persistence.tx s); [done|]. injection HBegin as <-.
  apply bind_Ok in H as (s1 & [] & (_ & d0 & d1 & [= <-] & [= <-] & ->)%Exec_Ok & H).
  apply bind_Ok in H as (s2 & [] & (_ & d1 & d2 & [= <-] & Hd2 & ->)%Exec_Ok & H).
  simpl in Hd2. rewrite delete_functions_empty in Hd2. injection Hd2 as <-.
  apply bind_Ok in H as (s3 & [] & (_ & d2 & d3 & [= <-] & [= <-] & ->)%Exec_Ok & H).
  apply bind_Ok in H as (s4 & [] & (_ & d3 & d4 & [= <-] & [= <-] & ->)%Exec_Ok & H).
  apply bind_Ok in H as (s5 & [] & H5 & H).
  apply bind_Ok in H as (s6 & [] & H6 & _).
  eapply insert_functions_Ok in H5 as (d5 & Htx5 & Hfk5 & Hcalls5 & Hdom5);
    [|reflexivity].
  simpl in Hfk5, Hcalls5, Hdom5.
  eapply insert_calls_Ok in H6; [|exact Htx5|congruence|].
  2:{ intros caller callee. rewrite Hcalls5. set_solver. }
  assert (dom (persistence.functions d5) = dom graph) as Hdom.
  { rewrite Hdom5, dom_empty_L, (left_id_L ∅ (∪)). apply set_eq. intros k.
    rewrite elem_of_list_to_set, Hrf, list_elem_of_fmap, elem_of_dom. split.
    - intros ([k' node] & -> & Hin%elem_of_map_to_list). eauto.
    - intros [node Hnode]. exists (k, node). split; [done|].
      by apply elem_of_map_to_list. }
  intros caller node Hnode. rewrite Forall_forall in H6.
  eapply Forall_impl.
  - apply (H6 (caller, node)). rewrite Hrc. by apply elem_of_map_to_list.
  - intros c Hc. simpl in Hc. by rewrite <-Hdom.
Qed.

(** With foreign keys enforced, a save that returns no error was given a
    closed-world graph; a graph with an edge to a name that is not a key is
    refused, and the store keeps what it held. *)
Theorem SaveGraph_enforces_closed_world
    (range_functions range_calls :
       gmap string callgraph.FunctionNode → list (string * callgraph.FunctionNode))
    (F : persistence.faults) (graph : gmap string callgraph.FunctionNode)
    (s : persistence.Store) :
  (∀ g, range_functions g ≡ₚ map_to_list g) →
  (∀ g, range_calls g ≡ₚ map_to_list g) →
  persistence.foreign_keys s = true →
  let saved := persistence.SaveGraph range_functions range_calls F graph s in
  (saved.2 = Ok tt → closed_world graph)
  ∧ (¬ closed_world graph → ∃ e, saved = (s, Err e)).
Proof.
  intros Hrf Hrc Hfk saved.
  assert (saved.2 = Ok tt → closed_world graph) as Hclosed.
  { unfold saved. destruct (persistence.SaveGraph _ _ F graph s)
      as [s' r] eqn:Hsave. simpl. intros ->.
    exact (SaveGraph_Ok_closed_world _ _ _ _ _ _ Hrf Hrc Hfk Hsave). }
  split; [done|]. intros Hopen. unfold saved in *.
  destruct (persistence.SaveGraph _ _ F graph s) as [s' [[]|e]] eqn:Hsave.
  - exfalso. by apply Hopen, Hclosed.
  - exists e. by apply SaveGraph_Err in Hsave as ->.
Qed.

Lemma SaveGraph_enforces_closed_world_witness :
  ∃ e, persistence.SaveGraph map_to_list map_to_list persistence.no_faults
         open_graph sample_store = (sample_store, Err e).
Proof.
  apply (SaveGraph_enforces_closed_world map_to_list map_to_list
           persistence.no_faults open_graph sample_store).
  - intros g. reflexivity.
  - intros g. reflexivity.
  - reflexivity.
  - by_evaluation.
Defined.

(** The refused save, evaluated. *)
Example sample_refused_save :
  persistence.SaveGraph map_to_list map_to_list persistence.no_faults
    open_graph sample_store
  = (sample_store,
     Err (wrapError "insert call A→X"
            (errorString "FOREIGN KEY constraint failed"))).
Proof. vm_compute. reflexivity. Qed.

(** ** persistence: what a load returns *)

Lemma add_edge_fold_not_nil rows g :
  map_Forall (λ _ node, is_nil (callgraph.Callees node) = false) g →
  map_Forall (λ _ node, is_nil (callgraph.Callees node) = false)
    (foldl add_edge g rows).
Proof.
  revert g. induction rows as [|row rows IH]; intros g Hg; [done|].
  simpl. apply IH. unfold add_edge. destruct (g !! row.1); [|done].
  by apply map_Forall_insert_2.
Qed.

Lemma loaded_not_nil rows_functions rows_calls :
  map_Forall (λ _ node, is_nil (callgraph.Callees node) = false)
    (foldl add_edge (foldl add_function ∅ rows_functions) rows_calls).
Proof.
  apply add_edge_fold_not_nil.
  eapply map_Forall_impl;
    [apply (add_function_fold_empty _ ∅), map_Forall_empty|].
  by intros ? ? ->.
Qed.

(** On any store, a load that meets no error returns one node per function
    row, with the signature and definition of the row and a non-nil callee
    list; a callee is in the list of a node exactly when [calls] has the
    row, once.  An edge row whose caller has no function row is dropped. *)
Theorem LoadGraph_content
    (rows_functions :
       gmap string (string * string) → list (string * (string * string)))
    (rows_calls : gset (string * string) → list (string * string))
    (s : persistence.Store) :
  (∀ m, rows_functions m ≡ₚ map_to_list m) →
  (∀ c, rows_calls c ≡ₚ elements c) →
  ∃ graph,
    persistence.LoadGraph rows_functions rows_calls persistence.no_faults s
    = Ok graph
    ∧ dom graph = dom (persistence.functions (persistence.db s))
    ∧ map_Forall (λ name row,
        ∃ node, graph !! name = Some node
          ∧ callgraph.Signature node = row.1
          ∧ callgraph.Definition_ node = row.2
          ∧ is_nil (callgraph.Callees node) = false
          ∧ NoDup (elems (callgraph.Callees node))
          ∧ ∀ callee, callee ∈ elems (callgraph.Callees node)
                      ↔ (name, callee) ∈ persistence.calls (persistence.db s))
        (persistence.functions (persistence.db s)).
Proof.
  intros Hfunctions Hcalls. eexists. split; [apply LoadGraph_no_faults|].
  set (fm := persistence.functions (persistence.db s)).
  set (cs := persistence.calls (persistence.db s)).
  assert (NoDup (rows_functions fm).*1) as Hnd.
  { rewrite Hfunctions. apply NoDup_fst_map_to_list. }
  assert (∀ k, foldl add_function ∅ (rows_functions fm) !! k
               = (λ row, {| callgraph.Callees := make_slice [];
                            callgraph.Signature := row.1;
                            callgraph.Definition_ := row.2 |}) <$> fm !! k) as H0.
  { intros k. rewrite add_function_fold by done.
    rewrite (list_to_map_proper _ _ Hnd (Hfunctions fm)), list_to_map_to_list.
    rewrite lookup_empty. by destruct (fm !! k). }
  assert (NoDup (rows_calls cs)) as Hndc.
  { rewrite Hcalls. apply NoDup_elements. }
  split.
  - apply set_eq. intros k. rewrite !elem_of_dom.
    specialize (H0 k). destruct (fm !! k) as [row|] eqn:Hk; simpl in H0.
    + destruct (add_edge_fold_Some (rows_calls cs) _ _ _ H0) as (node' & -> & _).
      split; eauto.
    + by rewrite (add_edge_fold_None (rows_calls cs) _ _ H0).
  - intros k row Hk. specialize (H0 k). rewrite Hk in H0. simpl in H0.
    destruct (add_edge_fold_Some (rows_calls cs) _ _ _ H0)
      as (node' & Hnode' & Hsig & Hdef & Hcallees).
    exists node'. split; [done|]. split; [done|]. split; [done|].
    simpl in Hcallees. split; [|split].
    + by apply (loaded_not_nil (rows_functions fm) (rows_calls cs) k).
    + rewrite Hcallees. by apply rows_of_caller_NoDup.
    + intros callee.
      by rewrite Hcallees, rows_of_caller_elem, Hcalls, elem_of_elements.
Qed.

Lemma LoadGraph_content_witness :
  ∃ graph,
    persistence.LoadGraph map_to_list elements persistence.no_faults orphan_store
    = Ok graph
    ∧ dom graph = dom (persistence.functions (persistence.db orphan_store)).
Proof.
  destruct (LoadGraph_content map_to_list elements orphan_store)
    as (graph & Hload & Hdom & _).
  - intros m. reflexivity.
  - intros c. reflexivity.
  - exists graph. split; [exact Hload|exact Hdom].
Defined.

(** The store with the orphan edge, loaded. *)
Example sample_orphan_load :
  persistence.LoadGraph map_to_list elements persistence.no_faults orphan_store
  = Ok (<["A" := sample_node "A" ["B"]]> (<["B" := sample_node "B" []]> ∅)).
Proof. vm_compute. reflexivity. Qed.

Lemma load_functions_is_Ok F rows g :
  is_Ok (persistence.load_functions F rows g)
  ↔ Forall (λ row, F (persistence.StScanFunction row.1) = None) rows.
Proof.
  revert g. induction rows as [|[name [sig def]] rows IH]; intros g; simpl.
  { split; [constructor|done]. }
  rewrite Forall_cons. simpl. destruct (F _).
  - split; [done|]. by intros [? _].
  - rewrite IH. tauto.
Qed.

Lemma load_calls_is_Ok F rows g :
  is_Ok (persistence.load_calls F rows g)
  ↔ Forall (λ row, F (persistence.StScanCall row.1 row.2) = None) rows.
Proof.
  revert g. induction rows as [|[caller callee] rows IH]; intros g; simpl.
  { split; [constructor|done]. }
  rewrite Forall_cons. simpl. destruct (F _).
  - split; [done|]. by intros [? _].
  - rewrite IH. tauto.
Qed.

(** A load is all or nothing: it returns a graph exactly when neither
    query, no scan of a stored row and neither end-of-rows check reports an
    error; one failing scan makes the whole load fail. *)
Theorem LoadGraph_all_or_nothing
    (rows_functions :
       gmap string (string * string) → list (string * (string * string)))
    (rows_calls : gset (string * string) → list (string * string))
    (F : persistence.faults) (s : persistence.Store) :
  (∀ m, rows_functions m ≡ₚ map_to_list m) →
  (∀ c, rows_calls c ≡ₚ elements c) →
  is_Ok (persistence.LoadGraph rows_functions rows_calls F s)
  ↔ ∀ st, load_step s st → F st = None.
Proof.
  intros Hfunctions Hcalls.
  set (fm := persistence.functions (persistence.db s)).
  set (cs := persistence.calls (persistence.db s)).
  assert (Forall (λ row, F (persistence.StScanFunction row.1) = None)
            (rows_functions fm)
          ↔ ∀ name, name ∈ dom fm → F (persistence.StScanFunction name) = None)
    as Hscan1.
  { rewrite Forall_forall. setoid_rewrite Hfunctions. split.
    - intros H name [row Hrow]%elem_of_dom.
      apply (H (name, row)). by apply elem_of_map_to_list.
    - intros H [name row] Hin%elem_of_map_to_list. apply H.
      by apply elem_of_dom_2 in Hin. }
  assert (Forall (λ row, F (persistence.StScanCall row.1 row.2) = None)
            (rows_calls cs)
          ↔ ∀ caller callee, (caller, callee) ∈ cs →
              F (persistence.StScanCall caller callee) = None) as Hscan2.
  { rewrite Forall_forall. setoid_rewrite Hcalls.
    setoid_rewrite elem_of_elements. split.
    - intros H caller callee Hin. by apply (H (caller, callee)).
    - intros H [caller callee] Hin. by apply H. }
  unfold persistence.LoadGraph, persistence.check. split.
  - destruct (F persistence.StQueryFunctions) eqn:E1; [done|]. simpl.
    destruct (persistence.load_functions _ _ _) as [g0|] eqn:H0; [|done].
    simpl. destruct (F persistence.StFunctionsErr) eqn:E2; [done|]. simpl.
    destruct (F persistence.StQueryCalls) eqn:E3; [done|]. simpl.
    destruct (persistence.load_calls _ _ _) as [g1|] eqn:H1; [|done].
    simpl. destruct (F persistence.StCallsErr) eqn:E4; [done|]. intros _.
    assert (is_Ok (persistence.load_functions F (rows_functions fm) ∅)) as Hok0
      by (unfold fm; by rewrite H0).
    assert (is_Ok (persistence.load_calls F (rows_calls cs) g0)) as Hok1
      by (unfold cs; by rewrite H1).
    apply load_functions_is_Ok in Hok0. apply load_calls_is_Ok in Hok1.
    intros []; simpl; try done.
    + apply (proj1 Hscan1 Hok0).
    + apply (proj1 Hscan2 Hok1).
  - intros HF.
    rewrite (HF persistence.StQueryFunctions I). simpl.
    destruct (persistence.load_functions _ _ _) as [g0|] eqn:H0; simpl.
    + rewrite (HF persistence.StFunctionsErr I). simpl.
      rewrite (HF persistence.StQueryCalls I). simpl.
      destruct (persistence.load_calls _ _ _) as [g1|] eqn:H1; simpl.
      * by rewrite (HF persistence.StCallsErr I).
      * assert (is_Ok (persistence.load_calls F (rows_calls cs) g0)) as Hok.
        { apply load_calls_is_Ok, Hscan2. intros caller callee Hin.
          by apply (HF (persistence.StScanCall caller callee)). }
        unfold cs in Hok. by rewrite H1 in Hok.
    + assert (is_Ok (persistence.load_functions F (rows_functions fm) ∅)) as Hok.
      { apply load_functions_is_Ok, Hscan1. intros name Hin.
        by apply (HF (persistence.StScanFunction name)). }
      unfold fm in Hok. by rewrite H0 in Hok.
Qed.

Lemma LoadGraph_all_or_nothing_witness :
  is_Ok (persistence.LoadGraph map_to_list elements scan_faults orphan_store)
  ↔ ∀ st, load_step orphan_store st → scan_faults st = None.
Proof.
  apply (LoadGraph_all_or_nothing map_to_list elements scan_faults orphan_store).
  - intros m. reflexivity.
  - intros c. reflexivity.
Defined.

(** The load with the failing scan of [B], evaluated. *)
Example sample_failed_load :
  persistence.LoadGraph map_to_list elements scan_faults orphan_store
  = Err (errorString "sql: Scan error").
Proof. vm_compute. reflexivity. Qed.

(** ** callgraph: the order in which maps are enumerated *)

(** The graph the precision pipeline returns does not depend on the order
    in which [range details] enumerates the detail map. *)
Theorem BuildCallGraph_order_independent
    (Fprint_type : ast.Node → string) (Fprint_decl : ast.FuncDecl → string)
    (range_details range_details' :
       gmap string callgraph.funcDetail → list (string * callgraph.funcDetail))
    (client : callgraph.Client) (walk : list WalkEntry) :
  (∀ m, range_details m ≡ₚ map_to_list m) →
  (∀ m, range_details' m ≡ₚ map_to_list m) →
  callgraph.BuildCallGraph Fprint_type Fprint_decl range_details client walk
  = callgraph.BuildCallGraph Fprint_type Fprint_decl range_details' client walk.
Proof.
  intros Hr Hr'. unfold callgraph.BuildCallGraph.
  destruct (callgraph.parseGoFiles walk) as [names files].
  destruct (callgraph.New client); [done|].
  destruct (callgraph.openAll client files); [done|].
  unfold callgraph.extractGraphLSP. f_equal. apply map_eq. intros k.
  by rewrite !assemble_lookup.
Qed.

Lemma BuildCallGraph_order_independent_witness :
  callgraph.BuildCallGraph sample_Fprint_type sample_Fprint_decl map_to_list
    sample_client sample_walk
  = callgraph.BuildCallGraph sample_Fprint_type sample_Fprint_decl
      (λ m, reverse (map_to_list m)) sample_client sample_walk.
Proof.
  apply (BuildCallGraph_order_independent sample_Fprint_type sample_Fprint_decl
           map_to_list (λ m, reverse (map_to_list m)) sample_client sample_walk).
  - intros m. reflexivity.
  - intros m. apply reverse_Permutation.
Defined.

Lemma edges_of_Permutation edges edges' k ds :
  (∀ fn, edges fn ≡ₚ edges' fn) →
  edges_of edges k ds ≡ₚ edges_of edges' k ds.
Proof.
  intros Hedges. induction ds as [|[fn|] ds IH]; [done| |done].
  rewrite !edges_of_cons. destruct (decide _); [|done].
  by rewrite IH, Hedges.
Qed.

(** In the lexical pipeline the two enumeration orders bear on the order
    of the callees and on nothing else: under any two choices the graphs
    have the same keys, and under each key the same signature and
    definition and callee lists that are permutations of each other. *)
Theorem buildCallGraph_order_independent
    (Fprint_type : ast.Node → string) (Fprint_decl : ast.FuncDecl → string)
    (range_details range_details' :
       gmap string callgraph.funcDetail → list (string * callgraph.funcDetail))
    (range_calleeSet range_calleeSet' : gset string → list string)
    (walk : list WalkEntry) (g : gmap string callgraph.FunctionNode) :
  (∀ m, range_details m ≡ₚ map_to_list m) →
  (∀ m, range_details' m ≡ₚ map_to_list m) →
  (∀ s, range_calleeSet s ≡ₚ elements s) →
  (∀ s, range_calleeSet' s ≡ₚ elements s) →
  oldcode2.buildCallGraph Fprint_type Fprint_decl range_details
    range_calleeSet walk = Ok g →
  ∃ g',
    oldcode2.buildCallGraph Fprint_type Fprint_decl range_details'
      range_calleeSet' walk = Ok g'
    ∧ dom g' = dom g
    ∧ map_Forall (λ name node,
        ∃ node', g' !! name = Some node'
          ∧ callgraph.Signature node' = callgraph.Signature node
          ∧ callgraph.Definition_ node' = callgraph.Definition_ node
          ∧ is_nil (callgraph.Callees node') = is_nil (callgraph.Callees node)
          ∧ elems (callgraph.Callees node') ≡ₚ elems (callgraph.Callees node)) g.
Proof.
  intros Hr Hr' Hs Hs' Hg.
  assert (∃ g', oldcode2.buildCallGraph Fprint_type Fprint_decl range_details'
                  range_calleeSet' walk = Ok g') as [g' Hg'].
  { revert Hg. unfold oldcode2.buildCallGraph.
    destruct (oldcode2.parseGoFiles walk) as [[names files] [err|]]; [done|].
    eauto. }
  exists g'. split; [done|].
  apply buildCallGraph_Ok in Hg as ->. apply buildCallGraph_Ok in Hg' as ->.
  split.
  - by rewrite !assembled_dom.
  - intros name node.
    rewrite (assembled_lookup _ _ _ Hr), (assembled_lookup _ _ _ Hr').
    cbv zeta. destruct (foldl _ ∅ _ !! name) as [det|]; [|done].
    intros [= <-]. eexists. split; [done|]. split; [done|]. split; [done|].
    split; [by rewrite !node_of_not_nil|]. rewrite !node_of_elems.
    erewrite !edge_fold_elems;
      [|apply lexical_graph_decl|done|apply lexical_graph_decl|done].
    apply Permutation_app; [done|]. apply edges_of_Permutation.
    intros fn. rewrite !lexical_edges_body. destruct (ast.Body fn); [|done].
    unfold oldcode2.calleesOf. by rewrite Hs, Hs'.
Qed.

Lemma buildCallGraph_order_independent_witness :
  ∃ g',
    oldcode2.buildCallGraph sample_Fprint_type sample_Fprint_decl
      (λ m, reverse (map_to_list m)) (λ s, reverse (elements s)) collide_walk
    = Ok g'
    ∧ dom g' = dom collide_graph.
Proof.
  destruct (buildCallGraph_order_independent sample_Fprint_type
              sample_Fprint_decl map_to_list (λ m, reverse (map_to_list m))
              elements (λ s, reverse (elements s)) collide_walk collide_graph)
    as (g' & Hg' & Hdom & _).
  - intros m. reflexivity.
  - intros m. apply reverse_Permutation.
  - intros s. reflexivity.
  - intros s. apply reverse_Permutation.
  - vm_compute. reflexivity.
  - exists g'. split; [exact Hg'|exact Hdom].
Defined.

(** ** callgraph: the edge maps *)


Section edge_entries.

Variable step : gmap string (slice string) → ast.Decl → gmap string (slice string).
Variable edges : ast.FuncDecl → list string.
Hypothesis step_func : ∀ g fn,
  step g (ast.FuncDeclOf fn) = oldcode2.appendAll (ast.Name fn) g (edges fn).
Hypothesis step_gen : ∀ g, step g ast.GenDecl = g.


End edge_entries.



Lemma new_callees_elem names seen outgoing c :
  c ∈ new_callees names seen outgoing
  ↔ (c ∈ names ∧ (c ∉ seen)
     ∧ c ∈ (λ call, protocol.Name (protocol.To call)) <$> outgoing).
Proof.
  revert seen. induction outgoing as [|call outgoing IH]; intros seen.
  { simpl. rewrite !elem_of_nil. tauto. }
  rewrite fmap_cons, (elem_of_cons (fmap _ outgoing)). cbn [new_callees].
  destruct (decide (protocol.Name (protocol.To call) ∈ names)) as [Hknown|Hunknown].
  - destruct (decide (protocol.Name (protocol.To call) ∈ seen)) as [Hseen|Hfresh].
    + rewrite IH. split; [tauto|]. intros (? & ? & [->|?]); tauto.
    + rewrite elem_of_cons, IH. split.
      * intros [->|(? & ? & ?)]; [tauto|]. set_solver.
      * intros (? & ? & [->|?]); [by left|].
        destruct (decide (c = protocol.Name (protocol.To call))); [by left|].
        right. set_solver.
  - rewrite IH. split; [tauto|]. intros (? & ? & [->|?]); tauto.
Qed.

(** In precision mode the edges of one declaration are the known names
    among the callees that the outgoing-calls answer for the first prepared
    item lists, each once; a declaration without body, or whose queries
    yield nothing, has no edge. *)
Theorem lsp_edges_spec
    (client : callgraph.Client) (names : gset string) (fn : ast.FuncDecl)
    (callee : string) :
  NoDup (lsp_edges client names fn)
  ∧ (callee ∈ lsp_edges client names fn
     ↔ callee ∈ names
       ∧ ast.Body fn ≠ None
       ∧ ∃ root rest outgoing,
           prepare client fn = Ok (root :: rest)
           ∧ callgraph.OutgoingCalls client root = Ok outgoing
           ∧ callee ∈ (λ call, protocol.Name (protocol.To call)) <$> outgoing).
Proof.
  rewrite lsp_edges_callees. unfold lsp_callees.
  destruct (ast.Body fn) as [body|].
  2:{ split; [constructor|]. rewrite elem_of_nil. tauto. }
  destruct (prepare client fn) as [[|root items]|err].
  - split; [constructor|]. rewrite elem_of_nil.
    split; [done|]. by intros (_ & _ & ? & ? & ? & ? & _).
  - destruct (callgraph.OutgoingCalls client root) as [outgoing|err] eqn:Hout.
    + split; [apply new_callees_fresh|]. rewrite new_callees_elem. split.
      * intros (? & _ & ?). split; [done|]. split; [done|].
        by exists root, items, outgoing.
      * intros (? & _ & root' & rest & outgoing' & [= <- <-] & Hout' & ?).
        rewrite Hout in Hout'. injection Hout' as <-.
        split; [done|]. split; [set_solver|done].
    + split; [constructor|]. rewrite elem_of_nil. split; [done|].
      intros (_ & _ & root' & rest & outgoing' & [= <- <-] & Hout' & _).
      by rewrite Hout in Hout'.
  - split; [constructor|]. rewrite elem_of_nil.
    split; [done|]. by intros (_ & _ & ? & ? & ? & ? & _).
Qed.

(** The edges of [A] in the sample session: [B] once, though the answer
    lists it twice, and not the undeclared [X]. *)
Example sample_lsp_edges :
  lsp_edges sample_client sample_names sample_A = ["B"].
Proof. vm_compute. reflexivity. Qed.

(** ** callgraph: the nodes of the graph *)

Section any_mode_nodes.

Variable Fprint_type : ast.Node → string.
Variable Fprint_decl : ast.FuncDecl → string.
Variable range_details :
  gmap string callgraph.funcDetail → list (string * callgraph.funcDetail).
Hypothesis range_details_enum : ∀ m, range_details m ≡ₚ map_to_list m.
Variable step :
  gset string → gmap string (slice string) → ast.Decl → gmap string (slice string).
Variable edges : gset string → ast.FuncDecl → list string.
Hypothesis step_func : ∀ names g fn,
  step names g (ast.FuncDeclOf fn)
  = oldcode2.appendAll (ast.Name fn) g (edges names fn).
Hypothesis step_gen : ∀ names g, step names g ast.GenDecl = g.

Lemma assembled_nodes walk :
  let g := assembled_with Fprint_type Fprint_decl range_details step walk in
  let ds := allDecls (parsed walk) in
  let names := (callgraph.parseGoFiles walk).1 in
  (∀ name, name ∈ dom g ↔ ∃ fn, ast.FuncDeclOf fn ∈ ds ∧ ast.Name fn = name)
  ∧ (∀ ds1 fn ds2,
       ds = ds1 ++ ast.FuncDeclOf fn :: ds2 →
       Forall (not_named (ast.Name fn)) ds2 →
       ∃ node, g !! ast.Name fn = Some node
         ∧ callgraph.Signature node = Fprint_type (ast.Type_ fn)
         ∧ callgraph.Definition_ node = Fprint_decl fn
         ∧ is_nil (callgraph.Callees node) = false
         ∧ elems (callgraph.Callees node)
           = edges_of (edges names) (ast.Name fn) ds).
Proof using range_details_enum step_func step_gen.
  intros g ds names. split.
  - intros name. unfold g. rewrite assembled_dom by done.
    rewrite declNames_elem, elem_of_empty. fold ds. tauto.
  - intros ds1 fn ds2 Hds Hlast.
    assert (foldl (callgraph.detail_decl Fprint_type Fprint_decl) ∅ ds
              !! ast.Name fn
            = Some {| callgraph.detSignature := Fprint_type (ast.Type_ fn);
                      callgraph.detDefinition := Fprint_decl fn |}) as Hdet.
    { rewrite Hds. by apply detail_decl_last. }
    unfold g. rewrite assembled_lookup by done. cbv zeta. fold ds.
    rewrite Hdet. simpl.
    eexists. split; [done|]. split; [done|]. split; [done|].
    split; [apply node_of_not_nil|]. rewrite node_of_elems.
    erewrite edge_fold_elems; [|apply step_func|apply step_gen].
    unfold index at 1. rewrite lookup_empty. simpl.
    unfold names. by rewrite parseGoFiles_spec.
Qed.

End any_mode_nodes.

(** Whatever the number of declarations that share a name, each pipeline
    returns for every declared name, and for no other name, one node: it
    has the signature and definition of the last declaration of the name
    and, as callees, the edges of all the declarations of the name in the
    order they are processed. *)
Theorem pipeline_nodes
    (Fprint_type : ast.Node → string) (Fprint_decl : ast.FuncDecl → string)
    (range_details :
       gmap string callgraph.funcDetail → list (string * callgraph.funcDetail))
    (range_calleeSet : gset string → list string)
    (client : callgraph.Client) (walk : list WalkEntry)
    (g : gmap string callgraph.FunctionNode)
    (edges : ast.FuncDecl → list string) :
  (∀ m, range_details m ≡ₚ map_to_list m) →
  let ds := allDecls (parsed walk) in
  let names := (callgraph.parseGoFiles walk).1 in
  callgraph.BuildCallGraph Fprint_type Fprint_decl range_details client walk
  = Ok g ∧ edges = lsp_edges client names
  ∨ oldcode2.buildCallGraph Fprint_type Fprint_decl range_details
      range_calleeSet walk = Ok g
    ∧ edges = lexical_edges range_calleeSet names →
  (∀ name, name ∈ dom g ↔ ∃ fn, ast.FuncDeclOf fn ∈ ds ∧ ast.Name fn = name)
  ∧ (∀ ds1 fn ds2,
       ds = ds1 ++ ast.FuncDeclOf fn :: ds2 →
       Forall (not_named (ast.Name fn)) ds2 →
       ∃ node, g !! ast.Name fn = Some node
         ∧ callgraph.Signature node = Fprint_type (ast.Type_ fn)
         ∧ callgraph.Definition_ node = Fprint_decl fn
         ∧ is_nil (callgraph.Callees node) = false
         ∧ elems (callgraph.Callees node) = edges_of edges (ast.Name fn) ds).
Proof.
  intros Hr ds names [[->%BuildCallGraph_Ok ->]|[->%buildCallGraph_Ok ->]].
  - apply (assembled_nodes Fprint_type Fprint_decl range_details Hr
             (callgraph.graph_decl client) (lsp_edges client)
             (lsp_step_func client) (λ _ _, eq_refl) walk).
  - apply (assembled_nodes Fprint_type Fprint_decl range_details Hr
             (oldcode2.graph_decl range_calleeSet)
             (lexical_edges range_calleeSet)
             (lexical_graph_decl range_calleeSet) (λ _ _, eq_refl) walk).
Qed.

(** Three declarations of [F]: the node has the definition of the third,
    which has no body, and the edges of the first two. *)
Lemma pipeline_nodes_witness :
  ∃ node, triple_graph !! "F" = Some node
    ∧ callgraph.Definition_ node = sample_Fprint_decl extern_F
    ∧ elems (callgraph.Callees node)
      = edges_of (lexical_edges elements (callgraph.parseGoFiles triple_walk).1)
          "F" (allDecls (parsed triple_walk)).
Proof.
  destruct (pipeline_nodes sample_Fprint_type sample_Fprint_decl map_to_list
              elements sample_client triple_walk triple_graph
              (lexical_edges elements (callgraph.parseGoFiles triple_walk).1))
    as [_ Hnodes].
  - intros m. reflexivity.
  - right. split; [vm_compute; reflexivity|reflexivity].
  - destruct (Hnodes [ast.FuncDeclOf collide_F1; ast.FuncDeclOf collide_G;
                      ast.FuncDeclOf collide_F2; ast.FuncDeclOf collide_H]
                extern_F []) as (node & Hnode & _ & Hdef & _ & Hcallees).
    + reflexivity.
    + constructor.
    + exists node. split; [exact Hnode|]. split; [exact Hdef|exact Hcallees].
Defined.

Example sample_triple_edges :
  edges_of (lexical_edges elements (callgraph.parseGoFiles triple_walk).1)
    "F" (allDecls (parsed triple_walk))
  = ["G"; "H"].
Proof. vm_compute. reflexivity. Qed.

(** ** callgraph: what stops a pipeline *)

Lemma parsed_walk_of files : parsed (walk_of files) = files.
Proof.
  unfold parsed, walk_of. induction files as [|f files IH]; [done|].
  simpl. f_equal. exact IH.
Qed.

Lemma openAll_None client files :
  callgraph.openAll client files = None
  ↔ Forall (λ f, callgraph.OpenDocument client (ast.Package f) = None) files.
Proof.
  induction files as [|f files IH]; simpl; [by split; [constructor|]|].
  rewrite Forall_cons. destruct (callgraph.OpenDocument client _).
  - split; [done|]. by intros [? _].
  - rewrite IH. tauto.
Qed.

Lemma openAll_first client files1 f files2 err :
  Forall (λ f, callgraph.OpenDocument client (ast.Package f) = None) files1 →
  callgraph.OpenDocument client (ast.Package f) = Some err →
  callgraph.openAll client (files1 ++ f :: files2) = Some err.
Proof.
  intros H1 Hf. induction H1 as [|f' files1 Hf' _ IH]; simpl.
  - by rewrite Hf.
  - by rewrite Hf'.
Qed.

(** The precision pipeline is stopped only by the session: it returns a
    graph exactly when the session starts and every parsed file opens, and
    otherwise the error of [New] or of the first file that fails to open.
    Walk errors, directories, other files and files that do not parse are
    skipped: the result is that of a walk over the parsed files alone. *)
Theorem BuildCallGraph_stops
    (Fprint_type : ast.Node → string) (Fprint_decl : ast.FuncDecl → string)
    (range_details :
       gmap string callgraph.funcDetail → list (string * callgraph.funcDetail))
    (client : callgraph.Client) (walk : list WalkEntry) :
  let build :=
    callgraph.BuildCallGraph Fprint_type Fprint_decl range_details client in
  let opens f := callgraph.OpenDocument client (ast.Package f) = None in
  build walk = build (walk_of (parsed walk))
  ∧ (is_Ok (build walk)
     ↔ callgraph.New client = None ∧ Forall opens (parsed walk))
  ∧ (∀ err, callgraph.New client = Some err → build walk = Err err)
  ∧ (∀ files1 f files2 err,
       callgraph.New client = None →
       parsed walk = files1 ++ f :: files2 →
       Forall opens files1 →
       callgraph.OpenDocument client (ast.Package f) = Some err →
       build walk = Err err).
Proof.
  intros build opens. unfold build, callgraph.BuildCallGraph.
  rewrite !parseGoFiles_spec, parsed_walk_of. split; [done|].
  destruct (callgraph.New client) as [err0|].
  { split; [by split; [|intros [? _]]|]. split; [by intros err [= <-]|done]. }
  split; [|split; [done|]].
  - destruct (callgraph.openAll client (parsed walk)) as [err|] eqn:Hopen.
    + split; [done|]. intros [_ Hall%openAll_None]. congruence.
    + apply openAll_None in Hopen. by split.
  - intros files1 f files2 err _ -> H1 Hf.
    by rewrite (openAll_first _ _ _ _ err H1 Hf).
Qed.

(** A file that does not open stops the pipeline with its error. *)
Example sample_unopened :
  callgraph.BuildCallGraph sample_Fprint_type sample_Fprint_decl map_to_list
    unopened_client sample_walk
  = Err (errorString "read file a.go").
Proof. vm_compute. reflexivity. Qed.

Lemma old_parseGoFiles_from_clean walk names files :
  Forall no_walk_error walk →
  oldcode2.parseGoFiles_from walk names files
  = (foldl callgraph.declNames names (allDecls (parsed walk)),
     files ++ parsed walk, None).
Proof.
  intros Hwalk. revert names files.
  induction Hwalk as [|e walk He _ IH]; intros names files; simpl.
  { by rewrite app_nil_r. }
  destruct e as [err| | |[f|]]; simpl; try done; rewrite IH; try done.
  unfold allDecls. simpl. by rewrite foldl_app, <-app_assoc.
Qed.

Lemma old_parseGoFiles_from_error pre err post names files :
  Forall no_walk_error pre →
  (oldcode2.parseGoFiles_from (pre ++ WalkError err :: post) names files).2
  = Some err.
Proof.
  intros Hpre. revert names files.
  induction Hpre as [|e pre He _ IH]; intros names files; simpl; [done|].
  destruct e as [err'| | |[f|]]; simpl; try done; apply IH.
Qed.

(** The lexical pipeline is stopped by the first error the walk meets,
    which it returns; without such an error it returns a graph, that of a
    walk over the parsed files alone. *)
Theorem buildCallGraph_stops
    (Fprint_type : ast.Node → string) (Fprint_decl : ast.FuncDecl → string)
    (range_details :
       gmap string callgraph.funcDetail → list (string * callgraph.funcDetail))
    (range_calleeSet : gset string → list string)
    (walk : list WalkEntry) :
  let build := oldcode2.buildCallGraph Fprint_type Fprint_decl range_details
                 range_calleeSet in
  (∀ pre err post,
     walk = pre ++ WalkError err :: post →
     Forall no_walk_error pre →
     build walk = Err err)
  ∧ (Forall no_walk_error walk →
     is_Ok (build walk) ∧ build walk = build (walk_of (parsed walk))).
Proof.
  intros build. unfold build, oldcode2.buildCallGraph, oldcode2.parseGoFiles.
  split.
  - intros pre err post -> Hpre.
    pose proof (old_parseGoFiles_from_error pre err post ∅ [] Hpre) as Herr.
    destruct (oldcode2.parseGoFiles_from _ _ _) as [[names files] e].
    simpl in Herr. by subst.
  - intros Hwalk. rewrite (old_parseGoFiles_from_clean walk) by done.
    rewrite (old_parseGoFiles_from_clean (walk_of (parsed walk))).
    + by rewrite parsed_walk_of.
    + unfold walk_of. by apply Forall_fmap, Forall_true.
Qed.

Lemma buildCallGraph_stops_witness :
  oldcode2.buildCallGraph sample_Fprint_type sample_Fprint_decl map_to_list
    elements broken_walk
  = Err (errorString "permission denied").
Proof.
  apply (buildCallGraph_stops sample_Fprint_type sample_Fprint_decl map_to_list
           elements broken_walk)
    with (pre := [GoSource (Some sample_file); GoSource None])
         (post := [GoSource (Some sample_file)]).
  - reflexivity.
  - repeat constructor.
Defined.

(** The same walk does not stop the precision pipeline. *)
Example sample_broken_walk :
  callgraph.BuildCallGraph sample_Fprint_type sample_Fprint_decl map_to_list
    sample_client [GoSource None; WalkError (errorString "permission denied");
                   GoSource (Some sample_file)]
  = Ok sample_graph.
Proof. vm_compute. reflexivity. Qed.

(** ** main: what is served *)

Lemma same_content_closed_world loaded saved :
  same_content loaded saved → closed_world saved → closed_world loaded.
Proof.
  intros [Hdom Hcontent] Hclosed name node' Hnode'.
  assert (is_Some (saved !! name)) as [node Hnode].
  { apply elem_of_dom. rewrite <-Hdom. by apply elem_of_dom. }
  destruct (Hcontent name node Hnode) as (node'' & Hnode'' & _ & _ & Hsame).
  assert (node'' = node') as -> by congruence.
  apply Forall_forall. intros callee Hcallee%Hsame. rewrite Hdom.
  specialize (Hclosed name node Hnode). rewrite Forall_forall in Hclosed. auto.
Qed.

(** When the session starts, every parsed file opens, the store and the
    listener report no error, [main] serves a graph, whatever [graph.db]
    held: the graph has the content of the one [BuildCallGraph] returned
    (same keys, signatures and definitions, same callees under each key),
    it is closed-world, and its callee lists are non-nil and free of
    duplicates. *)
Theorem main_serves_built_graph
    (Fprint_type : ast.Node → string) (Fprint_decl : ast.FuncDecl → string)
    (range_details :
       gmap string callgraph.funcDetail → list (string * callgraph.funcDetail))
    (range_functions range_calls :
       gmap string callgraph.FunctionNode → list (string * callgraph.FunctionNode))
    (rows_functions :
       gmap string (string * string) → list (string * (string * string)))
    (rows_calls : gset (string * string) → list (string * string))
    (client : callgraph.Client) (walk : list WalkEntry)
    (file : persistence.DB) :
  (∀ m, range_details m ≡ₚ map_to_list m) →
  (∀ g, range_functions g ≡ₚ map_to_list g) →
  (∀ g, range_calls g ≡ₚ map_to_list g) →
  (∀ m, rows_functions m ≡ₚ map_to_list m) →
  (∀ c, rows_calls c ≡ₚ elements c) →
  callgraph.New client = None →
  Forall (λ f, callgraph.OpenDocument client (ast.Package f) = None)
    (parsed walk) →
  ∃ built served,
    callgraph.BuildCallGraph Fprint_type Fprint_decl range_details client walk
    = Ok built
    ∧ main.main Fprint_type Fprint_decl range_details range_functions
        range_calls rows_functions rows_calls client walk persistence.no_faults
        file (λ _, None)
      = main.Serving ":8080" served
    ∧ same_content served built
    ∧ closed_world served
    ∧ duplicate_free served
    ∧ map_Forall (λ _ node, is_nil (callgraph.Callees node) = false) served.
Proof.
  intros Hr Hrf Hrc Hrows Hcalls Hnew Hopen.
  destruct (callgraph.BuildCallGraph Fprint_type Fprint_decl range_details
              client walk) as [built|err] eqn:Hbuilt.
  2:{ revert Hbuilt. unfold callgraph.BuildCallGraph.
      rewrite parseGoFiles_spec, Hnew, (proj2 (openAll_None _ _) Hopen).
      done. }
  assert (closed_world built) as Hclosed.
  { apply BuildCallGraph_Ok in Hbuilt as ->.
    apply assembled_closed with (edges := lsp_edges client); [done| |done|].
    - apply lsp_step_func.
    - apply lsp_edges_known. }
  destruct (save_load range_functions range_calls rows_functions rows_calls
              Hrf Hrc Hrows Hcalls built
              {| persistence.db := file; persistence.tx := None;
                 persistence.foreign_keys := true |} eq_refl (λ _, Hclosed))
    as (s' & served & Hsave & Hload & Hcontent & Hnodup).
  exists built, served. split; [done|]. split.
  { unfold main.main. rewrite Hbuilt. simpl. by rewrite Hsave, Hload. }
  split; [done|]. split; [by eapply same_content_closed_world|].
  split; [done|].
  apply LoadGraph_Ok in Hload as ->. apply loaded_not_nil.
Qed.

Lemma main_serves_built_graph_witness :
  ∃ built served,
    callgraph.BuildCallGraph sample_Fprint_type sample_Fprint_decl map_to_list
      sample_client sample_walk = Ok built
    ∧ main.main sample_Fprint_type sample_Fprint_decl map_to_list map_to_list
        map_to_list map_to_list elements sample_client sample_walk
        persistence.no_faults sample_file_content (λ _, None)
      = main.Serving ":8080" served
    ∧ same_content served built
    ∧ closed_world served
    ∧ duplicate_free served
    ∧ map_Forall (λ _ node, is_nil (callgraph.Callees node) = false) served.
Proof.
  apply (main_serves_built_graph sample_Fprint_type sample_Fprint_decl
           map_to_list map_to_list map_to_list map_to_list elements
           sample_client sample_walk sample_file_content).
  - intros m. reflexivity.
  - intros g. reflexivity.
  - intros g. reflexivity.
  - intros m. reflexivity.
  - intros c. reflexivity.
  - reflexivity.
  - repeat constructor.
Defined.

(** The run of [main] on the sample corpus and session, over a database
    that held an older graph. *)
Example sample_main :
  main.main sample_Fprint_type sample_Fprint_decl map_to_list map_to_list
    map_to_list map_to_list elements sample_client sample_walk
    persistence.no_faults sample_file_content (λ _, None)
  = main.Serving ":8080" sample_graph.
Proof. vm_compute. reflexivity. Qed.

(** ** callgraph: the session of a run *)

Lemma session_graph_decl client names st decl :
  session.graph_decl client names st decl
  = (callgraph.graph_decl client names st.1 decl,
     st.2 ++ decl_queries client decl).
Proof.
  destruct st as [g log]. unfold session.graph_decl, callgraph.graph_decl,
    decl_queries, prepare, protoPos. simpl.
  destruct decl as [fn|]; [|by rewrite app_nil_r].
  destruct (ast.Body fn); [|by rewrite app_nil_r].
  destruct (callgraph.PrepareCallHierarchy _ _ _) as [[|root items]|]; try done.
  rewrite <-app_assoc. simpl.
  by destruct (callgraph.OutgoingCalls client root).
Qed.

Lemma session_graph_decls client names ds st :
  foldl (session.graph_decl client names) st ds
  = (foldl (callgraph.graph_decl client names) st.1 ds,
     st.2 ++ concat (decl_queries client <$> ds)).
Proof.
  revert st. induction ds as [|d ds IH]; intros st; simpl.
  { rewrite app_nil_r. by destruct st. }
  rewrite IH, session_graph_decl. simpl. by rewrite <-app_assoc.
Qed.

Lemma session_extractGraphLSP client files names log :
  session.extractGraphLSP client files names log
  = (callgraph.extractGraphLSP client files names,
     log ++ concat (decl_queries client <$> allDecls files)).
Proof.
  unfold session.extractGraphLSP.
  rewrite (foldl_concat (session.graph_decl client names) ast.Decls).
  rewrite session_graph_decls. simpl. by rewrite extractGraphLSP_flat.
Qed.

Lemma session_openAll client files log :
  ∃ opened,
    session.openAll client files log
    = (callgraph.openAll client files,
       log ++ ((λ f, session.EvOpenDocument (ast.Package f)) <$> opened))
    ∧ opened `prefix_of` files
    ∧ (callgraph.openAll client files = None → opened = files)
    ∧ (∀ err, callgraph.openAll client files = Some err →
         ∃ files1 f files2,
           files = files1 ++ f :: files2
           ∧ Forall (λ f, callgraph.OpenDocument client (ast.Package f) = None)
               files1
           ∧ callgraph.OpenDocument client (ast.Package f) = Some err
           ∧ opened = files1 ++ [f]).
Proof.
  revert log. induction files as [|f files IH]; intros log; simpl.
  { exists []. by rewrite app_nil_r. }
  destruct (callgraph.OpenDocument client (ast.Package f)) as [err|] eqn:Hf.
  - exists [f]. split; [done|]. split; [by apply prefix_cons, prefix_nil|].
    split; [done|]. intros err' [= <-]. by exists [], f, files.
  - destruct (IH (log ++ [session.EvOpenDocument (ast.Package f)]))
      as (opened & -> & Hprefix & Hall & Hfirst).
    exists (f :: opened). split; [by rewrite <-app_assoc|].
    split; [by apply prefix_cons|]. split; [by intros ->%Hall|].
    intros err (files1 & f' & files2 & -> & H1 & Hf' & ->)%Hfirst.
    exists (f :: files1), f', files2. split; [done|].
    split; [by constructor|]. done.
Qed.

(** The log of a run whose session started. *)
Lemma session_log Fprint_type Fprint_decl range_details client walk :
  callgraph.New client = None →
  let run := session.BuildCallGraph Fprint_type Fprint_decl range_details
               client walk in
  ∃ opened queries,
    run.2 = session.EvNew
            :: ((λ f, session.EvOpenDocument (ast.Package f)) <$> opened)
            ++ queries ++ [session.EvClose]
    ∧ opened `prefix_of` parsed walk
    ∧ (is_Ok run.1 → opened = parsed walk)
    ∧ queries = (if decide (is_Ok run.1)
                 then concat (decl_queries client <$> allDecls (parsed walk))
                 else [])
    ∧ (∀ err, run.1 = Err err →
         ∃ files1 f files2,
           parsed walk = files1 ++ f :: files2
           ∧ Forall (λ f, callgraph.OpenDocument client (ast.Package f) = None)
               files1
           ∧ callgraph.OpenDocument client (ast.Package f) = Some err
           ∧ opened = files1 ++ [f]).
Proof.
  intros Hnew run. unfold run, session.BuildCallGraph.
  rewrite parseGoFiles_spec, Hnew.
  destruct (session_openAll client (parsed walk) [session.EvNew])
    as (opened & -> & Hprefix & Hall & Hfirst).
  destruct (callgraph.openAll client (parsed walk)) as [err|] eqn:Hopen.
  - simpl. exists opened, []. split; [done|]. split; [done|].
    split; [done|]. split; [done|]. intros err' [= <-]. by apply Hfirst.
  - rewrite session_extractGraphLSP. unfold callgraph.extractGraphLSP. simpl.
    exists opened, (concat (decl_queries client <$> allDecls (parsed walk))).
    split; [by rewrite <-!app_assoc|]. split; [done|]. split; [auto|].
    split; done.
Qed.

(** The precision pipeline, call by call.  The logged run returns what
    [BuildCallGraph] returns.  When [New] fails nothing else is called.
    Otherwise the log is: [New], the opening of the parsed files in order,
    the queries, and one [Close], last, on every path.  When the run
    returns a graph every parsed file was opened and the queries are those
    of the declarations in order; when it returns an error, the files
    opened are those before the first that fails to open, which all opened,
    and that file, whose error is the one returned, and no query is sent. *)
Theorem BuildCallGraph_session
    (Fprint_type : ast.Node → string) (Fprint_decl : ast.FuncDecl → string)
    (range_details :
       gmap string callgraph.funcDetail → list (string * callgraph.funcDetail))
    (client : callgraph.Client) (walk : list WalkEntry) :
  let run := session.BuildCallGraph Fprint_type Fprint_decl range_details
               client walk in
  run.1 = callgraph.BuildCallGraph Fprint_type Fprint_decl range_details
            client walk
  ∧ (is_Some (callgraph.New client) → run.2 = [session.EvNew])
  ∧ (callgraph.New client = None →
     ∃ opened queries,
       run.2 = session.EvNew
               :: ((λ f, session.EvOpenDocument (ast.Package f)) <$> opened)
               ++ queries ++ [session.EvClose]
       ∧ opened `prefix_of` parsed walk
       ∧ (is_Ok run.1 → opened = parsed walk)
       ∧ queries = (if decide (is_Ok run.1)
                    then concat (decl_queries client <$> allDecls (parsed walk))
                    else [])
       ∧ (∀ err, run.1 = Err err →
            ∃ files1 f files2,
              parsed walk = files1 ++ f :: files2
              ∧ Forall (λ f, callgraph.OpenDocument client (ast.Package f) = None)
                  files1
              ∧ callgraph.OpenDocument client (ast.Package f) = Some err
              ∧ opened = files1 ++ [f])).
Proof.
  intros run. split; [|split].
  - unfold run, session.BuildCallGraph, callgraph.BuildCallGraph.
    rewrite parseGoFiles_spec. destruct (callgraph.New client); [done|].
    destruct (session_openAll client (parsed walk) [session.EvNew])
      as (opened & -> & _ & _ & _).
    destruct (callgraph.openAll client (parsed walk)); [done|].
    by rewrite session_extractGraphLSP.
  - intros [err Hnew]. unfold run, session.BuildCallGraph.
    destruct (callgraph.parseGoFiles walk). by rewrite Hnew.
  - apply session_log.
Qed.

(** The log of the sample session: [A] is resolved and queried for its
    calls, [B] has no item, the query for [C] fails, and the session is
    closed. *)
Example sample_session :
  (session.BuildCallGraph sample_Fprint_type sample_Fprint_decl map_to_list
     sample_client sample_walk).2
  = sample_log.
Proof. vm_compute. reflexivity. Qed.

(** The log of a session in which the first file does not open: the open
    that fails is the last, no query follows, and the session is closed. *)
Example sample_unopened_session :
  session.BuildCallGraph sample_Fprint_type sample_Fprint_decl map_to_list
    unopened_client (sample_walk ++ collide_walk)
  = (Err (errorString "read file a.go"),
     [session.EvNew; session.EvOpenDocument "a.go"; session.EvClose]).
Proof. vm_compute. reflexivity. Qed.

Lemma elem_of_concat {A} (x : A) (ls : list (list A)) :
  x ∈ concat ls ↔ ∃ l, x ∈ l ∧ l ∈ ls.
Proof.
  induction ls as [|l ls IH]; simpl.
  { rewrite elem_of_nil. split; [done|]. by intros (l & _ & ?%elem_of_nil). }
  rewrite elem_of_app, IH. split.
  - intros [?|(l' & ? & ?)]; [exists l|exists l']; split; try done;
      [left|by right].
  - intros (l' & ? & [->|?]%elem_of_cons); [by left|right; eauto].
Qed.

Lemma decl_queries_file client (f : ast.File) file pos :
  Forall (λ d, match d with
               | ast.FuncDeclOf fn =>
                   ast.Filename (ast.NamePos fn) = ast.Package f
               | ast.GenDecl => True
               end) (ast.Decls f) →
  session.EvPrepareCallHierarchy file pos
    ∈ concat (decl_queries client <$> ast.Decls f) →
  file = ast.Package f.
Proof.
  intros Hpos (qs & Hin & (d & -> & Hd)%list_elem_of_fmap)%elem_of_concat.
  rewrite Forall_forall in Hpos. specialize (Hpos d Hd).
  destruct d as [fn|]; simpl in Hin; [|by apply elem_of_nil in Hin].
  destruct (ast.Body fn); [|by apply elem_of_nil in Hin].
  apply elem_of_cons in Hin as [[= -> _]|Hin]; [done|].
  destruct (prepare client fn) as [[|root items]|];
    try by apply elem_of_nil in Hin.
  by apply list_elem_of_singleton in Hin.
Qed.

Lemma queries_opened client files file pos :
  positions_in_file files →
  session.EvPrepareCallHierarchy file pos
    ∈ concat (decl_queries client <$> allDecls files) →
  session.EvOpenDocument file
    ∈ (λ f, session.EvOpenDocument (ast.Package f)) <$> files.
Proof.
  intros Hpos. unfold allDecls.
  induction Hpos as [|f files Hf _ IH]; simpl; [by intros ?%elem_of_nil|].
  rewrite fmap_app, concat_app.
  intros [Hin|Hin]%elem_of_app.
  - apply (decl_queries_file client f) in Hin as ->; [left|done].
  - right. by apply IH.
Qed.

(** A document is opened before any query about it: when the position of
    every declared name lies in the file that declares it, every
    prepare-call-hierarchy query in the log comes after the opening of the
    file it names. *)
Theorem BuildCallGraph_opens_before_query
    (Fprint_type : ast.Node → string) (Fprint_decl : ast.FuncDecl → string)
    (range_details :
       gmap string callgraph.funcDetail → list (string * callgraph.funcDetail))
    (client : callgraph.Client) (walk : list WalkEntry)
    (pre post : list session.event) (file : string) (pos : protocol.Position) :
  positions_in_file (parsed walk) →
  (session.BuildCallGraph Fprint_type Fprint_decl range_details client walk).2
  = pre ++ session.EvPrepareCallHierarchy file pos :: post →
  session.EvOpenDocument file ∈ pre.
Proof.
  intros Hpos Hlog.
  destruct (callgraph.New client) as [err|] eqn:Hnew.
  { unfold session.BuildCallGraph in Hlog.
    destruct (callgraph.parseGoFiles walk). rewrite Hnew in Hlog.
    destruct pre as [|e [|e' pre]]; done. }
  destruct (session_log Fprint_type Fprint_decl range_details client walk Hnew)
    as (opened & queries & Hshape & _ & Hall & Hqueries & _).
  rewrite Hlog in Hshape. clear Hlog.
  set (opens := (λ f, session.EvOpenDocument (ast.Package f)) <$> opened) in *.
  assert (session.EvPrepareCallHierarchy file pos ∈ queries) as Hin.
  { assert (session.EvPrepareCallHierarchy file pos
              ∈ session.EvNew :: opens ++ queries ++ [session.EvClose]) as Hin.
    { rewrite <-Hshape. apply elem_of_app. right. left. }
    apply elem_of_cons in Hin as [?|Hin]; [done|].
    apply elem_of_app in Hin as [(f & ? & _)%list_elem_of_fmap|Hin]; [done|].
    apply elem_of_app in Hin as [?|Hin]; [done|].
    by apply list_elem_of_singleton in Hin. }
  destruct (decide (is_Ok _)) as [Hok|];
    [|rewrite Hqueries in Hin; by apply elem_of_nil in Hin].
  specialize (Hall Hok). rewrite Hqueries in Hin.
  assert (session.EvOpenDocument file ∈ session.EvNew :: opens) as Hopened.
  { right. unfold opens. rewrite Hall.
    by apply (queries_opened client _ file pos). }
  clear Hqueries Hin.
  change (pre ++ session.EvPrepareCallHierarchy file pos :: post
          = (session.EvNew :: opens) ++ queries ++ [session.EvClose])
    in Hshape.
  apply app_eq_app in Hshape as [l [[-> _]|[Hopens Hrest]]].
  - apply elem_of_app. by left.
  - destruct l as [|e l].
    + rewrite app_nil_r in Hopens. by rewrite <-Hopens.
    + simpl in Hrest. injection Hrest as <- _. exfalso.
      assert (session.EvPrepareCallHierarchy file pos
                ∈ session.EvNew :: opens) as Hbad.
      { rewrite Hopens. apply elem_of_app. right. left. }
      apply elem_of_cons in Hbad as [?|(f & ? & _)%list_elem_of_fmap]; done.
Qed.

Lemma BuildCallGraph_opens_before_query_witness :
  session.EvOpenDocument "a.go"
  ∈ [session.EvNew; session.EvOpenDocument "a.go"].
Proof.
  apply (BuildCallGraph_opens_before_query sample_Fprint_type sample_Fprint_decl
           map_to_list sample_client sample_walk
           [session.EvNew; session.EvOpenDocument "a.go"]
           (drop 3 sample_log) "a.go"
           {| protocol.Line := 2; protocol.Character := 5 |}).
  - repeat constructor.
  - vm_compute. reflexivity.
Defined.

(** ** lspclient: starting a session *)


(** gopls starts and does not answer: it is killed. *)
Example sample_deaf_host :
  lspclient.New deaf_host "."
  = (Err (wrapError "initialize failed" (errorString "EOF")),
     [lspclient.WithCancel; lspclient.ProcessStart; lspclient.NewConn;
      lspclient.CallInitialize "file:///work";
      lspclient.Did lspclient.StreamClose; lspclient.Did lspclient.ProcessKill;
      lspclient.Did lspclient.Cancel]).
Proof. vm_compute. reflexivity. Qed.

(** ** server: the tree the page draws *)

Lemma map_outcome_Returns {A B} (f : A → server.outcome B) l ys :
  server.map_outcome f l = server.Returns ys
  ↔ Forall2 (λ x y, f x = server.Returns y) l ys.
Proof.
  revert ys. induction l as [|x l IH]; intros ys; simpl.
  { split; [intros [= <-]; constructor|by intros ->%Forall2_nil_inv_l]. }
  split.
  - destruct (f x) as [y| |] eqn:Hx; try done.
    destruct (server.map_outcome f l) as [ys'| |]; try done.
    intros [= <-]. constructor; [done|]. by apply IH.
  - intros (y & ys' & Hx & Hl & ->)%Forall2_cons_inv_l.
    rewrite Hx. by rewrite (proj2 (IH ys') Hl).
Qed.

Lemma map_outcome_fuel {A B} (f : A → server.outcome B) l :
  Forall (λ x, f x ≠ server.OutOfFuel) l →
  server.map_outcome f l ≠ server.OutOfFuel.
Proof.
  induction 1 as [|x l Hx _ IH]; simpl; [done|].
  destruct (f x); try done. by destruct (server.map_outcome f l).
Qed.

Lemma map_outcome_total {A B} (f : A → server.outcome B) l :
  Forall (λ x, ∃ y, f x = server.Returns y) l →
  ∃ ys, server.map_outcome f l = server.Returns ys.
Proof.
  induction 1 as [|x l [y Hx] _ [ys IH]]; simpl; [by eexists|].
  rewrite Hx, IH. by eexists.
Qed.

Lemma filter_all {A} (P : A → Prop) `{!∀ x, Decision (P x)} (l : list A) :
  Forall P l → filter P l = l.
Proof.
  induction 1 as [|x l Hx _ IH]; [done|].
  rewrite filter_cons_True by done. by rewrite IH.
Qed.

Section toTree.

Variable obj : gmap string callgraph.FunctionNode.

Lemma visited_grows name (vis : gset string) :
  name ∈ dom obj → name ∉ vis → vis ⊆ dom obj →
  {[name]} ∪ vis ⊆ dom obj ∧ size ({[name]} ∪ vis) = S (size vis)
  ∧ S (size vis) ≤ size obj.
Proof.
  intros Hname Hfresh Hvis.
  assert ({[name]} ∪ vis ⊆ dom obj) as Hsub by set_solver.
  assert (size ({[name]} ∪ vis) = S (size vis)) as Hsize.
  { rewrite size_union by set_solver. by rewrite size_singleton. }
  split; [done|]. split; [done|].
  rewrite <-Hsize, <-size_dom. by apply subseteq_size.
Qed.

Lemma build_fuel fuel name (vis : gset string) :
  vis ⊆ dom obj →
  size obj - size vis < fuel →
  server.build obj fuel name vis ≠ server.OutOfFuel.
Proof.
  revert name vis. induction fuel as [|fuel IH]; intros name vis Hvis Hfuel.
  { lia. }
  simpl. destruct (decide (name ∈ vis)) as [Hseen|Hfresh].
  { by destruct (obj !! name). }
  destruct (obj !! name) as [node|] eqn:Hnode; [|done].
  destruct (callgraph.Callees node) as [|callees]; [done|].
  destruct (visited_grows name vis) as (Hsub & Hsize & Hle);
    [by apply elem_of_dom|done..|].
  pose proof (map_outcome_fuel
                (λ c, server.build obj fuel c ({[name]} ∪ vis)) callees) as Hmap.
  destruct (server.map_outcome _ callees); try done.
  intros _. apply Hmap; [|done].
  apply Forall_forall. intros c _. apply IH; [done|]. lia.
Qed.

Lemma build_Returns fuel name (vis : gset string) t :
  server.build obj fuel name vis = server.Returns t →
  vis ⊆ dom obj →
  server.name_of t = name
  ∧ server.height t ≤ S (size obj - size vis).
Proof.
  revert name vis t. induction fuel as [|fuel IH]; intros name vis t; [done|].
  simpl. destruct (decide (name ∈ vis)) as [Hseen|Hfresh].
  { destruct (obj !! name); [|done]. intros [= <-] _. simpl. split; [done|lia]. }
  destruct (obj !! name) as [node|] eqn:Hnode; [|done].
  destruct (callgraph.Callees node) as [|callees]; [done|].
  destruct (server.map_outcome _ callees) as [children| |] eqn:Hmap; try done.
  intros [= <-] Hvis. split; [done|].
  destruct (visited_grows name vis) as (Hsub & Hsize & Hle);
    [by apply elem_of_dom|done..|].
  apply map_outcome_Returns in Hmap. cbn [server.height].
  assert (foldr (λ c h, server.height c `max` h) 0 children
          ≤ size obj - size vis); [|lia].
  induction Hmap as [|c child callees children Hc _ IHc]; simpl; [lia|].
  apply IH in Hc as [_ Hc]; [|done]. lia.
Qed.

Lemma build_total fuel name (vis : gset string) :
  closed_world obj →
  map_Forall (λ _ node, is_nil (callgraph.Callees node) = false) obj →
  name ∈ dom obj →
  vis ⊆ dom obj →
  size obj - size vis < fuel →
  ∃ t, server.build obj fuel name vis = server.Returns t.
Proof.
  intros Hclosed Hnil. revert name vis.
  induction fuel as [|fuel IH]; intros name vis Hname Hvis Hfuel; [lia|].
  apply elem_of_dom in Hname as Hnode. destruct Hnode as [node Hnode].
  simpl. rewrite Hnode. destruct (decide (name ∈ vis)); [by eexists|].
  specialize (Hnil name node Hnode). specialize (Hclosed name node Hnode).
  simpl in Hclosed, Hnil.
  destruct (callgraph.Callees node) as [|callees]; [done|].
  destruct (visited_grows name vis) as (Hsub & Hsize & Hle); [done..|].
  destruct (map_outcome_total
              (λ c, server.build obj fuel c ({[name]} ∪ vis)) callees)
    as [children ->]; [|by eexists].
  eapply Forall_impl; [exact Hclosed|]. intros c Hc. apply IH; [done..|]. lia.
Qed.

Lemma delete_callees_Returns values all :
  Forall (λ node, is_nil (callgraph.Callees node) = false) values →
  server.delete_callees values all
  = server.Returns
      (filter (λ k, Forall (λ node, k ∉ elems (callgraph.Callees node)) values)
         all).
Proof.
  intros Hvalues. revert all.
  induction Hvalues as [|node values Hnode _ IH]; intros all; simpl.
  { f_equal. symmetry. apply filter_all. by apply Forall_true. }
  destruct (callgraph.Callees node) as [|callees] eqn:Hcallees; [done|].
  rewrite IH. f_equal. simpl.
  assert (foldl (λ all c, server.delete_name c all) all callees
          = filter (λ k, k ∉ callees) all) as ->.
  { clear. revert all. induction callees as [|c callees IH]; intros all; simpl.
    - symmetry. apply filter_all, Forall_true. set_solver.
    - rewrite IH. unfold server.delete_name. rewrite list_filter_filter.
      apply list_filter_iff. intros k. rewrite not_elem_of_cons. tauto. }
  rewrite list_filter_filter. apply list_filter_iff. intros k.
  rewrite Forall_cons, Hcallees. simpl. tauto.
Qed.

Lemma delete_callees_not_fuel values all :
  server.delete_callees values all ≠ server.OutOfFuel.
Proof.
  revert all. induction values as [|node values IH]; intros all; simpl; [done|].
  by destruct (callgraph.Callees node).
Qed.

Lemma delete_callees_sub values all all' :
  server.delete_callees values all = server.Returns all' →
  all' = filter (λ k, Forall (λ node, k ∉ elems (callgraph.Callees node)) values)
           all.
Proof.
  intros Hall.
  assert (Forall (λ node, is_nil (callgraph.Callees node) = false) values)
    as Hvalues.
  { revert all Hall. induction values as [|node values IH]; intros all; simpl;
      [constructor|].
    destruct (callgraph.Callees node) eqn:Hnode; [done|].
    intros ?%IH. constructor; [by rewrite Hnode|done]. }
  rewrite delete_callees_Returns in Hall by done. by injection Hall.
Qed.

End toTree.

Lemma delete_callees_values values all all' :
  server.delete_callees values all = server.Returns all' →
  Forall (λ node, is_nil (callgraph.Callees node) = false) values.
Proof.
  revert all. induction values as [|node values IH]; intros all; simpl;
    [constructor|].
  destruct (callgraph.Callees node) eqn:Hnode; [done|].
  intros ?%IH. constructor; [by rewrite Hnode|done].
Qed.

Lemma values_of_keys (obj : gmap string callgraph.FunctionNode) keys node :
  keys ≡ₚ elements (dom obj) →
  node ∈ omap (λ k, obj !! k) keys ↔ ∃ name, obj !! name = Some node.
Proof.
  intros Hkeys. rewrite list_elem_of_omap. split.
  - intros (name & _ & Hnode). by exists name.
  - intros (name & Hnode). exists name. split; [|done].
    rewrite Hkeys. apply elem_of_elements, elem_of_dom. by exists node.
Qed.

Lemma uncalled_key (obj : gmap string callgraph.FunctionNode) keys name :
  keys ≡ₚ elements (dom obj) →
  Forall (λ node, name ∉ elems (callgraph.Callees node))
    (omap (λ k, obj !! k) keys)
  ↔ ¬ called obj name.
Proof.
  intros Hkeys. rewrite Forall_forall. split.
  - intros Hall (caller & node & Hnode & Hin).
    apply (Hall node); [|done]. apply values_of_keys; [done|]. by exists caller.
  - intros Hnot node (caller & Hnode)%values_of_keys Hin; [|done].
    apply Hnot. by exists caller, node.
Qed.

(** The recursion of [build] is bounded on every graph, cyclic ones
    included: with as many steps as the graph has functions, and one more,
    [toTree] never stops for want of steps, and the tree it returns is at
    most two levels deeper than the graph has functions (the root, one level
    for each function on a path, and the leaf at which a path meets a
    function a second time). *)
Theorem toTree_bounded (obj : gmap string callgraph.FunctionNode) keys :
  server.toTree obj keys ≠ server.OutOfFuel
  ∧ ∀ t, server.toTree obj keys = server.Returns t →
         server.height t ≤ size obj + 2.
Proof.
  unfold server.toTree.
  pose proof (delete_callees_not_fuel (omap (λ k, obj !! k) keys) keys) as Hdel.
  destruct (server.delete_callees _ keys) as [all| |]; [|done..]. clear Hdel.
  pose proof (map_outcome_fuel (λ r, server.build obj (S (size obj)) r ∅) all)
    as Hfuel.
  destruct (server.map_outcome _ all) as [children| |] eqn:Hmap.
  - split; [done|]. intros t [= <-]. cbn [server.height].
    assert (foldr (λ c h, server.height c `max` h) 0 children ≤ S (size obj));
      [|lia].
    apply map_outcome_Returns in Hmap.
    induction Hmap as [|r child all children Hr _ IH]; simpl; [lia|].
    apply build_Returns in Hr as [_ Hr]; [|set_solver].
    specialize (IH (λ _, ltac:(done))). lia.
  - done.
  - exfalso. apply Hfuel; [|done]. apply Forall_forall. intros r _.
    apply build_fuel; [set_solver|lia].
Qed.

(** The children of the root are the functions no function of the graph
    calls, in the order of the keys, each once.  A function that calls
    itself, or that is called only from a cycle it is part of, is therefore
    not a root; when every function of the graph is called by some function,
    the tree is the bare root. *)
Theorem toTree_roots (obj : gmap string callgraph.FunctionNode) keys t :
  keys ≡ₚ elements (dom obj) →
  server.toTree obj keys = server.Returns t →
  ∃ children,
    t = server.mkTree "root" None children
    ∧ server.name_of <$> children = filter (λ k, ¬ called obj k) keys
    ∧ NoDup (server.name_of <$> children)
    ∧ ((∀ k, k ∈ dom obj → called obj k) → children = []).
Proof.
  intros Hkeys. unfold server.toTree.
  destruct (server.delete_callees _ keys) as [all| |] eqn:Hall; [|done..].
  apply delete_callees_sub in Hall.
  destruct (server.map_outcome _ all) as [children| |] eqn:Hmap; [|done..].
  intros [= <-]. exists children.
  assert (server.name_of <$> children = all) as Hnames.
  { apply map_outcome_Returns in Hmap. clear Hall.
    induction Hmap as [|r child all children Hr _ IH]; [done|].
    rewrite fmap_cons. f_equal; [|exact IH].
    by apply build_Returns in Hr as [-> _]; [|set_solver]. }
  assert (all = filter (λ k, ¬ called obj k) keys) as Hroots.
  { rewrite Hall. apply list_filter_iff. intros k. by apply uncalled_key. }
  split; [done|]. split; [congruence|]. split.
  - rewrite Hnames, Hroots. apply NoDup_filter. rewrite Hkeys.
    apply NoDup_elements.
  - intros Hcalled. apply (fmap_nil_inv server.name_of).
    rewrite Hnames, Hroots.
    destruct (filter (λ k, ¬ called obj k) keys) as [|k roots] eqn:Hfilter;
      [done|].
    assert (k ∈ filter (λ k, ¬ called obj k) keys) as [Hnot Hk]%list_elem_of_filter
      by (rewrite Hfilter; left).
    destruct Hnot. apply Hcalled. rewrite Hkeys in Hk.
    by apply elem_of_elements in Hk.
Qed.

Lemma toTree_roots_witness :
  ∃ children,
    server.mkTree "root" None [] = server.mkTree "root" None children
    ∧ server.name_of <$> children
      = filter (λ k, ¬ called rootless_graph k) (elements (dom rootless_graph))
    ∧ NoDup (server.name_of <$> children)
    ∧ ((∀ k, k ∈ dom rootless_graph → called rootless_graph k) → children = []).
Proof.
  apply (toTree_roots rootless_graph (elements (dom rootless_graph))).
  - reflexivity.
  - vm_compute. reflexivity.
Defined.

Lemma toTree_total (obj : gmap string callgraph.FunctionNode) keys :
  keys ≡ₚ elements (dom obj) →
  closed_world obj →
  map_Forall (λ _ node, is_nil (callgraph.Callees node) = false) obj →
  ∃ t, server.toTree obj keys = server.Returns t.
Proof.
  intros Hkeys Hclosed Hnil. unfold server.toTree.
  rewrite delete_callees_Returns.
  2:{ apply Forall_forall. intros node (name & Hnode)%values_of_keys; [|done].
      exact (Hnil name node Hnode). }
  destruct (map_outcome_total
              (λ r, server.build obj (S (size obj)) r ∅)
              (filter (λ k, Forall (λ node, k ∉ elems (callgraph.Callees node))
                              (omap (λ k, obj !! k) keys)) keys))
    as [children ->]; [|by eexists].
  apply Forall_forall. intros r [_ Hr]%list_elem_of_filter.
  apply build_total; [done..| |set_solver|lia].
  rewrite Hkeys in Hr. by apply elem_of_elements in Hr.
Qed.

(** On a closed-world graph the script returns a tree exactly when no
    function's callee slice is [nil]: cycles do not stop it, and one [nil]
    slice, which reaches the page as [null], makes it throw. *)
Theorem toTree_renders (obj : gmap string callgraph.FunctionNode) keys :
  keys ≡ₚ elements (dom obj) →
  closed_world obj →
  (∃ t, server.toTree obj keys = server.Returns t)
  ↔ map_Forall (λ _ node, is_nil (callgraph.Callees node) = false) obj.
Proof.
  intros Hkeys Hclosed. split.
  - intros [t Ht]. unfold server.toTree in Ht.
    destruct (server.delete_callees _ keys) as [all| |] eqn:Hall; [|done..].
    apply delete_callees_values in Hall. rewrite Forall_forall in Hall.
    intros name node Hnode. apply Hall, values_of_keys; [done|]. by exists name.
  - by apply toTree_total.
Qed.

Lemma toTree_renders_witness :
  (∃ t, server.toTree cyclic_graph (elements (dom cyclic_graph))
        = server.Returns t)
  ↔ map_Forall (λ _ node, is_nil (callgraph.Callees node) = false) cyclic_graph.
Proof.
  apply (toTree_renders cyclic_graph (elements (dom cyclic_graph))).
  - reflexivity.
  - by_evaluation.
Defined.

(** The tree of the cyclic sample: the path from [main] ends where it
    meets [A] a second time. *)
Example sample_cyclic_tree :
  server.toTree cyclic_graph (elements (dom cyclic_graph))
  = server.Returns
      (server.mkTree "root" None
         [sample_leaf "main"
            [sample_leaf "A" [sample_leaf "B" [sample_leaf "A" []]]]]).
Proof. vm_compute. reflexivity. Qed.

(** A graph with a [nil] callee slice makes the script throw. *)
Example sample_null_callees :
  server.toTree null_graph (elements (dom null_graph))
  = server.TypeError.
Proof. vm_compute. reflexivity. Qed.

(** ** main, persistence and server: what reaches the page *)

(** A step that returns no error under some faults returns the same under
    none. *)
Lemma bind_faultless {A B} (m m0 : persistence.M A)
    (k k0 : A → persistence.M B) s s' b :
  (∀ s s' a, m s = (s', Ok a) → m0 s = (s', Ok a)) →
  (∀ a s s' b, k a s = (s', Ok b) → k0 a s = (s', Ok b)) →
  persistence.bind m k s = (s', Ok b) →
  persistence.bind m0 k0 s = (s', Ok b).
Proof.
  intros Hm Hk (s1 & a & H1 & H2)%bind_Ok. unfold persistence.bind.
  rewrite (Hm _ _ _ H1). by apply Hk.
Qed.

Lemma forM__faultless {A} (f f0 : A → persistence.M unit) l s s' :
  (∀ x s s', f x s = (s', Ok tt) → f0 x s = (s', Ok tt)) →
  persistence.forM_ l f s = (s', Ok tt) →
  persistence.forM_ l f0 s = (s', Ok tt).
Proof.
  intros Hf. revert s s'. induction l as [|x l IH]; intros s s'; [done|].
  rewrite !forM__cons. apply bind_faultless.
  - intros s1 s2 []. apply Hf.
  - intros [] s1 s2 []. apply IH.
Qed.

Lemma Exec_faultless wrap F st stmt s s' :
  persistence.orRollback wrap (persistence.Exec F st stmt) s = (s', Ok tt) →
  persistence.orRollback wrap
    (persistence.Exec persistence.no_faults st stmt) s = (s', Ok tt).
Proof.
  unfold persistence.orRollback, persistence.Exec. simpl.
  by destruct (F st).
Qed.

Lemma SaveGraph_faultless range_functions range_calls F graph s s' :
  persistence.SaveGraph range_functions range_calls F graph s = (s', Ok tt) →
  persistence.SaveGraph range_functions range_calls persistence.no_faults
    graph s = (s', Ok tt).
Proof.
  rewrite !SaveGraph_unfold.
  apply bind_faultless.
  { intros s1 s2 []. unfold persistence.Begin. simpl.
    by destruct (F persistence.StBegin). }
  intros _ s1 s2 []. apply bind_faultless.
  { intros ? ? []. apply Exec_faultless. }
  intros _ ? ? []. apply bind_faultless.
  { intros ? ? []. apply Exec_faultless. }
  intros _ ? ? []. apply bind_faultless.
  { intros ? ? []. apply Exec_faultless. }
  intros _ ? ? []. apply bind_faultless.
  { intros ? ? []. apply Exec_faultless. }
  intros _ ? ? []. apply bind_faultless.
  { intros ? ? []. apply forM__faultless. intros ? ? ?. apply Exec_faultless. }
  intros _ ? ? []. apply bind_faultless.
  { intros ? ? []. apply forM__faultless. intros ? ? ?.
    apply forM__faultless. intros ? ? ?. apply Exec_faultless. }
  intros _ ? ? []. unfold persistence.Commit. simpl.
  by destruct (F persistence.StCommit).
Qed.

(** Whatever errors the store and the listener report: when [main] gets as
    far as serving, the graph it serves has the content of the graph
    [BuildCallGraph] returned, it is closed-world, and the script of the
    page returns a tree for it, whatever the order of its keys. *)
Theorem served_graph_renders
    (Fprint_type : ast.Node → string) (Fprint_decl : ast.FuncDecl → string)
    (range_details :
       gmap string callgraph.funcDetail → list (string * callgraph.funcDetail))
    (range_functions range_calls :
       gmap string callgraph.FunctionNode → list (string * callgraph.FunctionNode))
    (rows_functions :
       gmap string (string * string) → list (string * (string * string)))
    (rows_calls : gset (string * string) → list (string * string))
    (client : callgraph.Client) (walk : list WalkEntry)
    (F : persistence.faults) (file : persistence.DB)
    (listen : string → option error) (addr : string)
    (served : gmap string callgraph.FunctionNode) (keys : list string) :
  (∀ g, range_functions g ≡ₚ map_to_list g) →
  (∀ g, range_calls g ≡ₚ map_to_list g) →
  (∀ m, rows_functions m ≡ₚ map_to_list m) →
  (∀ c, rows_calls c ≡ₚ elements c) →
  main.main Fprint_type Fprint_decl range_details range_functions range_calls
    rows_functions rows_calls client walk F file listen
  = main.Serving addr served →
  keys ≡ₚ elements (dom served) →
  ∃ built t,
    callgraph.BuildCallGraph Fprint_type Fprint_decl range_details client walk
    = Ok built
    ∧ same_content served built
    ∧ closed_world served
    ∧ server.toTree served keys = server.Returns t.
Proof.
  intros Hrf Hrc Hrows Hcalls Hmain Hkeys. unfold main.main in Hmain.
  destruct (callgraph.BuildCallGraph _ _ _ client walk) as [built|]; [|done].
  unfold persistence.NewStore in Hmain.
  destruct (F persistence.StOpen); [done|].
  destruct (F persistence.StSchema); [done|].
  destruct (persistence.SaveGraph _ _ F built _) as [store [[]|]] eqn:Hsave;
    [|done].
  destruct (persistence.LoadGraph _ _ F store) as [loaded|] eqn:Hload; [|done].
  destruct (listen ":8080"); [done|]. injection Hmain as <- <-.
  assert (closed_world built) as Hclosed.
  { eapply SaveGraph_Ok_closed_world; [exact Hrf|exact Hrc| |exact Hsave].
    reflexivity. }
  apply SaveGraph_faultless in Hsave.
  rewrite SaveGraph_no_faults in Hsave by done. injection Hsave as <-.
  apply LoadGraph_Ok in Hload. simpl in Hload.
  assert (same_content loaded built) as Hsame.
  { rewrite Hload. by apply loaded_content. }
  assert (closed_world loaded) as Hloaded
    by (by eapply same_content_closed_world).
  destruct (toTree_total loaded keys) as [t Ht]; [done..| |].
  { rewrite Hload. apply loaded_not_nil. }
  by exists built, t.
Qed.

Lemma served_graph_renders_witness :
  ∃ built t,
    callgraph.BuildCallGraph sample_Fprint_type sample_Fprint_decl map_to_list
      sample_client sample_walk = Ok built
    ∧ same_content sample_graph built
    ∧ closed_world sample_graph
    ∧ server.toTree sample_graph (elements (dom sample_graph))
      = server.Returns t.
Proof.
  apply (served_graph_renders sample_Fprint_type sample_Fprint_decl
           map_to_list map_to_list map_to_list map_to_list elements
           sample_client sample_walk persistence.no_faults sample_file_content
           (λ _, None) ":8080").
  - intros g. reflexivity.
  - intros g. reflexivity.
  - intros m. reflexivity.
  - intros c. reflexivity.
  - vm_compute. reflexivity.
  - reflexivity.
Defined.

(** ** oldcode2: the script of the earlier page *)

Lemma map_outcome_elem {A B} (f : A → server.outcome B) l ys x :
  server.map_outcome f l = server.Returns ys →
  x ∈ l → ∃ y, f x = server.Returns y.
Proof.
  intros Hmap%map_outcome_Returns Hx.
  induction Hmap as [|x' y l ys Hx' _ IH]; [by apply elem_of_nil in Hx|].
  apply elem_of_cons in Hx as [->|Hx]; [by exists y|by apply IH].
Qed.

Lemma tc_first {A} (R : relation A) a b :
  tc R a b → ∃ x, R a x ∧ rtc R x b.
Proof.
  intros [a' b' Hx|a' x b' Hx Hxb].
  - exists b'. split; [done|]. apply rtc_refl.
  - exists x. split; [done|]. by apply tc_rtc.
Qed.

(** A function from which a cycle of calls can be reached: the earlier
    [build] returns no tree for it, however deep it may nest. *)
Lemma old_build_cycle (obj : gmap string callgraph.FunctionNode) fuel name c t :
  rtc (calls obj) name c → tc (calls obj) c c →
  oldcode2_page.build obj fuel name ≠ server.Returns t.
Proof.
  intros Hreach Hcycle. revert name t Hreach.
  induction fuel as [|fuel IH]; intros name t Hreach; [done|].
  assert (∃ x, calls obj name x ∧ rtc (calls obj) x c) as (x & Hx & Hxc).
  { destruct Hreach as [|name x c Hx Hxc]; [|by exists x].
    by apply tc_first. }
  destruct Hx as (node & Hnode & Hin). simpl. rewrite Hnode.
  destruct (callgraph.Callees node) as [|callees]; [done|]. simpl in Hin.
  destruct (server.map_outcome _ callees) as [children| |] eqn:Hmap; try done.
  destruct (map_outcome_elem _ _ _ x Hmap Hin) as [child Hchild].
  by apply IH in Hchild.
Qed.

(** The earlier page has no tree for a graph in which a cycle of calls can
    be reached from a root (a function of the graph that no function
    calls): its [toTree] returns none, at any depth of nesting. *)
Theorem old_toTree_cycle (obj : gmap string callgraph.FunctionNode)
    (keys : list string) (root c : string) (fuel : nat) (t : server.Tree) :
  keys ≡ₚ elements (dom obj) →
  root ∈ dom obj →
  ¬ called obj root →
  rtc (calls obj) root c →
  tc (calls obj) c c →
  oldcode2_page.toTree obj fuel keys ≠ server.Returns t.
Proof.
  intros Hkeys Hroot Hnot Hreach Hcycle. unfold oldcode2_page.toTree.
  destruct (server.delete_callees _ keys) as [roots| |] eqn:Hroots; [|done..].
  apply delete_callees_sub in Hroots.
  destruct (server.map_outcome _ roots) as [children| |] eqn:Hmap; [|done..].
  destruct (map_outcome_elem _ _ _ root Hmap) as [child Hchild].
  { rewrite Hroots. apply list_elem_of_filter. split.
    - by apply uncalled_key.
    - rewrite Hkeys. by apply elem_of_elements. }
  by apply old_build_cycle with (c := c) in Hchild.
Qed.

Lemma old_toTree_cycle_witness :
  oldcode2_page.toTree cyclic_graph 100 (elements (dom cyclic_graph))
  ≠ server.Returns
      (server.mkTree "root" None
         [sample_leaf "main"
            [sample_leaf "A" [sample_leaf "B" [sample_leaf "A" []]]]]).
Proof.
  apply (old_toTree_cycle cyclic_graph (elements (dom cyclic_graph)) "main" "A").
  - reflexivity.
  - by_evaluation.
  - by_evaluation.
  - apply rtc_once. by_evaluation.
  - apply (tc_l _ "A" "B" "A"); [|apply tc_once]; by_evaluation.
Defined.

(** ** oldcode2: the per-file listing and the lexical pipeline *)

Lemma bodies_of_cons k d ds :
  bodies_of k (d :: ds) = bodies_of k [d] ++ bodies_of k ds.
Proof. unfold bodies_of. simpl. by destruct d as [fn|]; [destruct (decide _), (ast.Body fn)|]. Qed.

Lemma bodies_of_one k fn :
  bodies_of k [ast.FuncDeclOf fn]
  = if decide (ast.Name fn = k)
    then match ast.Body fn with Some body => [body] | None => [] end
    else [].
Proof.
  unfold bodies_of. simpl. destruct (decide _); [|done]. by destruct (ast.Body fn).
Qed.

Lemma calls_fold names ds calls0 k :
  foldl (oldcode2_list.calls_decl names) calls0 ds !! k
  = match last (bodies_of k ds) with
    | Some body => Some (ast.Inspect (oldcode2.visit names) body ∅)
    | None => calls0 !! k
    end.
Proof.
  revert calls0. induction ds as [|d ds IH]; intros calls0; [done|].
  cbn [foldl]. rewrite IH, bodies_of_cons.
  destruct d as [fn|]; [|done].
  rewrite bodies_of_one. unfold oldcode2_list.calls_decl.
  destruct (decide (ast.Name fn = k)) as [<-|Hne].
  - destruct (ast.Body fn) as [body|]; [|done].
    cbn [app]. rewrite last_cons.
    destruct (last (bodies_of (ast.Name fn) ds)); [done|].
    by rewrite lookup_insert_eq.
  - destruct (ast.Body fn) as [body|]; [|done].
    cbn [app].
    destruct (last (bodies_of k ds)); [done|]. by rewrite lookup_insert_ne.
Qed.

Lemma edges_of_bodies range_calleeSet names k ds :
  edges_of (lexical_edges range_calleeSet names) k ds
  = concat (oldcode2.calleesOf range_calleeSet names <$> bodies_of k ds).
Proof.
  induction ds as [|d ds IH]; [done|].
  rewrite bodies_of_cons, fmap_app, concat_app, <-IH.
  unfold edges_of, bodies_of. simpl. f_equal.
  destruct d as [fn|]; simpl; [|done].
  destruct (decide _); [|done]. rewrite lexical_edges_body.
  destruct (ast.Body fn); simpl; [by rewrite app_nil_r|done].
Qed.

(** The per-file listing and the lexical pipeline on the same file: under a
    name the listing has the in-file call targets of the last body declared
    under it (and no entry for a name without body), where the graph of the
    pipeline has the targets of every body declared under the name: where
    a file declares a name twice, as two methods do, the listing shows the
    later body only. *)
Theorem listCallHierarchy_last_body
    (range_calleeSet : gset string → list string)
    (file : ast.File) (k : string) :
  (∀ s, range_calleeSet s ≡ₚ elements s) →
  let names := foldl callgraph.declNames ∅ (ast.Decls file) in
  let graph := oldcode2.extractCallGraph range_calleeSet names [file] in
  let bodies := bodies_of k (ast.Decls file) in
  oldcode2_list.calls file !! k
  = (λ body, list_to_set (call_sites body) ∩ names) <$> last bodies
  ∧ (∀ c, c ∈ elems (index graph k)
          ↔ ∃ body, body ∈ bodies ∧ c ∈ call_sites body ∧ c ∈ names).
Proof.
  intros Henum names graph bodies. split.
  - unfold oldcode2_list.calls. fold names. rewrite calls_fold. fold bodies.
    destruct (last bodies) as [body|]; simpl; [|done].
    rewrite Inspect_spec. by rewrite (left_id_L ∅ (∪)).
  - intros c. unfold graph. rewrite extractCallGraph_flat.
    rewrite (edge_fold_elems _ _ (lexical_graph_decl range_calleeSet names)
               (λ _, eq_refl)).
    unfold index at 1. rewrite lookup_empty. simpl.
    unfold allDecls. simpl. rewrite app_nil_r, edges_of_bodies. fold bodies.
    rewrite elem_of_concat. split.
    + intros (l & Hc & (body & -> & Hbody)%list_elem_of_fmap).
      apply calleesOf_elem in Hc; [|done]. by exists body.
    + intros (body & Hbody & Hc).
      exists (oldcode2.calleesOf range_calleeSet names body).
      split; [by apply calleesOf_elem|].
      apply list_elem_of_fmap. by exists body.
Qed.

Lemma listCallHierarchy_last_body_witness :
  let names := foldl callgraph.declNames ∅ (ast.Decls twice_file) in
  let graph := oldcode2.extractCallGraph elements names [twice_file] in
  let bodies := bodies_of "F" (ast.Decls twice_file) in
  oldcode2_list.calls twice_file !! "F"
  = (λ body, list_to_set (call_sites body) ∩ names) <$> last bodies
  ∧ (∀ c, c ∈ elems (index graph "F")
          ↔ ∃ body, body ∈ bodies ∧ c ∈ call_sites body ∧ c ∈ names).
Proof.
  apply (listCallHierarchy_last_body elements twice_file "F").
  intros s. reflexivity.
Defined.

(** The listing of the file that declares [F] twice names [H] under [F],
    where the pipeline has [G] and [H]. *)
Example sample_listing :
  oldcode2_list.listCallHierarchy map_to_list elements (Some twice_file)
  = ["Call hierarchy in t.go:";
     "  - G calls:"; "      • none";
     "  - F calls:"; "      • H";
     "  - H calls:"; "      • none";
     ""]
  ∧ index (oldcode2.extractCallGraph elements
             (foldl callgraph.declNames ∅ (ast.Decls twice_file)) [twice_file])
      "F"
    = make_slice ["G"; "H"].
Proof. split; vm_compute; reflexivity. Qed.
